(** * Bayesian Context Trees: a shallow embedding of the inference engine

    The development follows the modules of the repository:
    [tree_class.py] (the [Tree] class), [bct_main_with_log.py]
    ([construct_tau_max], [calc_log_pe], [construct_log_pm_dict], [bct]),
    [draw_tree.py] (the graph that [draw_tree] builds) and
    [bct_example.py] (the generator of the example chain and the calls of
    [bct] on it).

    Python strings are lists of characters, [set]s of strings are [gset]s,
    [dict]s are [gmap]s, Python integers are [Z] and the 64-bit integers of
    numpy are reduced by [int64].  Exceptions are the [Raise] results of a
    small error monad.  Floating-point arithmetic is an interface
    ([FloatOps]): every theorem holds for every implementation of it. *)

From Stdlib Require Import ZArith Ascii String QArith Reals Lra.
From stdpp Require Import gmap strings list fin_maps.

Local Open Scope Z_scope.
Local Close Scope Q_scope.
Local Close Scope R_scope.

Abbreviation str := (list ascii).

(** Python string literals, for examples. *)
Definition lit (x : string) : str := String.list_ascii_of_string x.

(** ** Exceptions and the error monad *)

Inductive exn : Set :=
  | KeyError
  | AssertionError
  | OutOfFuel.

Inductive result (A : Type) : Type :=
  | Ok (a : A)
  | Raise (e : exn).
Arguments Ok {A} a.
Arguments Raise {A} e.

Global Instance result_ret : MRet result := λ A a, Ok a.
Global Instance result_bind : MBind result := λ A B f m,
  match m with
  | Ok a => f a
  | Raise e => Raise e
  end.

(** A [for] loop whose body may raise. *)
Fixpoint foldM {A B} (f : B → A → result B) (b : B) (l : list A) : result B :=
  match l with
  | [] => Ok b
  | x :: l' => b' ← f b x; foldM f b' l'
  end.

(** A list comprehension whose element expression may raise. *)
Fixpoint mapM' {A B} (f : A → result B) (l : list A) : result (list B) :=
  match l with
  | [] => Ok []
  | x :: l' => y ← f x; ys ← mapM' f l'; Ok (y :: ys)
  end.

(** [d[k]] on a dict: [KeyError] when the key is absent. *)
Definition getitem {V} (d : gmap str V) (k : str) : result V :=
  match d !! k with
  | Some v => Ok v
  | None => Raise KeyError
  end.

(** ** Python sequences *)

(** A slice bound [k] normalised for a sequence of length [n]: negative
    bounds count from the end, and everything is clamped to [0..n]. *)
Definition py_index (n : nat) (k : Z) : nat :=
  if k <? 0 then Z.to_nat (Z.max 0 (k + Z.of_nat n))
  else Z.to_nat (Z.min k (Z.of_nat n)).

(** [l[lo:hi]]; a missing bound is [None]. *)
Definition slice {A} (lo hi : option Z) (l : list A) : list A :=
  let n := length l in
  let a := from_option (py_index n) 0%nat lo in
  let b := from_option (py_index n) n hi in
  take (b - a) (drop a l).

(** [range(lo, hi)]. *)
Definition range (lo hi : Z) : list Z :=
  (λ k : nat, lo + Z.of_nat k) <$> seq 0 (Z.to_nat (hi - lo)).

(** [range(hi, -1, -1)]: [hi, hi-1, ..., 0]. *)
Definition range_down (hi : Z) : list Z := reverse (range 0 (hi + 1)).

(** [l.remove(x)]: drops the first occurrence of [x]. *)
Fixpoint list_remove_first (x : str) (l : list str) : list str :=
  match l with
  | [] => []
  | y :: l' => if decide (x = y) then l' else y :: list_remove_first x l'
  end.

(** ** tree_class.py *)

Record Tree : Type := mkTree {
  s : list ascii;                 (* the alphabet, in iteration order *)
  nodes : gset str;
  edges : gmap str (list str)
}.

(** [Tree.__init__] *)
Definition Tree_init (s : list ascii) : Tree :=
  {| s := s; nodes := {[ [] ]}; edges := ∅ |}.

(** [Tree.add_node] *)
Definition add_node (t : Tree) (node : str) : result Tree :=
  let parent := slice (Some 1) None node in
  if decide (parent ∈ nodes t) then
    let siblings := (λ b, b :: parent) <$> s t in
    Ok {| s := s t;
          nodes := nodes t ∪ list_to_set siblings;
          edges := <[parent := siblings]> (edges t) |}
  else Raise AssertionError.

Definition discard (child : str) (t : Tree) : Tree :=
  {| s := s t; nodes := nodes t ∖ {[child]}; edges := edges t |}.

(** [self.edges.pop(node)] inside the [try]: when the key is gone the
    [KeyError] is swallowed by the handler and nothing changes. *)
Definition pop_edges (node : str) (t : Tree) : Tree :=
  {| s := s t; nodes := nodes t; edges := delete node (edges t) |}.

(** [Tree.prune_at_node]; the recursion depth is bounded by [fuel]. *)
Fixpoint prune_at_node_fuel (fuel : nat) (t : Tree) (node : str) : result Tree :=
  match fuel with
  | O => Raise OutOfFuel
  | S fuel' =>
    match edges t !! node with
    | None => Ok t
    | Some children =>
      t' ← foldM (λ t child,
              if decide (child ∉ dom (edges t)) then Ok (discard child t)
              else t1 ← prune_at_node_fuel fuel' t child; Ok (discard child t1))
            t children;
      Ok (pop_edges node t')
    end
  end.

(** Every key of [edges] is shorter than [key_bound t]. *)
Definition key_bound (t : Tree) : nat :=
  S (max_list (length <$> elements (dom (edges t)))).

Definition prune_at_node (t : Tree) (node : str) : result Tree :=
  prune_at_node_fuel (S (key_bound t)) t node.

(** ** Floating-point arithmetic

    The operations [bct_main_with_log.py] uses on floats: literals, the
    conversion of an integer, [+], [-], [/], [>], [np.log] and [np.exp].
    The one law is that [>] is irreflexive, which holds of IEEE 754
    comparison (also at NaN). *)

Class FloatOps (F : Type) : Type := {
  f0 : F;                          (* 0.0 *)
  half : F;                        (* 0.5 *)
  of_int : Z → F;
  fadd : F → F → F;
  fsub : F → F → F;
  fdiv : F → F → F;
  flog : F → F;
  fexp : F → F;
  fgt : F → F → bool;
  fgt_irrefl : ∀ x, fgt x x = false
}.

(** The builtin [max(a, b)]: the first argument unless the second is
    strictly greater. *)
Definition py_max `{FloatOps F} (a b : F) : F := if fgt b a then b else a.

(** ** bct_main_with_log.py *)

Section bct.
Context `{FloatOps F}.

(** The order in which a [set] of strings is iterated is not fixed by the
    language; [set_order] is that order. *)
Variable set_order : gset str → list str.

(** [counter[present] = 1] if absent, [+= 1] otherwise. *)
Definition count_up (present : str) (counter : gmap str Z) : gmap str Z :=
  match counter !! present with
  | None => <[present := 1]> counter
  | Some n => <[present := n + 1]> counter
  end.

(** The body of the inner loop of the scan, at position [i] and depth [j]. *)
Definition scan_depth (current_string : str) (st : Tree * gmap str Z) (j : Z)
    : result (Tree * gmap str Z) :=
  let '(tree, counter) := st in
  let present := slice (Some (- j - 1)) None current_string in
  let past := slice None (Some (-1)) present in
  tree ← (if decide (1 ≤ j ∧ past ∉ nodes tree)
          then add_node tree past else Ok tree);
  Ok (tree, count_up present counter).

(** The body of the outer loop of the scan, at position [i]. *)
Definition scan_position (dmax : Z) (joint_sample : str)
    (st : Tree * gmap str Z) (i : Z) : result (Tree * gmap str Z) :=
  let current_string := slice (Some (i - dmax)) (Some (i + 1)) joint_sample in
  foldM (scan_depth current_string) st (range 0 (dmax + 1)).

(** [counter[transition] = 0] if absent. *)
Definition fill_zero (counter : gmap str Z) (transition : str) : gmap str Z :=
  if decide (transition ∉ dom counter) then <[transition := 0]> counter
  else counter.

Definition fill_node (s : list ascii) (counter : gmap str Z) (node : str)
    : gmap str Z :=
  let node_transitions := (λ b, node ++ [b]) <$> s in
  foldl fill_zero counter node_transitions.

Definition construct_tau_max (s : list ascii) (dmax : Z)
    (sample initial_ctxt : str) : result (Tree * gmap str Z) :=
  let joint_sample := initial_ctxt ++ sample in
  let tree := Tree_init s in
  let counter : gmap str Z := {[ [] := Z.of_nat (length sample) ]} in
  '(tree, counter) ←
    foldM (scan_position dmax joint_sample) (tree, counter)
      (range (Z.of_nat (length initial_ctxt)) (Z.of_nat (length joint_sample)));
  let counter := foldl (fill_node s) counter (set_order (nodes tree)) in
  Ok (tree, counter).

(** The terms accumulated into [log_numerator] and [log_denominator]. *)
Definition num_term (n : Z) : F := flog (fsub (of_int n) half).
Definition den_term (m : nat) (n : Z) : F :=
  flog (fsub (fadd (of_int n) (fdiv (of_int (Z.of_nat m)) (of_int 2)))
             (of_int 1)).

(** The sum of a list of integers. *)
Definition np_sum (l : list Z) : Z := foldl Z.add 0 l.

(** The value that a signed 64-bit integer holds.  [np.sum] adds the
    counts in an [int64] array and returns an [np.int64]; its sums, and
    the [nu+1] that follows, wrap around without an exception. *)
Definition int64 (z : Z) : Z := (z + 2 ^ 63) mod 2 ^ 64 - 2 ^ 63.

Definition calc_log_pe (s : list ascii) (counter : gmap str Z) (u : str)
    : result F :=
  transition_counts ← mapM' (λ b, getitem counter (u ++ [b])) s;
  if decide (transition_counts = replicate (length s) 0) then Ok f0
  else
    let log_numerator :=
      foldl (λ acc count,
               foldl (λ acc n, fadd acc (num_term n)) acc (range 1 (count + 1)))
            f0 transition_counts in
    let m := length s in
    let nu := int64 (np_sum transition_counts) in
    let log_denominator :=
      foldl (λ acc n, fadd acc (den_term m n)) f0 (range 1 (int64 (nu + 1))) in
    Ok (fsub log_numerator log_denominator).

(** [sum_child_log_pm]: the running sum over the children of a node. *)
Definition sum_child_log_pm (log_pm_dict : gmap str F) (children : list str)
    : result F :=
  foldM (λ acc child, v ← getitem log_pm_dict child; Ok (fadd acc v))
        f0 children.

Definition stop_value (beta pe : F) : F := fadd (flog beta) pe.
Definition split_value (beta sum : F) : F :=
  fadd (flog (fsub (of_int 1) beta)) sum.

(** The body of the loop over [cur_nodes]. *)
Definition log_pm_node (dmax : Z) (beta : F) (tree : Tree)
    (log_pe_dict : gmap str F) (size : Z) (log_pm_dict : gmap str F)
    (node : str) : result (gmap str F) :=
  if decide (size = dmax) then
    pe ← getitem log_pe_dict node;
    Ok (<[node := pe]> log_pm_dict)
  else
    match edges tree !! node with
    | None => Ok (<[node := flog beta]> log_pm_dict)
    | Some children =>
      sum ← sum_child_log_pm log_pm_dict children;
      pe ← getitem log_pe_dict node;
      Ok (<[node := py_max (stop_value beta pe) (split_value beta sum)]>
            log_pm_dict)
    end.

(** The body of the loop over [size]. *)
Definition log_pm_level (dmax : Z) (beta : F) (tree : Tree)
    (log_pe_dict : gmap str F) (log_pm_dict : gmap str F) (size : Z)
    : result (gmap str F) :=
  let cur_nodes :=
    filter (λ node, Z.of_nat (length node) = size) (set_order (nodes tree)) in
  foldM (log_pm_node dmax beta tree log_pe_dict size) log_pm_dict cur_nodes.

Definition construct_log_pm_dict (s : list ascii) (dmax : Z) (beta : F)
    (tree : Tree) (log_pe_dict : gmap str F) : result (gmap str F) :=
  foldM (log_pm_level dmax beta tree log_pe_dict) ∅ (range_down dmax).

(** One iteration of the [while queue] loop of [bct]. *)
Definition prune_step (beta : F) (log_pe_dict log_pm_dict : gmap str F)
    (tau : Tree) (queue : list str) (node : str)
    : result (Tree * list str) :=
  let queue := list_remove_first node queue in
  match edges tau !! node with
  | None => Ok (tau, queue)
  | Some children =>
    sum ← sum_child_log_pm log_pm_dict children;
    pe ← getitem log_pe_dict node;
    if fgt (stop_value beta pe) (split_value beta sum) then
      tau ← prune_at_node tau node; Ok (tau, queue)
    else Ok (tau, queue ++ children)
  end.

Fixpoint prune_loop (fuel : nat) (beta : F)
    (log_pe_dict log_pm_dict : gmap str F) (tau : Tree) (queue : list str)
    : result Tree :=
  match queue with
  | [] => Ok tau
  | node :: _ =>
    match fuel with
    | O => Raise OutOfFuel
    | S fuel' =>
      '(tau, queue) ← prune_step beta log_pe_dict log_pm_dict tau queue node;
      prune_loop fuel' beta log_pe_dict log_pm_dict tau queue
    end
  end.

(** A bound on the number of iterations of the [while] loop: the number
    of strings of length at most [d] over [m] symbols. *)
Fixpoint loop_bound (m d : nat) : nat :=
  match d with
  | O => 1
  | S d' => S (m * loop_bound m d')
  end.

(** [{u: calc_log_pe(s, counter, u) for u in tau.nodes}] *)
Definition log_pe_comprehension (s : list ascii) (counter : gmap str Z)
    (us : list str) : result (gmap str F) :=
  foldM (λ d u, v ← calc_log_pe s counter u; Ok (<[u := v]> d)) ∅ us.

Definition bct (s : list ascii) (dmax : Z) (beta : F)
    (sample initial_ctxt : str) : result (Tree * F) :=
  '(tau, counter) ← construct_tau_max s dmax sample initial_ctxt;
  log_pe_dict ← log_pe_comprehension s counter (set_order (nodes tau));
  log_pm_dict ← construct_log_pm_dict s dmax beta tau log_pe_dict;
  tau ← prune_loop (loop_bound (length s) (Z.to_nat dmax)) beta
          log_pe_dict log_pm_dict tau [ [] ];
  v ← getitem log_pm_dict [];
  let pm_root := fexp v in
  Ok (tau, pm_root).

End bct.

Arguments scan_depth : simpl never.
Arguments scan_position : simpl never.
Arguments calc_log_pe : simpl never.
Arguments log_pm_node : simpl never.
Arguments log_pm_level : simpl never.
Arguments prune_step : simpl never.
Arguments prune_at_node : simpl never.

(** ** draw_tree.py

    The part of [draw_tree] that turns the tree into a graph: the vertex
    labels, the vertex numbers and the edges handed to the graph library.
    The layout and the plot are the work of the libraries. *)

(** The exceptions of lists: [l.index(x)] and [l[k]]. *)
Inductive seq_exn : Set :=
  | ValueError
  | IndexError.

Global Instance seq_ret : MRet (sum seq_exn) := λ A a, inr a.
Global Instance seq_bind : MBind (sum seq_exn) := λ A B f m,
  match m with
  | inr a => f a
  | inl e => inl e
  end.

(** A [for] loop whose body may raise one of them. *)
Fixpoint fold_seq {A B} (f : B → A → seq_exn + B) (b : B) (l : list A)
    : seq_exn + B :=
  match l with
  | [] => inr b
  | x :: l' => b' ← f b x; fold_seq f b' l'
  end.

(** [l.index(x)]: the first position of [x]. *)
Fixpoint index (x : str) (l : list str) : seq_exn + Z :=
  match l with
  | [] => inl ValueError
  | y :: l' => if decide (y = x) then inr 0 else k ← index x l'; inr (k + 1)
  end.

(** [l[k]]: a negative [k] counts from the end. *)
Definition list_getitem {A} (l : list A) (k : Z) : seq_exn + A :=
  let k := if k <? 0 then k + Z.of_nat (length l) else k in
  if k <? 0 then inl IndexError
  else match l !! Z.to_nat k with
       | Some a => inr a
       | None => inl IndexError
       end.

Section draw_tree.

(** The items of a [dict] in the order in which it is iterated. *)
Variable dict_items : gmap str (list str) → list (str * list str).

(** The body of the loop over the children: one more vertex. *)
Definition label_child (st : list str * list Z * Z) (child : str)
    : list str * list Z * Z :=
  let '(v_label, lab, cont) := st in
  let cont := cont + 1 in
  (v_label ++ [child], lab ++ [cont], cont).

(** [nr_vertices], [v_label] and [lab]. *)
Definition draw_tree_labels (tree : Tree) : Z * list str * list Z :=
  let nodes := edges tree in
  let nr_vertices := Z.of_nat (size nodes) * Z.of_nat (length (s tree)) + 1 in
  let '(v_label, lab, _) :=
    foldl (λ st children, foldl label_child st children)
          ([ [] ], [0], 0) (dict_items nodes).*2 in
  (nr_vertices, v_label, lab).

(** [G.add_edges([(lab[v_label.index(father)], lab[v_label.index(children)])])]
    on the list of the edges of [G]. *)
Definition add_edge (v_label : list str) (lab : list Z) (father : str)
    (E : list (Z * Z)) (children : str) : seq_exn + list (Z * Z) :=
  i ← index father v_label;
  a ← list_getitem lab i;
  j ← index children v_label;
  b ← list_getitem lab j;
  inr (E ++ [(a, b)]).

(** The edges of the graph, in the order in which they are added. *)
Definition draw_tree_edges (tree : Tree) : seq_exn + list (Z * Z) :=
  let nodes := edges tree in
  let '(_, v_label, lab) := draw_tree_labels tree in
  fold_seq (λ E '(father, children),
              fold_seq (add_edge v_label lab father) E children)
           [] (dict_items nodes).

End draw_tree.

(** ** bct_example.py *)

(** The rows of the transition matrices; a decimal literal is the
    fraction it denotes. *)
Definition theta1 : list Q := [4 # 10; 4 # 10; 2 # 10]%Q.
Definition theta2 : list Q := [2 # 10; 4 # 10; 4 # 10]%Q.
Definition theta00 : list Q := [4 # 10; 2 # 10; 4 # 10]%Q.
Definition theta01 : list Q := [3 # 10; 6 # 10; 1 # 10]%Q.
Definition theta022 : list Q := [5 # 10; 3 # 10; 2 # 10]%Q.
Definition theta0212 : list Q := [1 # 10; 3 # 10; 6 # 10]%Q.
Definition theta0211 : list Q := [5 # 100; 25 # 100; 7 # 10]%Q.
Definition theta0210 : list Q := [35 # 100; 55 # 100; 1 # 10]%Q.
Definition theta0202 : list Q := [1 # 10; 2 # 10; 7 # 10]%Q.
Definition theta0201 : list Q := [8 # 10; 5 # 100; 15 # 100]%Q.
Definition theta02002 : list Q := [7 # 10; 2 # 10; 1 # 10]%Q.
Definition theta02001 : list Q := [1 # 10; 1 # 10; 8 # 10]%Q.
Definition theta02000 : list Q := [3 # 10; 45 # 100; 25 # 100]%Q.

Definition alphabet : list str := [lit "0"; lit "1"; lit "2"].

(** The [if]/[elif] chain on the last symbols of [values]: the row of
    the context that matches, [None] in the [else] branch. *)
Definition select_theta (values : str) : option (list Q) :=
  if decide (slice (Some (-1)) None values = lit "1") then Some theta1
  else if decide (slice (Some (-1)) None values = lit "2") then Some theta2
  else if decide (slice (Some (-2)) None values = lit "00") then Some theta00
  else if decide (slice (Some (-2)) None values = lit "10") then Some theta01
  else if decide (slice (Some (-3)) None values = lit "220") then Some theta022
  else if decide (slice (Some (-4)) None values = lit "2120") then Some theta0212
  else if decide (slice (Some (-4)) None values = lit "1120") then Some theta0211
  else if decide (slice (Some (-4)) None values = lit "0120") then Some theta0210
  else if decide (slice (Some (-4)) None values = lit "2020") then Some theta0202
  else if decide (slice (Some (-4)) None values = lit "1020") then Some theta0201
  else if decide (slice (Some (-5)) None values = lit "20020") then Some theta02002
  else if decide (slice (Some (-5)) None values = lit "10020") then Some theta02001
  else if decide (slice (Some (-5)) None values = lit "00020") then Some theta02000
  else None.

Section bct_example.
Context `{FloatOps F}.
Variable set_order : gset str → list str.

(** [np.random.choice(np.arange(3), p=...)]: the outcome of a draw is
    fixed by the seed, by the number of draws made since
    [np.random.seed(seed)] and by the row [p]. *)
Context {Seed : Type}.
Variable choice : Seed → nat → list Q → Z.

(** The loop [for _ in range(n)], [k] draws having been made. *)
Fixpoint generate_loop (seed : Seed) (n k : nat) (values : str)
    : seq_exn + str :=
  match n with
  | O => inr values
  | S n' =>
    match select_theta values with
    | None => inr values                      (* the error is printed; break *)
    | Some p =>
      let current_state := choice seed k p in
      symbol ← list_getitem alphabet current_state;
      generate_loop seed n' (S k) (values ++ symbol)
    end
  end.

Definition generate_variable_length_markov_chain (n : Z) (initial_ctxt : str)
    (seed : Seed) : seq_exn + str :=
  values ← generate_loop seed (Z.to_nat n) 0 initial_ctxt;
  let sample := slice (Some (Z.of_nat (length initial_ctxt))) None values in
  inr sample.

(** One of the two examples of [example(seed)], up to the call of [bct]:
    [size] is [10_000] in the first and [1_000] in the second.  The float
    [0.75] is [3/4]. *)
Definition example_bct (seed : Seed) (size : Z) : seq_exn + result (Tree * F) :=
  lines ← generate_variable_length_markov_chain (size * 2) (lit "000") seed;
  let dmax := 10 in
  inr (bct set_order (lit "012") dmax (fdiv (of_int 3) (of_int 4))
         (slice (Some size) None lines)
         (slice (Some (size - dmax)) (Some size) lines)).

End bct_example.

(** ** Two implementations of the float interface *)

(** Exact rational arithmetic; [log] and [exp] are replaced by their
    first-order expansions, so that the definitions can be run. *)
Definition Qgt_bool (x y : Q) : bool := negb (Qle_bool x y).

#[export] Instance Qops : FloatOps Q.
Proof.
  refine {| f0 := 0%Q;
            half := (1 # 2)%Q;
            of_int := inject_Z;
            fadd := Qplus;
            fsub := Qminus;
            fdiv := Qdiv;
            flog := λ x, Qred (x - 1)%Q;
            fexp := λ x, Qred (1 + x)%Q;
            fgt := Qgt_bool |}.
  intros x. unfold Qgt_bool. apply negb_false_iff, Qle_bool_iff, Qle_refl.
Defined.

(** Real arithmetic. *)
Definition Rgt_bool (x y : R) : bool := if Rlt_dec y x then true else false.

#[export] Instance Rops : FloatOps R.
Proof.
  refine {| f0 := 0%R;
            half := (/ 2)%R;
            of_int := IZR;
            fadd := Rplus;
            fsub := Rminus;
            fdiv := Rdiv;
            flog := ln;
            fexp := exp;
            fgt := Rgt_bool |}.
  intros x. unfold Rgt_bool. destruct (Rlt_dec x x) as [Hlt|]; [|done].
  by apply Rlt_irrefl in Hlt.
Defined.

(** Sets iterated in the order of [elements]. *)
Definition elements_order (X : gset str) : list str := elements X.

(** * Specifications *)

(** The children of [k]: [[b+k for b in s]]. *)
Definition children_of (s : list ascii) (k : str) : list str :=
  (λ b, b :: k) <$> s.

(** [node[1:]] *)
Definition parent_of (x : str) : str := slice (Some 1) None x.

(** The structural invariant of the class. *)
Record tree_inv (t : Tree) : Prop := {
  inv_edges : ∀ k cs, edges t !! k = Some cs →
    cs = children_of (s t) k ∧ length cs = length (s t) ∧
    ∀ c, c ∈ cs → c ∈ nodes t;
  inv_closed : ∀ x, x ∈ nodes t → (0 < length x)%nat →
    parent_of x ∈ nodes t ∧ ∀ b, b ∈ s t → b :: parent_of x ∈ nodes t;
  inv_root : [] ∈ nodes t
}.

(** The trees that the constructor and the two methods can produce. *)
Inductive reachable (s0 : list ascii) : Tree → Prop :=
  | reach_init : reachable s0 (Tree_init s0)
  | reach_add t node t' :
      reachable s0 t → add_node t node = Ok t' → reachable s0 t'
  | reach_prune t node t' :
      reachable s0 t → prune_at_node t node = Ok t' → reachable s0 t'.

(** [x] is reached from [n] by following [edges] at least once. *)
Inductive descendant (t : Tree) (n : str) : str → Prop :=
  | desc_child cs c :
      edges t !! n = Some cs → c ∈ cs → descendant t n c
  | desc_step x cs c :
      descendant t n x → edges t !! x = Some cs → c ∈ cs → descendant t n c.

(** The part of the invariant that also holds while a subtree is being
    removed: the shape of the edge lists, keys are nodes, and every node
    but the root is listed under its parent. *)
Record wf (t : Tree) : Prop := {
  wf_shape : ∀ k cs, edges t !! k = Some cs → cs = children_of (s t) k;
  wf_keys : ∀ k, k ∈ dom (edges t) → k ∈ nodes t;
  wf_parent : ∀ b x, b :: x ∈ nodes t → x ∈ dom (edges t) ∧ b ∈ s t
}.

(** The invariant that holds between calls. *)
Record complete (t : Tree) : Prop := {
  complete_wf : wf t;
  complete_children : ∀ k b, k ∈ dom (edges t) → b ∈ s t → b :: k ∈ nodes t;
  complete_root : [] ∈ nodes t
}.

(** Every key of [edges] is shorter than [L]. *)
Definition keys_below (L : nat) (t : Tree) : Prop :=
  ∀ k, k ∈ dom (edges t) → (length k < L)%nat.

(** [x] is a proper extension of [n] to the left. *)
Definition below (n x : str) : Prop := n `suffix_of` x ∧ x ≠ n.

(** The tree without [n] and everything under it. *)
Definition remove_from (n : str) (t : Tree) : Tree :=
  {| s := s t;
     nodes := filter (λ x, ¬ n `suffix_of` x) (nodes t);
     edges := filter (λ kv, ¬ n `suffix_of` kv.1) (edges t) |}.

(** The tree in which [n] has become a leaf. *)
Definition prune_spec (n : str) (t : Tree) : Tree :=
  {| s := s t;
     nodes := filter (λ x, ¬ below n x) (nodes t);
     edges := filter (λ kv, ¬ n `suffix_of` kv.1) (edges t) |}.

(** What the scan maintains on every input. *)
Record scan_inv (s0 : list ascii) (dmax : Z) (t : Tree) : Prop := {
  scan_complete : complete t;
  scan_alphabet : s t = s0;
  scan_depth_nodes : ∀ x, x ∈ nodes t → Z.of_nat (length x) ≤ Z.max 0 dmax;
  scan_depth_keys : ∀ k, k ∈ dom (edges t) → Z.of_nat (length k) < dmax
}.

(** Iteration orders of sets: any enumeration of the elements. *)
Definition valid_order (order : gset str → list str) : Prop :=
  ∀ X, order X ≡ₚ elements X.

(** The count of [w], [0] when there is no entry. *)
Definition tally (c : gmap str Z) (w : str) : Z := default 0 (c !! w).

(** All the strings [node + b]. *)
Definition transitions (s0 : list ascii) (us : list str) : list str :=
  u ← us; (λ b, u ++ [b]) <$> s0.

(** The [k] symbols before position [i]. *)
Definition ctx (joint : str) (i : Z) (k : nat) : str :=
  take k (drop (Z.to_nat i - k) joint).

(** The [k] symbols before position [i] followed by the symbol at [i]. *)
Definition win (joint : str) (i : Z) (k : nat) : str :=
  take (S k) (drop (Z.to_nat i - k) joint).

(** The inputs as the entry point takes them: an alphabet of distinct
    symbols, a sample and an initial context over it, and a depth that the
    initial context covers. *)
Record valid_input (s0 : list ascii) (dmax : Z) (sample ic : str) : Prop := {
  valid_alphabet : NoDup s0;
  valid_sample : Forall (λ a, a ∈ s0) sample;
  valid_ctxt : Forall (λ a, a ∈ s0) ic;
  valid_depth : 0 ≤ dmax ≤ Z.of_nat (length ic)
}.

(** The number of positions [i] of the scanned range at which the
    [len(u)] symbols before [i] are [u]. *)
Definition context_count (joint : str) (lo hi : Z) (u : str) : Z :=
  Z.of_nat (length (filter
    (λ i, slice (Some (i - Z.of_nat (length u))) (Some i) joint = u)
    (range lo hi))).

(** A sum accumulated from [0.0], left to right. *)
Definition fsum `{FloatOps F} (l : list F) : F := foldl fadd f0 l.

(** The terms of the numerator, in the order of the alphabet and then of
    [n]. *)
Definition numerator_terms `{FloatOps F} (counts : list Z) : list F :=
  count ← counts; num_term <$> range 1 (count + 1).

(** The same sums, symbol by symbol. *)
Definition nested_numerator `{FloatOps F} (counts : list Z) : F :=
  fsum ((λ count, fsum (num_term <$> range 1 (count + 1))) <$> counts).

(** The value the loop body assigns to [node], read off the dictionary
    [d] of the values assigned so far. *)
Definition node_value `{FloatOps F} (dmax : Z) (beta : F) (t : Tree)
    (pe : gmap str F) (d : gmap str F) (u : str) : result F :=
  if decide (Z.of_nat (length u) = dmax) then getitem pe u
  else
    match edges t !! u with
    | None => Ok (flog beta)
    | Some children =>
      sum ← sum_child_log_pm d children;
      pe_u ← getitem pe u;
      Ok (py_max (stop_value beta pe_u) (split_value beta sum))
    end.

(** The dictionaries that hold, for the nodes of depth [lo] to [dmax], the
    values of the recursion. *)
Definition pm_spec `{FloatOps F} (dmax : Z) (beta : F) (t : Tree)
    (pe : gmap str F) (lo : Z) (d : gmap str F) : Prop :=
  (∀ u, u ∈ dom d ↔ u ∈ nodes t ∧ lo ≤ Z.of_nat (length u) ≤ dmax) ∧
  ∀ u v, d !! u = Some v → node_value dmax beta t pe d u = Ok v.

(** The sizes processed before size [k]. *)
Definition levels_above (dmax k : Z) : list Z := reverse (range (k + 1) (dmax + 1)).

(** What the loop maintains of the tree it prunes, [t] being the maximal
    tree. *)
Record loop_inv (s0 : list ascii) (t tau : Tree) : Prop := {
  loop_complete : complete tau;
  loop_alphabet : s tau = s0;
  loop_nodes : nodes tau ⊆ nodes t;
  loop_keys : dom (edges tau) ⊆ dom (edges t)
}.

(** The iterations the loop can still make on a queue. *)
Definition queue_weight (m : nat) (dmax : Z) (queue : list str) : nat :=
  sum_list_with
    (λ q, loop_bound m (Z.to_nat dmax - length q)) queue.

(** Sets iterated in the opposite order. *)
Definition reverse_order (X : gset str) : list str := reverse (elements X).

(** The tree after [add_node("0")] on the alphabet ["01"]. *)
Definition example_tree : Tree :=
  {| s := lit "01";
     nodes := {[ []; lit "0"; lit "1" ]};
     edges := {[ [] := [lit "0"; lit "1"] ]} |}.

(** The counter of the sample ["00"] over the alphabet ["01"] at depth 0. *)
Definition example_counter : gmap str Z :=
  {[ [] := 2; lit "0" := 2; lit "1" := 0 ]}.

(** ** Further specifications *)

(** The children of [k], as a set. *)
Definition child_set (s0 : list ascii) (k : str) : gset str :=
  list_to_set (children_of s0 k).

(** The number of scanned positions [i] at which the window of length
    [len(w)] that ends with the symbol at [i] is [w]. *)
Definition window_count (joint : str) (lo hi : Z) (w : str) : Z :=
  Z.of_nat (length (filter
    (λ i, slice (Some (i + 1 - Z.of_nat (length w))) (Some (i + 1)) joint = w)
    (range lo hi))).

(** The comparison of the pruning loop at [u], read on the maximal tree:
    [true] when [log(beta) + log_pe(u) > log(1-beta) + sum]. *)
Definition prunes `{FloatOps F} (beta : F) (t : Tree) (pe pm : gmap str F)
    (u : str) : bool :=
  match edges t !! u with
  | None => false
  | Some children =>
    match sum_child_log_pm pm children, getitem pe u with
    | Ok sum, Ok pe_u => fgt (stop_value beta pe_u) (split_value beta sum)
    | _, _ => false
    end
  end.

(** The comparison fails at every proper ancestor of [u]. *)
Definition kept `{FloatOps F} (beta : F) (t : Tree) (pe pm : gmap str F)
    (u : str) : Prop :=
  ∀ a, below a u → prunes beta t pe pm a = false.

(** What the pruning loop maintains of the pruned tree [tau] and of the
    queue, [t] being the maximal tree. *)
Record map_inv `{FloatOps F} (s0 : list ascii) (beta : F) (t : Tree)
    (pe pm : gmap str F) (tau : Tree) (queue : list str) : Prop := {
  map_loop : loop_inv s0 t tau;
  map_queue : ∀ q, q ∈ queue → q ∈ nodes t ∧ kept beta t pe pm q;
  map_nodes : ∀ u, u ∈ nodes t → kept beta t pe pm u → u ∈ nodes tau;
  map_edges : ∀ u, u ∈ dom (edges t) → kept beta t pe pm u →
    prunes beta t pe pm u = false → u ∈ dom (edges tau);
  map_pending : ∀ u, u ∈ dom (edges tau) →
    (kept beta t pe pm u ∧ prunes beta t pe pm u = false) ∨
    ∃ q, q ∈ queue ∧ q `suffix_of` u
}.

(** Iteration orders of dicts: any enumeration of the items. *)
Definition valid_dict_order
    (items : gmap str (list str) → list (str * list str)) : Prop :=
  ∀ m, items m ≡ₚ map_to_list m.

(** The pairs (father, child) in the order in which the edges are added. *)
Definition family (items : list (str * list str)) : list (str * str) :=
  '(father, children) ← items; (λ child, (father, child)) <$> children.

(** The position of [x] in [l], [0] when it is absent. *)
Definition position (l : list str) (x : str) : Z :=
  match index x l with
  | inr k => k
  | inl _ => 0
  end.

(** Dicts iterated in the order of [map_to_list]. *)
Definition map_order (m : gmap str (list str)) : list (str * list str) :=
  map_to_list m.

(** The contexts of the example chain with their rows, in the order of the
    [if]/[elif] chain. *)
Definition context_table : list (str * list Q) :=
  [(lit "1", theta1);
   (lit "2", theta2);
   (lit "00", theta00);
   (lit "10", theta01);
   (lit "220", theta022);
   (lit "2120", theta0212);
   (lit "1120", theta0211);
   (lit "0120", theta0210);
   (lit "2020", theta0202);
   (lit "1020", theta0201);
   (lit "20020", theta02002);
   (lit "10020", theta02001);
   (lit "00020", theta02000)].

(** The row of the first context of a table that [values] ends with. *)
Fixpoint table_find (table : list (str * list Q)) (values : str)
    : option (list Q) :=
  match table with
  | [] => None
  | (c, p) :: table' =>
    if decide (c `suffix_of` values) then Some p else table_find table' values
  end.

(** No context of the table is a suffix of a later one, nor a later one
    of it. *)
Fixpoint suffix_free (table : list (str * list Q)) : bool :=
  match table with
  | [] => true
  | (c, _) :: table' =>
    forallb (λ e, bool_decide (¬ c `suffix_of` e.1 ∧ ¬ e.1 `suffix_of` c)) table'
    && suffix_free table'
  end.

(** The strings of length [n] over ["012"]. *)
Fixpoint words (n : nat) : list str :=
  match n with
  | O => [ [] ]
  | S n' => a ← lit "012"; (λ w, a :: w) <$> words n'
  end.

(** The outcomes of [np.random.choice(np.arange(3), ...)] are [0], [1]
    and [2]. *)
Definition valid_choice {Seed : Type} (choice : Seed → nat → list Q → Z) : Prop :=
  ∀ seed k p, 0 ≤ choice seed k p < 3.

(** The sum of a row. *)
Definition row_sum (p : list Q) : Q := foldr Qplus 0%Q p.

(** A tree that [add_node] cannot build: the keys of [edges] form the
    chain ["a"], ["b"], ["c"], none the parent of its child. *)
Definition chain_tree : Tree :=
  {| s := lit "abc";
     nodes := {[ lit "a"; lit "b"; lit "c"; lit "d" ]};
     edges := {[ lit "a" := [lit "b"]; lit "b" := [lit "c"];
                 lit "c" := [lit "d"] ]} |}.

(** * Properties *)

(** ** The error monad *)

(** Rewrites with the result of a stage and steps through the bind. *)
Ltac run_stage H := rewrite H; cbn [mbind result_bind].

Lemma bind_Ok {A B} (f : A → result B) (m : result A) (b : B) :
  m ≫= f = Ok b ↔ ∃ a, m = Ok a ∧ f a = Ok b.
Proof.
  destruct m as [a|e]; simpl.
  - split; [eauto|]. by intros (a' & [= ->] & ?).
  - split; [done|]. by intros (? & ? & ?).
Qed.

Lemma foldM_app {A B} (f : B → A → result B) b l1 l2 :
  foldM f b (l1 ++ l2) = foldM f b l1 ≫= λ b', foldM f b' l2.
Proof.
  revert b. induction l1 as [|x l1 IH]; intros b; simpl; [done|].
  destruct (f b x); simpl; [apply IH|done].
Qed.

Lemma foldM_pure {A B} (f : B → A → result B) (g : B → A → B) b l :
  (∀ b x, f b x = Ok (g b x)) → foldM f b l = Ok (foldl g b l).
Proof.
  intros Hfg. revert b. induction l as [|x l IH]; intros b; simpl; [done|].
  rewrite Hfg. simpl. apply IH.
Qed.

(** An invariant of a loop that does not raise on states satisfying it. *)
Lemma foldM_invariant {A B} (P : B → Prop) (f : B → A → result B) b l :
  P b →
  (∀ b x, P b → x ∈ l → ∃ b', f b x = Ok b' ∧ P b') →
  ∃ b', foldM f b l = Ok b' ∧ P b'.
Proof.
  revert b. induction l as [|x l IH]; intros b Hb Hstep; simpl; [eauto|].
  destruct (Hstep b x Hb) as (b' & -> & Hb'); [left|]. simpl.
  apply IH; [done|]. intros b1 y ? ?. apply Hstep; [done|by right].
Qed.

(** ** Slices *)

Lemma slice_tail {A} (l : list A) : slice (Some 1) None l = drop 1 l.
Proof.
  unfold slice, py_index; simpl.
  replace (Z.to_nat (1 `min` Z.of_nat (length l))) with (1 `min` length l)%nat by lia.
  destruct l as [|x l]; simpl; [done|]. rewrite drop_0.
  apply take_ge. lia.
Qed.

Lemma slice_init {A} (l : list A) :
  slice None (Some (-1)) l = take (length l - 1) l.
Proof.
  unfold slice, py_index; simpl. rewrite drop_0. f_equal. lia.
Qed.

Lemma slice_last {A} (j : Z) (l : list A) :
  0 ≤ j → slice (Some (- j - 1)) None l = drop (length l - Z.to_nat (j + 1)) l.
Proof.
  intros Hj. unfold slice, py_index; simpl.
  destruct (Z.ltb_spec (- j - 1) 0) as [_|?]; [|lia].
  replace (Z.to_nat (0 `max` (- j - 1 + Z.of_nat (length l))))
    with (length l - Z.to_nat (j + 1))%nat by lia.
  apply take_ge. rewrite length_drop. lia.
Qed.

Lemma slice_window {A} (lo hi : Z) (l : list A) :
  0 ≤ lo → lo ≤ hi → hi ≤ Z.of_nat (length l) →
  slice (Some lo) (Some hi) l = take (Z.to_nat (hi - lo)) (drop (Z.to_nat lo) l).
Proof.
  intros Hlo Hhi Hn. unfold slice, py_index; simpl.
  destruct (Z.ltb_spec lo 0) as [?|_]; [lia|].
  destruct (Z.ltb_spec hi 0) as [?|_]; [lia|].
  f_equal; [lia|]. f_equal. lia.
Qed.

Lemma elem_of_range (lo hi k : Z) : k ∈ range lo hi ↔ lo ≤ k < hi.
Proof.
  unfold range. rewrite list_elem_of_fmap. split.
  - intros (n & -> & Hn). apply elem_of_seq in Hn. lia.
  - intros Hk. exists (Z.to_nat (k - lo)). split; [lia|].
    apply elem_of_seq. lia.
Qed.

Lemma range_nil (lo hi : Z) : hi ≤ lo → range lo hi = [].
Proof. intros Hle. unfold range. by replace (Z.to_nat (hi - lo)) with 0%nat by lia. Qed.

Lemma range_snoc (lo hi : Z) : lo ≤ hi → range lo (hi + 1) = range lo hi ++ [hi].
Proof.
  intros Hle. unfold range.
  replace (Z.to_nat (hi + 1 - lo)) with (S (Z.to_nat (hi - lo))) by lia.
  rewrite seq_S, fmap_app. simpl. do 2 f_equal. lia.
Qed.

Lemma range_cons (lo hi : Z) : lo < hi → range lo hi = lo :: range (lo + 1) hi.
Proof.
  intros Hlt. unfold range.
  replace (Z.to_nat (hi - lo)) with (S (Z.to_nat (hi - (lo + 1)))) by lia.
  simpl. f_equal; [lia|]. rewrite <- seq_shift, <- list_fmap_compose.
  apply list_fmap_ext. intros _ k _. simpl. lia.
Qed.

Lemma NoDup_range (lo hi : Z) : NoDup (range lo hi).
Proof.
  unfold range. apply NoDup_fmap_2; [|apply NoDup_seq].
  intros x y ?. lia.
Qed.

(** ** The tree *)

Section tree.
Implicit Types (t : Tree) (n x k c : str).

Lemma Tree_eq t1 t2 :
  s t1 = s t2 → (∀ x, x ∈ nodes t1 ↔ x ∈ nodes t2) →
  (∀ k, edges t1 !! k = edges t2 !! k) → t1 = t2.
Proof.
  destruct t1, t2; simpl. intros -> Hn He. f_equal.
  - by apply set_eq.
  - by apply map_eq.
Qed.

Lemma parent_of_cons b x : parent_of (b :: x) = x.
Proof. unfold parent_of. by rewrite slice_tail. Qed.

Lemma parent_of_nil : parent_of [] = [].
Proof. unfold parent_of. by rewrite slice_tail. Qed.

Lemma elem_of_children_of s0 k c :
  c ∈ children_of s0 k ↔ ∃ b, c = b :: k ∧ b ∈ s0.
Proof. unfold children_of. by rewrite list_elem_of_fmap. Qed.

Lemma below_cons n b x : n `suffix_of` x → below n (b :: x).
Proof.
  intros Hs. split; [by apply suffix_cons_r|].
  intros <-. by apply suffix_cons_not in Hs.
Qed.

Lemma below_inv n x : below n x → ∃ w b, x = w ++ b :: n.
Proof.
  intros [[w ->] Hne]. destruct w as [|b w _] using rev_ind; [done|].
  exists w, b. by rewrite <- app_assoc.
Qed.

Lemma wf_ancestors t w n :
  wf t → w ≠ [] → w ++ n ∈ nodes t → n ∈ dom (edges t).
Proof.
  intros Hwf. induction w as [|a w IH]; [done|]. intros _ Hin. simpl in Hin.
  apply (wf_parent _ Hwf) in Hin as [Hdom _].
  destruct w as [|a' w]; [done|]. apply IH; [done|].
  by apply (wf_keys _ Hwf).
Qed.

Lemma wf_below_dom t n x : wf t → x ∈ nodes t → below n x → n ∈ dom (edges t).
Proof.
  intros Hwf Hin [[w ->] Hne]. apply (wf_ancestors t w); [done| |done].
  by intros ->.
Qed.

Lemma wf_suffix_dom t n k :
  wf t → k ∈ dom (edges t) → n `suffix_of` k → n ∈ dom (edges t).
Proof.
  intros Hwf Hk Hs. destruct (decide (k = n)) as [->|Hne]; [done|].
  apply (wf_below_dom t n k); [done|by apply (wf_keys _ Hwf)|done].
Qed.

Lemma wf_below_child t n x :
  wf t → x ∈ nodes t → below n x → ∃ b, b ∈ s t ∧ (b :: n) `suffix_of` x.
Proof.
  intros Hwf Hin Hb. destruct (below_inv _ _ Hb) as (w & b & ->).
  exists b. split; [|by exists w].
  destruct w as [|a w].
  - by apply (wf_parent _ Hwf) in Hin as [_ ?].
  - assert (b :: n ∈ dom (edges t)) as Hd
      by (by apply (wf_ancestors t (a :: w))).
    apply (wf_keys _ Hwf) in Hd. by apply (wf_parent _ Hwf) in Hd as [_ ?].
Qed.

Lemma remove_from_leaf t c :
  wf t → c ∉ dom (edges t) → remove_from c t = discard c t.
Proof.
  intros Hwf Hc. apply Tree_eq; simpl; [done| |].
  - intros x. rewrite elem_of_filter, elem_of_difference, elem_of_singleton.
    split; intros [H1 H2]; (split; [|]); try done.
    + by intros ->.
    + intros Hs. destruct Hc. by apply (wf_below_dom t c x).
  - intros k. f_equal. apply map_filter_id. intros k' v Hk Hs. simpl in Hs.
    destruct Hc. apply (wf_suffix_dom t c k'); [done| |done].
    apply elem_of_dom. eauto.
Qed.

Lemma remove_from_prune t c : discard c (prune_spec c t) = remove_from c t.
Proof.
  apply Tree_eq; simpl; [done| |done].
  intros x. rewrite elem_of_difference, !elem_of_filter, elem_of_singleton.
  unfold below. split.
  - intros [[H1 H2] H3]. split; [|done]. intros Hs. by destruct H1.
  - intros [H1 H2]. split; [split; [|done]|].
    + by intros [? ?].
    + by intros ->.
Qed.

Lemma remove_from_dom n t k :
  k ∈ dom (edges (remove_from n t)) ↔ k ∈ dom (edges t) ∧ ¬ n `suffix_of` k.
Proof.
  simpl. rewrite !elem_of_dom. unfold is_Some.
  setoid_rewrite map_lookup_filter_Some. simpl. naive_solver.
Qed.

Lemma prune_spec_dom n t k :
  k ∈ dom (edges (prune_spec n t)) ↔ k ∈ dom (edges t) ∧ ¬ n `suffix_of` k.
Proof. apply remove_from_dom. Qed.

Lemma wf_remove_from t n : wf t → wf (remove_from n t).
Proof.
  intros Hwf. split.
  - intros k cs. simpl. rewrite map_lookup_filter_Some.
    intros [Hk _]. by apply (wf_shape _ Hwf).
  - intros k [Hk Hs]%remove_from_dom. simpl. apply elem_of_filter.
    split; [done|]. by apply (wf_keys _ Hwf).
  - intros b x. simpl. rewrite elem_of_filter. intros [Hs Hin].
    apply (wf_parent _ Hwf) in Hin as [Hd Hb]. split; [|done].
    apply remove_from_dom. split; [done|].
    intros Hs'. destruct Hs. by apply suffix_cons_r.
Qed.

Lemma keys_below_remove_from L t n :
  keys_below L t → keys_below L (remove_from n t).
Proof. intros Hk k [Hd _]%remove_from_dom. by apply Hk. Qed.

Lemma foldl_remove_from_s t cs :
  s (foldl (λ t c, remove_from c t) t cs) = s t.
Proof. revert t. induction cs as [|c cs IH]; intros t; simpl; [done|]. by rewrite IH. Qed.

Lemma foldl_remove_from_nodes t cs x :
  x ∈ nodes (foldl (λ t c, remove_from c t) t cs) ↔
  x ∈ nodes t ∧ ∀ c, c ∈ cs → ¬ c `suffix_of` x.
Proof.
  revert t. induction cs as [|c cs IH]; intros t; simpl.
  - split; [|naive_solver]. intros ?. split; [done|]. by intros ? ?%elem_of_nil.
  - rewrite IH. simpl. rewrite elem_of_filter.
    setoid_rewrite elem_of_cons. naive_solver.
Qed.

Lemma foldl_remove_from_edges t cs k v :
  edges (foldl (λ t c, remove_from c t) t cs) !! k = Some v ↔
  edges t !! k = Some v ∧ ∀ c, c ∈ cs → ¬ c `suffix_of` k.
Proof.
  revert t. induction cs as [|c cs IH]; intros t; simpl.
  - split; [|naive_solver]. intros ?. split; [done|]. by intros ? ?%elem_of_nil.
  - rewrite IH. simpl. rewrite map_lookup_filter_Some. simpl.
    setoid_rewrite elem_of_cons. naive_solver.
Qed.

Lemma prune_spec_children t n :
  wf t → n ∈ dom (edges t) →
  pop_edges n (foldl (λ t c, remove_from c t) t (children_of (s t) n))
  = prune_spec n t.
Proof.
  intros Hwf Hn. apply Tree_eq; simpl.
  - apply foldl_remove_from_s.
  - intros x. rewrite foldl_remove_from_nodes, elem_of_filter. split.
    + intros [Hin Hcs]. split; [|done]. intros Hb.
      destruct (wf_below_child t n x Hwf Hin Hb) as (b & Hb1 & Hb2).
      apply (Hcs (b :: n)); [|done]. apply elem_of_children_of. eauto.
    + intros [Hb Hin]. split; [done|].
      intros c (b & -> & _)%elem_of_children_of Hs. apply Hb.
      split; [by apply suffix_cons_l in Hs|].
      intros ->. by apply suffix_cons_not in Hs.
  - intros k. apply option_eq. intros v.
    rewrite lookup_delete_Some, foldl_remove_from_edges, map_lookup_filter_Some.
    simpl. split.
    + intros [Hne [Hk Hcs]]. split; [done|]. intros Hs.
      assert (below n k) as Hb by done.
      assert (k ∈ nodes t) as Hin.
      { apply (wf_keys _ Hwf), elem_of_dom. eauto. }
      destruct (wf_below_child t n k Hwf Hin Hb) as (b & Hb1 & Hb2).
      apply (Hcs (b :: n)); [|done]. apply elem_of_children_of. eauto.
    + intros [Hk Hs]. split; [by intros ->|]. split; [done|].
      intros c (b & -> & _)%elem_of_children_of Hs'. apply Hs.
      by apply suffix_cons_l in Hs'.
Qed.

Lemma prune_spec_leaf t n : wf t → n ∉ dom (edges t) → prune_spec n t = t.
Proof.
  intros Hwf Hn. apply Tree_eq; simpl; [done| |].
  - intros x. rewrite elem_of_filter. split; [naive_solver|].
    intros Hin. split; [|done]. intros Hb. destruct Hn.
    by apply (wf_below_dom t n x).
  - intros k. f_equal. apply map_filter_id. intros k' v Hk Hs. simpl in Hs.
    destruct Hn. apply (wf_suffix_dom t n k'); [done| |done].
    apply elem_of_dom. eauto.
Qed.

(** With enough fuel the recursion computes [prune_spec]. *)
Lemma prune_at_node_fuel_spec L fuel t n :
  wf t → keys_below L t → (0 < fuel)%nat → (L < fuel + length n)%nat →
  prune_at_node_fuel fuel t n = Ok (prune_spec n t).
Proof.
  revert t n. induction fuel as [|fuel IH]; intros t n Hwf HL Hpos Hfuel; [lia|].
  simpl. destruct (edges t !! n) as [cs|] eqn:Hn.
  2: { rewrite prune_spec_leaf; [done..|]. by apply not_elem_of_dom. }
  pose proof (wf_shape _ Hwf _ _ Hn) as ->.
  assert (n ∈ dom (edges t)) as Hd by (apply elem_of_dom; eauto).
  rewrite <- (prune_spec_children t n Hwf Hd).
  assert (∀ cs t1, wf t1 → keys_below L t1 →
            (∀ c, c ∈ cs → length c = S (length n)) →
            foldM (λ t c,
               if decide (c ∉ dom (edges t)) then Ok (discard c t)
               else t1 ← prune_at_node_fuel fuel t c; Ok (discard c t1)) t1 cs
            = Ok (foldl (λ t c, remove_from c t) t1 cs)) as Hloop.
  { clear Hn Hd. induction cs as [|c cs IHcs]; intros t1 Hwf1 HL1 Hlen; simpl; [done|].
    assert (length c = S (length n)) as Hc by (apply Hlen; left).
    assert ((if decide (c ∉ dom (edges t1)) then Ok (discard c t1)
             else t2 ← prune_at_node_fuel fuel t1 c; Ok (discard c t2))
            = Ok (remove_from c t1)) as ->.
    { case_decide as Hcd.
      - by rewrite remove_from_leaf.
      - pose proof (HL1 _ Hcd).
        rewrite IH; [|done|done|lia|lia]. simpl.
        by rewrite remove_from_prune. }
    simpl. apply IHcs.
    - by apply wf_remove_from.
    - by apply keys_below_remove_from.
    - intros c' ?. apply Hlen. by right. }
  rewrite Hloop; [done|done|done|].
  by intros c (b & -> & _)%elem_of_children_of.
Qed.

Lemma keys_below_key_bound t : keys_below (key_bound t) t.
Proof.
  intros k Hk. unfold key_bound.
  assert (length k ≤ max_list (length <$> elements (dom (edges t))))%nat; [|lia].
  apply max_list_elem_of_le, list_elem_of_fmap. exists k.
  split; [done|]. by apply elem_of_elements.
Qed.

Lemma prune_at_node_spec t n : wf t → prune_at_node t n = Ok (prune_spec n t).
Proof.
  intros Hwf. unfold prune_at_node.
  apply (prune_at_node_fuel_spec (key_bound t)); [done| |lia|lia].
  apply keys_below_key_bound.
Qed.

End tree.

Section tree_invariant.
Implicit Types (t : Tree) (n x k c : str).

Lemma complete_init s0 : complete (Tree_init s0).
Proof.
  split; [split|..]; simpl.
  - intros k cs. by rewrite lookup_empty.
  - intros k. by rewrite dom_empty_L, elem_of_empty.
  - intros b x. by rewrite elem_of_singleton.
  - intros k b. by rewrite dom_empty_L, elem_of_empty.
  - by apply elem_of_singleton.
Qed.

Lemma add_node_Ok t node t' :
  add_node t node = Ok t' ↔
  parent_of node ∈ nodes t ∧
  t' = {| s := s t;
          nodes := nodes t ∪ list_to_set (children_of (s t) (parent_of node));
          edges := <[parent_of node := children_of (s t) (parent_of node)]>
                     (edges t) |}.
Proof.
  unfold add_node. fold (parent_of node). case_decide; [|naive_solver].
  unfold children_of. naive_solver.
Qed.

Lemma complete_add_node t node t' :
  complete t → add_node t node = Ok t' → complete t'.
Proof.
  intros [Hwf Hch Hroot] [Hp ->]%add_node_Ok.
  set (p := parent_of node) in *.
  split; [split|..]; simpl.
  - intros k cs. rewrite lookup_insert_Some. intros [[<- <-]|[_ Hk]]; [done|].
    by apply (wf_shape _ Hwf).
  - intros k. rewrite dom_insert_L, elem_of_union, elem_of_singleton.
    intros [->|Hk]; apply elem_of_union; left; [done|].
    by apply (wf_keys _ Hwf).
  - intros b x. rewrite elem_of_union, elem_of_list_to_set, elem_of_children_of.
    rewrite dom_insert_L, elem_of_union, elem_of_singleton.
    intros [Hin|(b' & [= -> ->] & Hb')]; [|by auto].
    apply (wf_parent _ Hwf) in Hin as [? ?]. auto.
  - intros k b. rewrite dom_insert_L, elem_of_union, elem_of_singleton.
    rewrite elem_of_union, elem_of_list_to_set, elem_of_children_of.
    intros [->|Hk] Hb; [right; eauto|left; by apply Hch].
  - apply elem_of_union. by left.
Qed.

Lemma complete_prune_spec t n : complete t → complete (prune_spec n t).
Proof.
  intros [Hwf Hch Hroot]. split; [split|..].
  - intros k cs. simpl. rewrite map_lookup_filter_Some.
    intros [Hk _]. by apply (wf_shape _ Hwf).
  - intros k [Hk Hs]%prune_spec_dom. simpl. apply elem_of_filter.
    split; [by intros [? ?]|]. by apply (wf_keys _ Hwf).
  - intros b x. simpl. rewrite elem_of_filter. intros [Hb Hin].
    apply (wf_parent _ Hwf) in Hin as [Hd Hbs]. split; [|done].
    apply prune_spec_dom. split; [done|].
    intros Hs. apply Hb. by apply below_cons.
  - intros k b [Hk Hs]%prune_spec_dom Hb. simpl. apply elem_of_filter.
    split; [|by apply Hch]. intros [Hs' Hne].
    destruct n as [|a n]; [by destruct Hs; apply suffix_nil|].
    apply suffix_cons_inv in Hs' as [?|?]; [congruence|done].
  - simpl. apply elem_of_filter. split; [|done].
    intros [Hs Hne]. apply suffix_nil_inv in Hs. congruence.
Qed.

Lemma complete_tree_inv t : complete t → tree_inv t.
Proof.
  intros [Hwf Hch Hroot]. split; [| |done].
  - intros k cs Hk. pose proof (wf_shape _ Hwf _ _ Hk) as ->.
    split; [done|]. split; [unfold children_of; by rewrite length_fmap|].
    intros c (b & -> & Hb)%elem_of_children_of. apply Hch; [|done].
    apply elem_of_dom. eauto.
  - intros [|b x] Hin Hlen; [simpl in Hlen; lia|]. rewrite parent_of_cons.
    apply (wf_parent _ Hwf) in Hin as [Hd _].
    split; [by apply (wf_keys _ Hwf)|]. intros b' Hb'. by apply Hch.
Qed.

Lemma reachable_complete s0 t : reachable s0 t → complete t ∧ s t = s0.
Proof.
  induction 1 as [|t node t' _ [IH Hs] Hadd|t node t' _ [IH Hs] Hprune].
  - split; [apply complete_init|done].
  - split; [by eapply complete_add_node|].
    apply add_node_Ok in Hadd as [_ ->]. done.
  - rewrite prune_at_node_spec in Hprune by apply IH.
    injection Hprune as <-. split; [by apply complete_prune_spec|done].
Qed.

Lemma descendant_below t n x : wf t → descendant t n x → below n x.
Proof.
  intros Hwf. induction 1 as [cs c Hn Hc|x cs c _ IH Hx Hc].
  - pose proof (wf_shape _ Hwf _ _ Hn) as ->.
    apply elem_of_children_of in Hc as (b & -> & _). by apply below_cons.
  - pose proof (wf_shape _ Hwf _ _ Hx) as ->.
    apply elem_of_children_of in Hc as (b & -> & _).
    apply below_cons, IH.
Qed.

Lemma descendant_nodes t n x : complete t → descendant t n x → x ∈ nodes t.
Proof.
  intros [Hwf Hch _] Hd.
  assert (∀ k cs c, edges t !! k = Some cs → c ∈ cs → c ∈ nodes t) as Hin.
  { intros k cs c Hk Hc. pose proof (wf_shape _ Hwf _ _ Hk) as ->.
    apply elem_of_children_of in Hc as (b & -> & Hb). apply Hch; [|done].
    apply elem_of_dom. eauto. }
  destruct Hd; eauto.
Qed.

Lemma wf_child_listed t b x :
  wf t → b :: x ∈ nodes t →
  ∃ cs, edges t !! x = Some cs ∧ b :: x ∈ cs.
Proof.
  intros Hwf Hin. destruct (wf_parent _ Hwf _ _ Hin) as [Hd Hb].
  apply elem_of_dom in Hd as [cs Hcs]. exists cs. split; [done|].
  pose proof (wf_shape _ Hwf _ _ Hcs) as ->.
  apply elem_of_children_of. eauto.
Qed.

Lemma below_descendant t n x :
  wf t → x ∈ nodes t → below n x → descendant t n x.
Proof.
  intros Hwf Hin Hb. destruct (below_inv _ _ Hb) as (w & b & ->). clear Hb.
  induction w as [|a w IH]; simpl in *.
  - destruct (wf_child_listed t b n Hwf Hin) as (cs & Hcs & Hc).
    by eapply desc_child.
  - destruct (wf_child_listed t a _ Hwf Hin) as (cs & Hcs & Hc).
    eapply desc_step; [|done..]. apply IH.
    apply (wf_keys _ Hwf), elem_of_dom. eauto.
Qed.

End tree_invariant.

(** C5. The structural invariant of the tree (every key of [edges] maps to
    exactly [m] children, one per alphabet symbol and each formed by
    prefixing that symbol to the key, all of them in [nodes]; a node of
    positive length has its parent and all its siblings in [nodes]; the
    root is in [nodes]) holds of the fresh tree and of every tree obtained
    from it by calls of [add_node] and [prune_at_node].  From such a tree
    [add_node] returns whenever its assertion holds and [prune_at_node]
    always returns, and their results satisfy the invariant again. *)
Theorem tree_inv_reachable (s0 : list ascii) (t : Tree) :
  reachable s0 t →
  tree_inv (Tree_init s0) ∧
  tree_inv t ∧
  (∀ node, parent_of node ∈ nodes t →
     ∃ t', add_node t node = Ok t' ∧ tree_inv t') ∧
  (∀ node, ∃ t', prune_at_node t node = Ok t' ∧ tree_inv t').
Proof.
  intros Hr. destruct (reachable_complete _ _ Hr) as [Hc _].
  split; [apply complete_tree_inv, complete_init|].
  split; [by apply complete_tree_inv|]. split.
  - intros node Hp. eexists. split.
    + apply add_node_Ok. split; [done|reflexivity].
    + apply complete_tree_inv. eapply complete_add_node; [done|].
      apply add_node_Ok. split; [done|reflexivity].
  - intros node. exists (prune_spec node t).
    split; [apply prune_at_node_spec, Hc|].
    by apply complete_tree_inv, complete_prune_spec.
Qed.

(** C6. On a tree built by the class, [prune_at_node node] changes nothing
    when [node] has no entry in [edges]; otherwise it returns the tree in
    which exactly the descendants of [node] are gone from [nodes], exactly
    the entries of [node] and of its descendants are gone from [edges]
    (the others are unchanged), and [node] is still a node, now a leaf. *)
Theorem prune_at_node_correct (s0 : list ascii) (t : Tree) (node : str) :
  reachable s0 t →
  (node ∉ dom (edges t) → prune_at_node t node = Ok t) ∧
  (node ∈ dom (edges t) →
   ∃ t', prune_at_node t node = Ok t' ∧
     s t' = s t ∧
     (∀ x, x ∈ nodes t' ↔ x ∈ nodes t ∧ ¬ descendant t node x) ∧
     (∀ k, k ∈ dom (edges t') ↔
           k ∈ dom (edges t) ∧ k ≠ node ∧ ¬ descendant t node k) ∧
     (∀ k, k ∈ dom (edges t') → edges t' !! k = edges t !! k) ∧
     node ∈ nodes t' ∧ node ∉ dom (edges t')).
Proof.
  intros Hr. destruct (reachable_complete _ _ Hr) as [Hc _].
  pose proof (complete_wf _ Hc) as Hwf.
  rewrite prune_at_node_spec by done. split.
  { intros Hn. by rewrite prune_spec_leaf. }
  intros Hn. exists (prune_spec node t). split; [done|]. split; [done|].
  assert (∀ x, x ∈ nodes t → (below node x ↔ descendant t node x)) as Hdesc.
  { intros x Hx. split; [by apply below_descendant|by apply descendant_below]. }
  split; [|split; [|split; [|split]]].
  - intros x. simpl. rewrite elem_of_filter. split.
    + intros [Hb Hx]. split; [done|]. by rewrite <- Hdesc.
    + intros [Hx Hd]. split; [|done]. by rewrite Hdesc.
  - intros k. rewrite prune_spec_dom. split.
    + intros [Hk Hs]. split; [done|]. split; [by intros ->|].
      intros [Hs' _]%descendant_below; done.
    + intros (Hk & Hne & Hd). split; [done|]. intros Hs. apply Hd.
      apply Hdesc; [by apply (wf_keys _ Hwf)|done].
  - intros k [v Hv]%elem_of_dom. rewrite Hv. simpl in Hv.
    apply map_lookup_filter_Some in Hv as [Hv _]. by rewrite Hv.
  - simpl. apply elem_of_filter. split; [by intros [_ ?]|].
    by apply (wf_keys _ Hwf).
  - rewrite prune_spec_dom. by intros [_ []].
Qed.

(** ** The scan of the sample *)

Lemma foldM_ind {A B} (P : list A → B → Prop) (f : B → A → result B) b l b' :
  P [] b →
  (∀ l1 x b1 b2, P l1 b1 → x ∈ l → f b1 x = Ok b2 → P (l1 ++ [x]) b2) →
  foldM f b l = Ok b' → P l b'.
Proof.
  intros H0 Hstep.
  assert (∀ l2 l1 b1, P l1 b1 → (∀ x, x ∈ l2 → x ∈ l) →
            foldM f b1 l2 = Ok b' → P (l1 ++ l2) b') as Hgen.
  { induction l2 as [|x l2 IH]; intros l1 b1 HP Hsub; simpl.
    - intros [= <-]. by rewrite app_nil_r.
    - intros (b2 & Hf & Hrest)%bind_Ok.
      replace (l1 ++ x :: l2) with ((l1 ++ [x]) ++ l2) by by rewrite <- app_assoc.
      apply (IH _ b2); [|intros; apply Hsub; by right|done].
      eapply Hstep; [done| |done]. apply Hsub. by left. }
  intros Hf. by apply (Hgen l [] b).
Qed.

Lemma length_slice_last {A} (j : Z) (l : list A) :
  0 ≤ j → (length (slice (Some (- j - 1)%Z) None l) ≤ Z.to_nat (j + 1))%nat.
Proof. intros Hj. rewrite slice_last by done. rewrite length_drop. lia. Qed.

Lemma length_slice_init {A} (l : list A) :
  length (slice None (Some (-1)) l) = (length l - 1)%nat.
Proof. rewrite slice_init, length_take. lia. Qed.

Section scan_tree.
Variables (s0 : list ascii) (dmax : Z).

Lemma scan_inv_init : scan_inv s0 dmax (Tree_init s0).
Proof.
  split; [apply complete_init|done|..]; simpl.
  - intros x ->%elem_of_singleton. simpl. lia.
  - intros k. by rewrite dom_empty_L, elem_of_empty.
Qed.

Lemma scan_inv_add_node t past j t' :
  scan_inv s0 dmax t → 1 ≤ j ≤ dmax → Z.of_nat (length past) ≤ j →
  add_node t past = Ok t' →
  scan_inv s0 dmax t' ∧ dom (edges t) ⊆ dom (edges t') ∧
  parent_of past ∈ dom (edges t').
Proof.
  intros [Hc Hs Hn Hk] Hj Hlen Hadd.
  assert (Z.of_nat (length (parent_of past)) < dmax) as Hp.
  { destruct past as [|b p]; [rewrite parent_of_nil|rewrite parent_of_cons];
      simpl in *; lia. }
  split; [split|].
  - by eapply complete_add_node.
  - apply add_node_Ok in Hadd as [_ ->]. done.
  - apply add_node_Ok in Hadd as [_ ->]. simpl. intros x.
    rewrite elem_of_union, elem_of_list_to_set, elem_of_children_of.
    intros [?|(b & -> & _)]; [by apply Hn|]. simpl. lia.
  - apply add_node_Ok in Hadd as [_ ->]. simpl. intros k.
    rewrite dom_insert_L, elem_of_union, elem_of_singleton.
    intros [->|?]; [done|by apply Hk].
  - apply add_node_Ok in Hadd as [_ ->]. simpl. rewrite dom_insert_L.
    split; [set_solver|]. set_solver.
Qed.

(** One step of the inner loop keeps the invariant, never removes a key of
    [edges], and from depth one on leaves the parent of [past] a key. *)
Lemma scan_depth_inv cur t c j t' c' :
  scan_inv s0 dmax t → 0 ≤ j ≤ dmax →
  scan_depth cur (t, c) j = Ok (t', c') →
  scan_inv s0 dmax t' ∧ dom (edges t) ⊆ dom (edges t') ∧
  c' = count_up (slice (Some (- j - 1)) None cur) c ∧
  (1 ≤ j → slice None (Some (-1)) (slice (Some (- j - 1)) None cur) ≠ [] →
     parent_of (slice None (Some (-1)) (slice (Some (- j - 1)) None cur))
       ∈ dom (edges t')).
Proof.
  intros Hinv Hj. unfold scan_depth.
  set (present := slice (Some (- j - 1)) None cur).
  set (past := slice None (Some (-1)) present).
  assert (Z.of_nat (length past) ≤ j) as Hlen.
  { unfold past. rewrite length_slice_init.
    pose proof (length_slice_last j cur) as Hp. fold present in Hp. lia. }
  intros (t1 & Ht1 & [= <- <-])%bind_Ok.
  case_decide as Hcase.
  - destruct Hcase as [Hj1 Hnin].
    destruct (scan_inv_add_node t past j t1) as (? & ? & ?); [done|lia|done..|].
    done.
  - injection Ht1 as <-. split; [done|]. split; [done|]. split; [done|].
    intros Hj1 Hne. destruct (decide (past ∈ nodes t)) as [Hin|Hnin].
    2: { destruct Hcase. done. }
    destruct past as [|b p]; [done|]. rewrite parent_of_cons.
    by apply (wf_parent t (complete_wf _ (scan_complete _ _ _ Hinv))) in Hin as [? _].
Qed.

Lemma scan_position_inv joint t c i t' c' :
  scan_inv s0 dmax t →
  scan_position dmax joint (t, c) i = Ok (t', c') →
  scan_inv s0 dmax t' ∧ dom (edges t) ⊆ dom (edges t').
Proof.
  intros Hinv Hscan. unfold scan_position in Hscan.
  revert Hscan. apply (foldM_ind (λ _ st,
    scan_inv s0 dmax st.1 ∧ dom (edges t) ⊆ dom (edges st.1))); [done|].
  intros _ j [t1 c1] [t2 c2] [Hinv1 Hsub] Hj%elem_of_range Hstep. simpl in *.
  eapply scan_depth_inv in Hstep as (? & ? & _); [|done|lia].
  split; [done|]. set_solver.
Qed.

Lemma scan_inv_positions joint ps t c t' c' :
  scan_inv s0 dmax t →
  foldM (scan_position dmax joint) (t, c) ps = Ok (t', c') →
  scan_inv s0 dmax t' ∧ dom (edges t) ⊆ dom (edges t').
Proof.
  intros Hinv. apply (foldM_ind (λ _ st,
    scan_inv s0 dmax st.1 ∧ dom (edges t) ⊆ dom (edges st.1))); [done|].
  intros _ i [t1 c1] [t2 c2] [Hinv1 Hsub] _ Hstep. simpl in *.
  destruct (scan_position_inv joint t1 c1 i t2 c2) as [? ?]; [done..|].
  split; [done|]. set_solver.
Qed.

End scan_tree.

(** ** The zero entries *)

Section fill.
Implicit Types (c : gmap str Z) (w u : str).

Lemma elem_of_valid_order order X x : valid_order order → x ∈ order X ↔ x ∈ X.
Proof. intros Ho. by rewrite (Ho X), elem_of_elements. Qed.

Lemma NoDup_valid_order order X : valid_order order → NoDup (order X).
Proof. intros Ho. rewrite (Ho X). apply NoDup_elements. Qed.

Lemma fill_zero_lookup c tr w :
  fill_zero c tr !! w =
  match c !! w with
  | Some v => Some v
  | None => if decide (w = tr) then Some 0 else None
  end.
Proof.
  unfold fill_zero. case_decide as Hd.
  - apply not_elem_of_dom in Hd. destruct (decide (w = tr)) as [->|Hne].
    + by rewrite lookup_insert_eq, Hd.
    + rewrite lookup_insert_ne by done. by destruct (c !! w).
  - apply elem_of_dom in Hd as [v Hv]. destruct (c !! w) eqn:Hw; [done|].
    case_decide; [congruence|done].
Qed.

Lemma foldl_fill_zero_lookup c trs w :
  foldl fill_zero c trs !! w =
  match c !! w with
  | Some v => Some v
  | None => if decide (w ∈ trs) then Some 0 else None
  end.
Proof.
  revert c. induction trs as [|tr trs IH]; intros c; simpl.
  - by destruct (c !! w).
  - rewrite IH, fill_zero_lookup. destruct (c !! w); [done|].
    destruct (decide (w = tr)) as [->|Hne].
    + rewrite decide_True; [done|by left].
    + case_decide as H1; case_decide as H2; try done.
      * destruct H2. by right.
      * apply elem_of_cons in H2 as [?|?]; done.
Qed.

Lemma foldl_fill_node_flat s0 c us :
  foldl (fill_node s0) c us = foldl fill_zero c (transitions s0 us).
Proof.
  revert c. induction us as [|u us IH]; intros c; simpl; [done|].
  by rewrite foldl_app, IH.
Qed.

Lemma elem_of_transitions s0 us w :
  w ∈ transitions s0 us ↔ ∃ u b, u ∈ us ∧ b ∈ s0 ∧ w = u ++ [b].
Proof.
  unfold transitions. rewrite list_elem_of_bind.
  setoid_rewrite list_elem_of_fmap. naive_solver.
Qed.

Lemma foldl_fill_node_lookup s0 c us w :
  foldl (fill_node s0) c us !! w =
  match c !! w with
  | Some v => Some v
  | None => if decide (w ∈ transitions s0 us) then Some 0 else None
  end.
Proof. by rewrite foldl_fill_node_flat, foldl_fill_zero_lookup. Qed.

(** The filled counter keeps the scanned counts and has an entry for every
    transition of every listed node. *)
Lemma fill_lookup_tally s0 c us u b :
  u ∈ us → b ∈ s0 →
  foldl (fill_node s0) c us !! (u ++ [b]) = Some (tally c (u ++ [b])).
Proof.
  intros Hu Hb. rewrite foldl_fill_node_lookup. unfold tally.
  destruct (c !! (u ++ [b])); [done|]. rewrite decide_True; [done|].
  apply elem_of_transitions. eauto.
Qed.

Lemma fill_lookup_nil s0 c us : foldl (fill_node s0) c us !! [] = c !! [].
Proof.
  rewrite foldl_fill_node_lookup. destruct (c !! []); [done|].
  rewrite decide_False; [done|].
  intros (u & b & _ & _ & Heq)%elem_of_transitions. by destruct u.
Qed.

(** The filled counter does not depend on the order of the nodes. *)
Lemma fill_order_irrelevant s0 c us1 us2 :
  us1 ≡ₚ us2 → foldl (fill_node s0) c us1 = foldl (fill_node s0) c us2.
Proof.
  intros Hp. apply map_eq. intros w. rewrite !foldl_fill_node_lookup.
  destruct (c !! w); [done|].
  case_decide as H1; case_decide as H2; try done.
  - destruct H2. apply elem_of_transitions in H1 as (u & b & Hu & Hb & ->).
    apply elem_of_transitions. exists u, b. by rewrite <- Hp.
  - destruct H1. apply elem_of_transitions in H2 as (u & b & Hu & Hb & ->).
    apply elem_of_transitions. exists u, b. by rewrite Hp.
Qed.

End fill.

Section construct_tau_max_inv.
Variable order : gset str → list str.
Hypothesis Horder : valid_order order.

Lemma construct_tau_max_Ok s0 dmax sample ic t c :
  construct_tau_max order s0 dmax sample ic = Ok (t, c) ↔
  ∃ c1, foldM (scan_position dmax (ic ++ sample))
          (Tree_init s0, {[ [] := Z.of_nat (length sample) ]})
          (range (Z.of_nat (length ic)) (Z.of_nat (length (ic ++ sample))))
        = Ok (t, c1) ∧
        c = foldl (fill_node s0) c1 (order (nodes t)).
Proof.
  unfold construct_tau_max. rewrite bind_Ok. split.
  - intros ([t1 c1] & Hscan & [= <- <-]). eauto.
  - intros (c1 & Hscan & ->). exists (t, c1). done.
Qed.

(** What [construct_tau_max] returns on every input: a complete tree of
    depth at most [dmax], and a counter with an entry for every transition
    of every node. *)
Lemma construct_tau_max_inv s0 dmax sample ic t c :
  construct_tau_max order s0 dmax sample ic = Ok (t, c) →
  scan_inv s0 dmax t ∧
  ∀ u b, u ∈ nodes t → b ∈ s0 → is_Some (c !! (u ++ [b])).
Proof.
  intros (c1 & Hscan & ->)%construct_tau_max_Ok.
  apply (scan_inv_positions s0) in Hscan as [Hinv _]; [|apply scan_inv_init].
  split; [done|]. intros u b Hu Hb.
  rewrite (fill_lookup_tally s0 c1 _ u b); [done| |done].
  by apply elem_of_valid_order.
Qed.

End construct_tau_max_inv.

(** ** Windows of the joint sample *)

Section windows.
Variables (dmax : Z) (joint : str).
Implicit Types (i j : Z) (k : nat).

Lemma present_valid i j :
  0 ≤ j ≤ dmax → dmax ≤ i < Z.of_nat (length joint) →
  slice (Some (- j - 1)) None (slice (Some (i - dmax)) (Some (i + 1)) joint)
  = take (S (Z.to_nat j)) (drop (Z.to_nat i - Z.to_nat j) joint).
Proof.
  intros Hj Hi. rewrite slice_window by lia. rewrite slice_last by lia.
  rewrite length_take, length_drop.
  replace (Z.to_nat (i + 1 - (i - dmax)) `min`
             (length joint - Z.to_nat (i - dmax)) - Z.to_nat (j + 1))%nat
    with (Z.to_nat dmax - Z.to_nat j)%nat by lia.
  replace (Z.to_nat (i + 1 - (i - dmax)))
    with ((Z.to_nat dmax - Z.to_nat j) + S (Z.to_nat j))%nat by lia.
  rewrite <- take_drop_commute, drop_drop. do 2 f_equal. lia.
Qed.

Lemma ctx_length i k :
  Z.of_nat k ≤ i ≤ Z.of_nat (length joint) → length (ctx joint i k) = k.
Proof. intros Hi. unfold ctx. rewrite length_take, length_drop. lia. Qed.

Lemma ctx_0 i : ctx joint i 0 = [].
Proof. done. Qed.

Lemma ctx_S i k :
  Z.of_nat (S k) ≤ i ≤ Z.of_nat (length joint) →
  ∃ x, joint !! (Z.to_nat i - S k)%nat = Some x ∧
       ctx joint i (S k) = x :: ctx joint i k.
Proof.
  intros Hi.
  destruct (lookup_lt_is_Some_2 joint (Z.to_nat i - S k)) as [x Hx]; [lia|].
  exists x. split; [done|]. unfold ctx. rewrite (drop_S _ _ _ Hx). simpl.
  do 3 f_equal. lia.
Qed.

Lemma present_ctx i j :
  0 ≤ j ≤ dmax → dmax ≤ i < Z.of_nat (length joint) →
  ∃ a, joint !! Z.to_nat i = Some a ∧
    slice (Some (- j - 1)) None (slice (Some (i - dmax)) (Some (i + 1)) joint)
    = ctx joint i (Z.to_nat j) ++ [a].
Proof.
  intros Hj Hi. rewrite present_valid by done.
  destruct (lookup_lt_is_Some_2 joint (Z.to_nat i)) as [a Ha]; [lia|].
  exists a. split; [done|]. unfold ctx. apply take_S_r.
  rewrite lookup_drop. rewrite <- Ha. f_equal. lia.
Qed.

Lemma past_ctx i j :
  0 ≤ j ≤ dmax → dmax ≤ i < Z.of_nat (length joint) →
  slice None (Some (-1))
    (slice (Some (- j - 1)) None
       (slice (Some (i - dmax)) (Some (i + 1)) joint))
  = ctx joint i (Z.to_nat j).
Proof.
  intros Hj Hi. destruct (present_ctx i j Hj Hi) as (a & _ & ->).
  rewrite slice_init, length_app. simpl.
  replace (length (ctx joint i (Z.to_nat j)) + 1 - 1)%nat
    with (length (ctx joint i (Z.to_nat j))) by lia.
  apply take_app_length.
Qed.

(** The inner loop body on a position inside the sample. *)
Lemma scan_depth_valid i j t c :
  0 ≤ j ≤ dmax → dmax ≤ i < Z.of_nat (length joint) →
  ∃ a, joint !! Z.to_nat i = Some a ∧
    scan_depth (slice (Some (i - dmax)) (Some (i + 1)) joint) (t, c) j =
    (tree ← (if decide (1 ≤ j ∧ ctx joint i (Z.to_nat j) ∉ nodes t)
             then add_node t (ctx joint i (Z.to_nat j)) else Ok t);
     Ok (tree, count_up (ctx joint i (Z.to_nat j) ++ [a]) c)).
Proof.
  intros Hj Hi. destruct (present_ctx i j Hj Hi) as (a & Ha & Hp).
  exists a. split; [done|]. unfold scan_depth.
  by rewrite past_ctx, Hp.
Qed.

End windows.

Section scan_total.
Variables (s0 : list ascii) (dmax : Z) (joint : str).
Hypothesis Hsym : ∀ a, a ∈ joint → a ∈ s0.

Lemma scan_depths_total i (m : nat) t c :
  dmax ≤ i < Z.of_nat (length joint) → Z.of_nat m ≤ dmax + 1 →
  scan_inv s0 dmax t →
  ∃ t' c',
    foldM (scan_depth (slice (Some (i - dmax)) (Some (i + 1)) joint)) (t, c)
      (range 0 (Z.of_nat m)) = Ok (t', c') ∧
    scan_inv s0 dmax t' ∧
    ∀ k : nat, (k < m)%nat → ctx joint i k ∈ nodes t'.
Proof.
  intros Hi. induction m as [|m IH]; intros Hm Hinv.
  { exists t, c. split; [done|]. split; [done|]. lia. }
  destruct IH as (t1 & c1 & Hrun & Hinv1 & Hctx); [lia|done|].
  replace (Z.of_nat (S m)) with (Z.of_nat m + 1) by lia.
  rewrite range_snoc, foldM_app, Hrun by lia. simpl.
  destruct (scan_depth_valid dmax joint i (Z.of_nat m) t1 c1)
    as (a & Ha & ->); [lia|lia|].
  rewrite Nat2Z.id.
  assert (s t1 = s0) as Hs1 by apply Hinv1.
  case_decide as Hcase.
  - destruct Hcase as [Hm1 Hnin]. destruct m as [|k]; [lia|].
    destruct (ctx_S joint i k) as (x & Hx & Hcons); [lia|].
    assert (∃ t2, add_node t1 (ctx joint i (S k)) = Ok t2) as [t2 Hadd].
    { eexists. apply add_node_Ok. split; [|reflexivity].
      rewrite Hcons, parent_of_cons. apply Hctx. lia. }
    rewrite Hadd. simpl. eexists _, _. split; [done|].
    destruct (scan_inv_add_node s0 dmax t1 (ctx joint i (S k)) (Z.of_nat (S k)) t2)
      as (Hinv2 & _ & _); [done|lia| |done|].
    { rewrite ctx_length; lia. }
    split; [done|]. intros k' Hk'.
    apply add_node_Ok in Hadd as [_ ->]. simpl. apply elem_of_union.
    destruct (decide (k' = S k)) as [->|Hne].
    + right. rewrite Hcons at 1. rewrite Hcons, parent_of_cons.
      apply elem_of_list_to_set, elem_of_children_of. exists x.
      split; [done|]. rewrite Hs1. apply Hsym. by eapply list_elem_of_lookup_2.
    + left. apply Hctx. lia.
  - simpl. eexists _, _. split; [done|]. split; [done|].
    intros k' Hk'. destruct (decide (k' = m)) as [->|Hne]; [|apply Hctx; lia].
    destruct m as [|k].
    + rewrite ctx_0. apply complete_root, Hinv1.
    + destruct (decide (ctx joint i (S k) ∈ nodes t1)) as [?|Hnin]; [done|].
      destruct Hcase. split; [lia|done].
Qed.

Lemma scan_position_total i t c :
  0 ≤ dmax ≤ i → i < Z.of_nat (length joint) →
  scan_inv s0 dmax t →
  ∃ t' c', scan_position dmax joint (t, c) i = Ok (t', c') ∧
           scan_inv s0 dmax t'.
Proof.
  intros Hd Hi Hinv. unfold scan_position.
  destruct (scan_depths_total i (Z.to_nat (dmax + 1)) t c)
    as (t' & c' & Hrun & Hinv' & _); [lia|lia|done|].
  rewrite Z2Nat.id in Hrun by lia. eauto.
Qed.

Lemma scan_positions_total lo hi t c :
  0 ≤ dmax ≤ lo → hi ≤ Z.of_nat (length joint) →
  scan_inv s0 dmax t →
  ∃ t' c', foldM (scan_position dmax joint) (t, c) (range lo hi) = Ok (t', c')
           ∧ scan_inv s0 dmax t'.
Proof.
  intros Hlo Hhi Hinv.
  destruct (foldM_invariant (λ st, scan_inv s0 dmax st.1)
              (scan_position dmax joint) (t, c) (range lo hi))
    as ([t' c'] & Hrun & Hinv'); [done| |eauto].
  intros [t1 c1] i Hinv1 Hi%elem_of_range. simpl in Hinv1.
  destruct (scan_position_total i t1 c1) as (t2 & c2 & ? & ?); [lia|lia|done|].
  by exists (t2, c2).
Qed.

End scan_total.

(** ** Which contexts become internal nodes *)

Section scan_edges.
Variables (s0 : list ascii) (dmax : Z) (joint : str).

Lemma scan_position_edges i t c t' c' :
  0 ≤ dmax ≤ i → i < Z.of_nat (length joint) →
  scan_inv s0 dmax t →
  scan_position dmax joint (t, c) i = Ok (t', c') →
  ∀ k : nat, Z.of_nat k < dmax → ctx joint i k ∈ dom (edges t').
Proof.
  intros Hd Hi Hinv Hscan. unfold scan_position in Hscan.
  assert (scan_inv s0 dmax t' ∧
          ∀ j, j ∈ range 0 (dmax + 1) → 1 ≤ j →
               ctx joint i (Z.to_nat j - 1) ∈ dom (edges t')) as [_ Hall].
  { revert Hscan. apply (foldM_ind (λ js st,
      scan_inv s0 dmax st.1 ∧
      ∀ j, j ∈ js → 1 ≤ j → ctx joint i (Z.to_nat j - 1) ∈ dom (edges st.1))).
    { split; [done|]. by intros j ?%elem_of_nil. }
    intros js j [t1 c1] [t2 c2] [Hinv1 Hjs] Hj%elem_of_range Hstep.
    simpl in Hinv1, Hjs |- *.
    eapply scan_depth_inv in Hstep as (Hinv2 & Hsub & _ & Hpar); [|done|lia].
    split; [done|]. intros j' [Hj'|Hj'%list_elem_of_singleton]%elem_of_app Hj1.
    - apply Hsub. by apply Hjs.
    - subst j'. rewrite past_ctx in Hpar by lia.
      destruct (ctx_S joint i (Z.to_nat j - 1)) as (x & _ & Hcons); [lia|].
      replace (S (Z.to_nat j - 1)) with (Z.to_nat j) in Hcons by lia.
      rewrite Hcons, parent_of_cons in Hpar. by apply Hpar. }
  intros k Hk. specialize (Hall (Z.of_nat k + 1)).
  replace (Z.to_nat (Z.of_nat k + 1) - 1)%nat with k in Hall by lia.
  apply Hall; [|lia]. apply elem_of_range. lia.
Qed.

Lemma scan_positions_edges lo hi t c t' c' :
  0 ≤ dmax ≤ lo → hi ≤ Z.of_nat (length joint) →
  scan_inv s0 dmax t →
  foldM (scan_position dmax joint) (t, c) (range lo hi) = Ok (t', c') →
  ∀ i (k : nat), lo ≤ i < hi → Z.of_nat k < dmax →
    ctx joint i k ∈ dom (edges t').
Proof.
  intros Hlo Hhi Hinv Hscan.
  assert (scan_inv s0 dmax t' ∧
          ∀ i (k : nat), i ∈ range lo hi → Z.of_nat k < dmax →
            ctx joint i k ∈ dom (edges t')) as [_ Hall].
  { revert Hscan. apply (foldM_ind (λ ps st,
      scan_inv s0 dmax st.1 ∧
      ∀ i (k : nat), i ∈ ps → Z.of_nat k < dmax →
        ctx joint i k ∈ dom (edges st.1))).
    { split; [done|]. by intros i k ?%elem_of_nil. }
    intros ps i [t1 c1] [t2 c2] [Hinv1 Hps] Hi%elem_of_range Hstep.
    simpl in Hinv1, Hps |- *.
    destruct (scan_position_inv s0 dmax joint t1 c1 i t2 c2) as [Hinv2 Hsub];
      [done..|].
    split; [done|]. intros i' k [Hi'|Hi'%list_elem_of_singleton]%elem_of_app Hk.
    - apply Hsub. by apply Hps.
    - subst i'. eapply scan_position_edges; [| |exact Hinv1|exact Hstep|done]; lia. }
  intros i k Hi Hk. apply Hall; [|done]. by apply elem_of_range.
Qed.

End scan_edges.

(** ** What the counter holds after the scan *)

Lemma length_filter_none {A} (P : A → Prop) `{∀ x, Decision (P x)}
    (l : list A) :
  (∀ y, y ∈ l → ¬ P y) → length (filter P l) = 0%nat.
Proof.
  induction l as [|y l IH]; intros Hnone; [done|].
  rewrite filter_cons, decide_False by (apply Hnone; by left).
  apply IH. intros z ?. apply Hnone. by right.
Qed.

Lemma length_filter_unique {A} (P : A → Prop) `{∀ x, Decision (P x)}
    (l : list A) (x : A) :
  NoDup l → x ∈ l → (∀ y, y ∈ l → P y → y = x) →
  length (filter P l) = if decide (P x) then 1%nat else 0%nat.
Proof.
  induction l as [|y l IH]; intros Hnd Hx Huniq; [by apply elem_of_nil in Hx|].
  apply NoDup_cons in Hnd as [Hy Hnd]. rewrite filter_cons.
  apply elem_of_cons in Hx as [->|Hx].
  - assert (length (filter P l) = 0%nat) as Hnone.
    { apply length_filter_none. intros z Hz HP.
      assert (z = y) as -> by (apply Huniq; [by right|done]). done. }
    case_decide; simpl; by rewrite Hnone.
  - rewrite decide_False.
    2: { intros HP. assert (y = x) as -> by (apply Huniq; [by left|done]). done. }
    apply IH; [done..|].
    intros z ? ?. apply Huniq; [by right|done].
Qed.

Section scan_counter.
Variables (s0 : list ascii) (dmax : Z) (joint : str).
Implicit Types (c : gmap str Z) (w : str).

Lemma count_up_tally w c w' :
  tally (count_up w c) w' = tally c w' + (if decide (w' = w) then 1 else 0).
Proof.
  unfold tally, count_up. destruct (decide (w' = w)) as [->|Hne].
  - destruct (c !! w); rewrite lookup_insert_eq; simpl; lia.
  - destruct (c !! w); rewrite lookup_insert_ne by done; lia.
Qed.

Lemma count_up_lookup_ne w c w' : w' ≠ w → count_up w c !! w' = c !! w'.
Proof.
  intros Hne. unfold count_up.
  destruct (c !! w); by rewrite lookup_insert_ne.
Qed.

Lemma win_ctx i k :
  Z.of_nat k ≤ i < Z.of_nat (length joint) →
  ∃ a, joint !! Z.to_nat i = Some a ∧ win joint i k = ctx joint i k ++ [a].
Proof.
  intros Hi. destruct (lookup_lt_is_Some_2 joint (Z.to_nat i)) as [a Ha]; [lia|].
  exists a. split; [done|]. unfold win, ctx. apply take_S_r.
  rewrite lookup_drop. rewrite <- Ha. f_equal. lia.
Qed.

Lemma win_length i k :
  Z.of_nat k ≤ i < Z.of_nat (length joint) → length (win joint i k) = S k.
Proof. intros Hi. unfold win. rewrite length_take, length_drop. lia. Qed.

Lemma scan_position_tally i t c t' c' :
  0 ≤ dmax ≤ i → i < Z.of_nat (length joint) →
  scan_inv s0 dmax t →
  scan_position dmax joint (t, c) i = Ok (t', c') →
  c' !! [] = c !! [] ∧
  ∀ w, w ≠ [] → Z.of_nat (length w) ≤ dmax + 1 →
    tally c' w =
    tally c w + (if decide (win joint i (length w - 1) = w) then 1 else 0).
Proof.
  intros Hd Hi Hinv Hscan. unfold scan_position in Hscan.
  assert (scan_inv s0 dmax t' ∧ c' !! [] = c !! [] ∧
          ∀ w, tally c' w = tally c w +
            Z.of_nat (length (filter (λ j, win joint i (Z.to_nat j) = w)
                                (range 0 (dmax + 1))))) as (_ & Hnil & Hall).
  { revert Hscan. apply (foldM_ind (λ js st,
      scan_inv s0 dmax st.1 ∧ st.2 !! [] = c !! [] ∧
      ∀ w, tally st.2 w = tally c w +
        Z.of_nat (length (filter (λ j, win joint i (Z.to_nat j) = w) js)))).
    { split; [done|]. split; [done|]. intros w. simpl. lia. }
    intros js j [t1 c1] [t2 c2] (Hinv1 & Hnil & Hjs) Hj%elem_of_range Hstep.
    simpl in Hinv1, Hnil, Hjs |- *.
    eapply scan_depth_inv in Hstep as (Hinv2 & _ & -> & _); [|done|lia].
    rewrite present_valid by lia. fold (win joint i (Z.to_nat j)).
    split; [done|]. split.
    - rewrite count_up_lookup_ne; [done|].
      intros Heq. apply (f_equal length) in Heq.
      rewrite win_length in Heq by lia. done.
    - intros w. rewrite count_up_tally, Hjs, filter_app, length_app.
      rewrite filter_cons, filter_nil.
      destruct (decide (w = win joint i (Z.to_nat j))) as [->|Hne].
      + rewrite decide_True by done. simpl. lia.
      + rewrite decide_False by done. simpl. lia. }
  split; [done|]. intros w Hw Hlen. rewrite Hall. f_equal.
  rewrite (length_filter_unique _ _ (Z.of_nat (length w - 1))).
  - rewrite Nat2Z.id. by case_decide.
  - apply NoDup_range.
  - apply elem_of_range. lia.
  - intros j Hj%elem_of_range Heq. apply (f_equal length) in Heq.
    rewrite win_length in Heq by lia. lia.
Qed.

Lemma scan_positions_tally lo hi t c t' c' :
  0 ≤ dmax ≤ lo → hi ≤ Z.of_nat (length joint) →
  scan_inv s0 dmax t →
  foldM (scan_position dmax joint) (t, c) (range lo hi) = Ok (t', c') →
  c' !! [] = c !! [] ∧
  ∀ w, w ≠ [] → Z.of_nat (length w) ≤ dmax + 1 →
    tally c' w =
    tally c w +
    Z.of_nat (length (filter (λ i, win joint i (length w - 1) = w)
                        (range lo hi))).
Proof.
  intros Hlo Hhi Hinv.
  apply (foldM_ind (λ ps st,
    scan_inv s0 dmax st.1 ∧ st.2 !! [] = c !! [] ∧
    ∀ w, w ≠ [] → Z.of_nat (length w) ≤ dmax + 1 →
      tally st.2 w = tally c w +
      Z.of_nat (length (filter (λ i, win joint i (length w - 1) = w) ps)))
    (scan_position dmax joint) (t, c) (range lo hi) (t', c')).
  { split; [done|]. split; [done|]. intros w _ _. simpl. lia. }
  intros ps i [t1 c1] [t2 c2] (Hinv1 & Hnil & Hps) Hi%elem_of_range Hstep.
  simpl in Hinv1, Hnil, Hps |- *.
  destruct (scan_position_inv s0 dmax joint t1 c1 i t2 c2) as [Hinv2 _];
    [done..|].
  destruct (scan_position_tally i t1 c1 t2 c2) as [Hnil2 Hw2];
    [lia|lia|done..|].
  split; [done|]. split; [congruence|]. intros w Hw Hlen.
  rewrite Hw2, Hps, filter_app, length_app, filter_cons, filter_nil by done.
  case_decide; simpl; lia.
Qed.

End scan_counter.

(** ** Sums of counts *)

Lemma foldl_Zadd (a : Z) (l : list Z) : foldl Z.add a l = a + foldl Z.add 0 l.
Proof.
  revert a. induction l as [|x l IH]; intros a; simpl; [lia|].
  rewrite (IH (a + x)), (IH (0 + x)). lia.
Qed.

Lemma np_sum_cons (x : Z) (l : list Z) : np_sum (x :: l) = x + np_sum l.
Proof. unfold np_sum. simpl. apply foldl_Zadd. Qed.

Lemma np_sum_fmap_add {A} (f g : A → Z) (l : list A) :
  np_sum ((λ b, f b + g b) <$> l) = np_sum (f <$> l) + np_sum (g <$> l).
Proof.
  induction l as [|x l IH]; [done|]. rewrite !fmap_cons, !np_sum_cons, IH. lia.
Qed.

Lemma np_sum_zero {A} (f : A → Z) (l : list A) :
  (∀ x, x ∈ l → f x = 0) → np_sum (f <$> l) = 0.
Proof.
  induction l as [|x l IH]; intros Hz; [done|].
  rewrite fmap_cons, np_sum_cons, Hz by left. rewrite IH; [done|].
  intros y ?. apply Hz. by right.
Qed.

Lemma np_sum_indicator (b0 : ascii) (bs : list ascii) :
  NoDup bs → b0 ∈ bs →
  np_sum ((λ b, if decide (b0 = b) then 1 else 0) <$> bs) = 1.
Proof.
  induction bs as [|b bs IH]; intros Hnd Hin; [by apply elem_of_nil in Hin|].
  apply NoDup_cons in Hnd as [Hb Hnd]. rewrite fmap_cons, np_sum_cons.
  apply elem_of_cons in Hin as [->|Hin].
  - rewrite decide_True by done. rewrite np_sum_zero; [done|].
    intros y Hy. rewrite decide_False; [done|]. by intros ->.
  - rewrite decide_False by (by intros ->). by rewrite IH.
Qed.

(** Positions sorted by the symbol found there: the classes add up. *)
Lemma np_sum_partition (P : Z → Prop) `{∀ i, Decision (P i)}
    (g : Z → option ascii) (ps : list Z) (bs : list ascii) :
  NoDup bs →
  (∀ i, i ∈ ps → ∃ b, g i = Some b ∧ b ∈ bs) →
  np_sum ((λ b, Z.of_nat (length (filter (λ i, P i ∧ g i = Some b) ps))) <$> bs)
  = Z.of_nat (length (filter P ps)).
Proof.
  intros Hnd. induction ps as [|i ps IH]; intros Hg.
  { simpl. by apply np_sum_zero. }
  destruct (Hg i) as (b0 & Hb0 & Hin); [by left|].
  rewrite filter_cons.
  rewrite (list_fmap_ext _
    (λ b, (if decide (P i) then if decide (b0 = b) then 1 else 0 else 0) +
          Z.of_nat (length (filter (λ i, P i ∧ g i = Some b) ps))) bs).
  2: { intros _ b _. rewrite filter_cons. rewrite Hb0.
       destruct (decide (P i)) as [HP|HP].
       - destruct (decide (b0 = b)) as [->|Hne].
         + rewrite decide_True by done. simpl. lia.
         + rewrite decide_False by (intros [_ [= ?]]; done). lia.
       - rewrite decide_False by (by intros [? _]). lia. }
  rewrite np_sum_fmap_add, IH.
  2: { intros i' ?. apply Hg. by right. }
  destruct (decide (P i)).
  - rewrite np_sum_indicator by done. simpl. lia.
  - rewrite np_sum_zero by done. lia.
Qed.

Lemma mapM'_Ok {A B} (f : A → result B) (g : A → B) (l : list A) :
  (∀ x, x ∈ l → f x = Ok (g x)) → mapM' f l = Ok (g <$> l).
Proof.
  induction l as [|x l IH]; intros Hf; [done|]. simpl.
  rewrite Hf by left. simpl. rewrite IH; [done|].
  intros y ?. apply Hf. by right.
Qed.

Lemma list_filter_iff_in {A} (P1 P2 : A → Prop)
    `{!∀ x, Decision (P1 x), !∀ x, Decision (P2 x)} (l : list A) :
  (∀ x, x ∈ l → P1 x ↔ P2 x) → filter P1 l = filter P2 l.
Proof.
  induction l as [|a l IH]; intros Hiff; [done|].
  rewrite !filter_cons. rewrite IH by (intros x ?; apply Hiff; by right).
  destruct (decide (P1 a)) as [H1|H1].
  - rewrite decide_True; [done|]. apply Hiff; [by left|done].
  - rewrite decide_False; [done|]. intros H2. apply H1, Hiff; [by left|done].
Qed.

Lemma filter_all {A} (P : A → Prop) `{!∀ x, Decision (P x)} (l : list A) :
  (∀ x, x ∈ l → P x) → filter P l = l.
Proof.
  induction l as [|a l IH]; intros Hall; [done|].
  rewrite filter_cons, decide_True by (apply Hall; by left).
  rewrite IH; [done|]. intros x ?. apply Hall. by right.
Qed.

(** ** The inputs of the interface *)

Section construct_tau_max_valid.
Variable order : gset str → list str.
Hypothesis Horder : valid_order order.
Variables (s0 : list ascii) (dmax : Z) (sample ic : str).
Hypothesis Hdepth : 0 ≤ dmax ≤ Z.of_nat (length ic).

Implicit Types (u : str) (i : Z).

Let joint := ic ++ sample.
Let n0 := Z.of_nat (length ic).
Let N := Z.of_nat (length (ic ++ sample)).
Let c0 : gmap str Z := {[ [] := Z.of_nat (length sample) ]}.

Lemma scan_prefix_total k :
  (∀ a, a ∈ joint → a ∈ s0) → k ≤ N →
  ∃ t c, foldM (scan_position dmax joint) (Tree_init s0, c0) (range n0 k)
         = Ok (t, c).
Proof.
  intros Hsym Hk.
  destruct (scan_positions_total s0 dmax joint Hsym n0 k (Tree_init s0) c0)
    as (t & c & Hrun & _); [unfold n0; lia|done|apply scan_inv_init|eauto].
Qed.

Lemma scan_prefix_root k t c :
  k ≤ N →
  foldM (scan_position dmax joint) (Tree_init s0, c0) (range n0 k) = Ok (t, c) →
  c !! [] = Some (Z.of_nat (length sample)).
Proof.
  intros Hk Hrun.
  apply (scan_positions_tally s0) in Hrun as [Hnil _];
    [|unfold n0; lia|done|apply scan_inv_init].
  rewrite Hnil. unfold c0. by rewrite lookup_singleton_eq.
Qed.

Lemma scan_tally t c u b :
  foldM (scan_position dmax joint) (Tree_init s0, c0) (range n0 N) = Ok (t, c) →
  Z.of_nat (length u) ≤ dmax →
  tally c (u ++ [b]) =
  Z.of_nat (length (filter (λ i, win joint i (length u) = u ++ [b])
                      (range n0 N))).
Proof.
  intros Hrun Hu.
  apply (scan_positions_tally s0) in Hrun as [_ Hw];
    [|unfold n0; lia|done|apply scan_inv_init].
  rewrite Hw.
  - unfold tally at 1, c0. rewrite lookup_singleton_ne by (by destruct u).
    simpl. rewrite length_app. simpl.
    by replace (length u + 1 - 1)%nat with (length u) by lia.
  - by destruct u.
  - rewrite length_app. simpl. lia.
Qed.

Lemma slice_ctx i u :
  n0 ≤ i < N → Z.of_nat (length u) ≤ dmax →
  slice (Some (i - Z.of_nat (length u))) (Some i) joint = ctx joint i (length u).
Proof.
  intros Hi Hu. unfold n0, N in Hi. rewrite slice_window by (unfold joint; lia).
  unfold ctx. f_equal; [lia|]. f_equal. lia.
Qed.

Lemma win_eq i u b :
  n0 ≤ i < N → Z.of_nat (length u) ≤ dmax →
  win joint i (length u) = u ++ [b] ↔
  slice (Some (i - Z.of_nat (length u))) (Some i) joint = u ∧
  joint !! Z.to_nat i = Some b.
Proof.
  intros Hi Hu. rewrite slice_ctx by done.
  destruct (win_ctx joint i (length u)) as (a & Ha & ->).
  { unfold n0, N in Hi. unfold joint. lia. }
  rewrite Ha. split.
  - intros [-> [= ->]]%app_inj_tail. done.
  - intros [-> [= ->]]. done.
Qed.

(** The transition counts of a node add up to the number of positions at
    which it is the context. *)
Lemma transition_counts_sum t c u :
  NoDup s0 → Forall (λ a, a ∈ s0) sample →
  construct_tau_max order s0 dmax sample ic = Ok (t, c) →
  u ∈ nodes t →
  ∃ counts, mapM' (λ b, getitem c (u ++ [b])) s0 = Ok counts ∧
            np_sum counts = context_count joint n0 N u.
Proof.
  intros Hnd Hsample Hc Hu.
  pose proof (construct_tau_max_inv order Horder _ _ _ _ _ _ Hc) as [Hinv _].
  apply construct_tau_max_Ok in Hc as (c1 & Hscan & ->).
  assert (Z.of_nat (length u) ≤ dmax) as Hlen.
  { pose proof (scan_depth_nodes _ _ _ Hinv u Hu). lia. }
  exists ((λ b, tally c1 (u ++ [b])) <$> s0). split.
  { apply mapM'_Ok. intros b Hb. unfold getitem.
    rewrite (fill_lookup_tally s0 c1 _ u b); [done| |done].
    by apply elem_of_valid_order. }
  unfold context_count.
  rewrite <- (np_sum_partition _ (λ i, joint !! Z.to_nat i) _ s0 Hnd).
  - f_equal. apply list_fmap_ext. intros _ b _.
    rewrite (scan_tally t c1 u b Hscan Hlen). do 2 f_equal.
    apply list_filter_iff_in. intros i Hi%elem_of_range. by apply win_eq.
  - intros i Hi%elem_of_range. unfold n0, N in Hi. rewrite length_app in Hi.
    unfold joint. rewrite lookup_app_r by lia.
    destruct (lookup_lt_is_Some_2 sample (Z.to_nat i - length ic)) as [b Hb];
      [lia|].
    exists b. split; [done|].
    rewrite Forall_forall in Hsample. apply Hsample.
    by eapply list_elem_of_lookup_2.
Qed.

(** A node shallower than [dmax] that was a context somewhere is an
    internal node. *)
Lemma observed_context_internal t c u i :
  construct_tau_max order s0 dmax sample ic = Ok (t, c) →
  n0 ≤ i < N → Z.of_nat (length u) < dmax →
  ctx joint i (length u) = u → u ∈ dom (edges t).
Proof.
  intros (c1 & Hscan & ->)%construct_tau_max_Ok Hi Hu Hctx.
  rewrite <- Hctx.
  eapply (scan_positions_edges s0 dmax joint n0 N);
    [unfold n0; lia|done|apply scan_inv_init|exact Hscan|done|done].
Qed.

Lemma leaf_tally_zero t c1 u b :
  foldM (scan_position dmax joint) (Tree_init s0, c0) (range n0 N) = Ok (t, c1) →
  u ∉ dom (edges t) → Z.of_nat (length u) < dmax →
  tally c1 (u ++ [b]) = 0.
Proof.
  intros Hscan Hleaf Hu. rewrite (scan_tally t c1 u b Hscan) by lia.
  rewrite length_filter_none; [done|].
  intros i Hi%elem_of_range Hwin. apply win_eq in Hwin as [Hctx _]; [|done|lia].
  rewrite slice_ctx in Hctx by (done || lia). destruct Hleaf.
  apply (observed_context_internal t (foldl (fill_node s0) c1 (order (nodes t))) u i);
    [|done..].
  apply construct_tau_max_Ok. eauto.
Qed.

End construct_tau_max_valid.

(** C3. Let [len(initial_ctxt) >= dmax], the symbols of the alphabet be
    distinct and those of the sample belong to it.  For every node [u] of
    the tree that [construct_tau_max] returns, the entries [counter[u+b]]
    over the symbols [b] add up to the number of positions [i] of the
    scanned range with [joint_sample[i-len(u):i] = u].  The entry of the
    empty string is [len(sample)]: it is there before the scan, after every
    scanned prefix of the positions, and in the counter that is returned.
    The call returns when the initial context is over the alphabet too. *)
Theorem count_conservation (order : gset str → list str)
    (s0 : list ascii) (dmax : Z) (sample ic : str) :
  valid_order order → 0 ≤ dmax ≤ Z.of_nat (length ic) →
  NoDup s0 → Forall (λ a, a ∈ s0) sample →
  let joint := ic ++ sample in
  let n0 := Z.of_nat (length ic) in
  let N := Z.of_nat (length joint) in
  let seeded : gmap str Z := {[ [] := Z.of_nat (length sample) ]} in
  (Forall (λ a, a ∈ s0) ic →
   ∃ t c, construct_tau_max order s0 dmax sample ic = Ok (t, c)) ∧
  (∀ t c, construct_tau_max order s0 dmax sample ic = Ok (t, c) →
     (∀ u, u ∈ nodes t →
        ∃ counts, mapM' (λ b, getitem c (u ++ [b])) s0 = Ok counts ∧
                  np_sum counts = context_count joint n0 N u) ∧
     c !! [] = Some (Z.of_nat (length sample))) ∧
  (∀ k tk ck, n0 ≤ k ≤ N →
     foldM (scan_position dmax joint) (Tree_init s0, seeded) (range n0 k)
     = Ok (tk, ck) →
     ck !! [] = Some (Z.of_nat (length sample))).
Proof.
  intros Horder Hdepth Hnd Hsample. simpl. split; [|split].
  - intros Hctxt.
    assert (∀ a, a ∈ ic ++ sample → a ∈ s0) as Hsym.
    { rewrite Forall_forall in Hsample, Hctxt.
      intros a [?|?]%elem_of_app; auto. }
    destruct (scan_prefix_total s0 dmax sample ic Hdepth
                (Z.of_nat (length (ic ++ sample))) Hsym) as (t & c1 & Hscan); [lia|].
    eexists _, _. apply construct_tau_max_Ok. eauto.
  - intros t c Hc. split.
    + intros u Hu. by eapply transition_counts_sum.
    + apply construct_tau_max_Ok in Hc as (c1 & Hscan & ->).
      rewrite fill_lookup_nil. by eapply scan_prefix_root.
  - intros k tk ck Hk Hscan.
    eapply scan_prefix_root; [done| |done]. lia.
Qed.

(** ** The estimated probability *)

Lemma int64_small (z : Z) : - 2 ^ 63 ≤ z < 2 ^ 63 → int64 z = z.
Proof. intros Hz. unfold int64. rewrite Z.mod_small; lia. Qed.

Lemma np_sum_nonneg (l : list Z) : Forall (λ n, 0 ≤ n) l → 0 ≤ np_sum l.
Proof.
  induction 1 as [|x l Hx _ IH]; [done|]. rewrite np_sum_cons. lia.
Qed.

Section calc_log_pe.
Context `{FloatOps F}.
Implicit Types (c : gmap str Z) (u : str).

Lemma mapM'_Forall2 {A B} (f : A → result B) (l : list A) (k : list B) :
  mapM' f l = Ok k ↔ Forall2 (λ x y, f x = Ok y) l k.
Proof.
  revert k. induction l as [|x l IH]; intros k; simpl.
  - split; [intros [= <-]; constructor|by inversion 1].
  - rewrite bind_Ok. split.
    + intros (y & Hy & (ys & Hys & [= <-])%bind_Ok).
      constructor; [done|]. by apply IH.
    + inversion 1 as [|? y ? ys Hy Hys]; subst. exists y. split; [done|].
      apply bind_Ok. exists ys. split; [by apply IH|done].
Qed.

Lemma getitem_Ok {V} (d : gmap str V) k v : getitem d k = Ok v ↔ d !! k = Some v.
Proof. unfold getitem. destruct (d !! k); naive_solver. Qed.

Lemma foldl_fadd_fmap {A} (g : A → F) (acc : F) (l : list A) :
  foldl (λ acc n, fadd acc (g n)) acc l = foldl fadd acc (g <$> l).
Proof. revert acc. induction l as [|x l IH]; intros acc; simpl; [done|apply IH]. Qed.

Lemma log_numerator_flat (acc : F) (counts : list Z) :
  foldl (λ acc count,
     foldl (λ acc n, fadd acc (num_term n)) acc (range 1 (count + 1)))
    acc counts
  = foldl fadd acc (numerator_terms counts).
Proof.
  revert acc. induction counts as [|count counts IH]; intros acc; [done|].
  simpl. rewrite IH. unfold numerator_terms. simpl. rewrite foldl_app.
  by rewrite <- foldl_fadd_fmap.
Qed.

Lemma calc_log_pe_counts s0 c u counts :
  Forall2 (λ b n, c !! (u ++ [b]) = Some n) s0 counts →
  calc_log_pe s0 c u =
  Ok (if decide (counts = replicate (length s0) 0) then f0
      else fsub (fsum (numerator_terms counts))
                (fsum (den_term (length s0)
                       <$> range 1 (int64 (int64 (np_sum counts) + 1))))).
Proof.
  intros Hc. unfold calc_log_pe.
  assert (mapM' (λ b, getitem c (u ++ [b])) s0 = Ok counts) as ->.
  { apply mapM'_Forall2. eapply Forall2_impl; [done|].
    intros b n ?. by apply getitem_Ok. }
  simpl. case_decide; [done|].
  rewrite log_numerator_flat. unfold fsum.
  by rewrite <- (foldl_fadd_fmap (den_term (length s0))).
Qed.

Lemma all_zero_replicate (counts : list Z) (m : nat) :
  length counts = m → Forall (λ n, n = 0) counts ↔ counts = replicate m 0.
Proof.
  intros <-. split.
  - induction 1 as [|n counts -> _ IH]; simpl; [done|by rewrite <- IH].
  - intros ->. apply Forall_replicate. done.
Qed.

Lemma calc_log_pe_zero s0 c u :
  (∀ b, b ∈ s0 → c !! (u ++ [b]) = Some 0) → calc_log_pe s0 c u = Ok f0.
Proof.
  intros Hz. rewrite (calc_log_pe_counts s0 c u (replicate (length s0) 0)).
  - by rewrite decide_True.
  - clear -Hz. induction s0 as [|b s0 IH]; simpl; constructor.
    + apply Hz. by left.
    + apply IH. intros b' ?. apply Hz. by right.
Qed.

Lemma calc_log_pe_total s0 c u :
  (∀ b, b ∈ s0 → is_Some (c !! (u ++ [b]))) → ∃ v, calc_log_pe s0 c u = Ok v.
Proof.
  intros Hc.
  assert (∃ counts, Forall2 (λ b n, c !! (u ++ [b]) = Some n) s0 counts)
    as [counts Hcounts].
  { clear -Hc. induction s0 as [|b s0 IH]; [by exists []|].
    destruct (Hc b) as [n Hn]; [by left|].
    destruct IH as [counts ?]; [intros; apply Hc; by right|].
    exists (n :: counts). by constructor. }
  rewrite (calc_log_pe_counts s0 c u counts Hcounts). eauto.
Qed.

(** The seeded entry of the counter is never read. *)
Lemma calc_log_pe_seed s0 c u (v : Z) :
  calc_log_pe s0 (<[ [] := v ]> c) u = calc_log_pe s0 c u.
Proof.
  unfold calc_log_pe. f_equal.
  assert (∀ l, mapM' (λ b, getitem (<[ [] := v ]> c) (u ++ [b])) l
               = mapM' (λ b, getitem c (u ++ [b])) l) as ->; [|done].
  induction l as [|b l IH]; simpl; [done|]. rewrite IH.
  unfold getitem. rewrite lookup_insert_ne by (by destruct u). done.
Qed.

Lemma fsum_nested (counts : list Z) :
  (∀ x y z : F, fadd (fadd x y) z = fadd x (fadd y z)) →
  (∀ x : F, fadd f0 x = x) → (∀ x : F, fadd x f0 = x) →
  fsum (numerator_terms counts) = nested_numerator counts.
Proof.
  intros Hassoc Hidl Hidr.
  assert (∀ l (a : F), foldl fadd a l = fadd a (fsum l)) as Hfold.
  { unfold fsum. induction l as [|x l IH]; intros a; simpl; [by rewrite Hidr|].
    rewrite (IH (fadd a x)), (IH (fadd f0 x)), Hidl. by rewrite Hassoc. }
  assert (∀ a : F, foldl fadd a (numerator_terms counts) =
            foldl fadd a
              ((λ count, fsum (num_term <$> range 1 (count + 1))) <$> counts))
    as Hgen; [|apply Hgen].
  unfold numerator_terms.
  induction counts as [|count counts IH]; intros a; [done|].
  simpl. rewrite foldl_app, IH. f_equal. apply Hfold.
Qed.

End calc_log_pe.

(** C4. When the [m] entries [counter[u+b]] are present and not
    negative, and their sum [nu] and [nu + 1] are 64-bit integers,
    [calc_log_pe] returns [0.0] if the counts are all [0]; otherwise it
    returns the sum of [log(n - 0.5)] over the symbols [b] and
    [n = 1..counter[u+b]], minus the sum of [log(n + m/2 - 1)] over
    [n = 1..nu].  Each sum is accumulated from [0.0] in that order; when
    float addition is associative with unit [0.0], the first is also the sum
    over [b] of the sums over [n]. *)
Theorem calc_log_pe_formula `{FloatOps F} (s0 : list ascii) (c : gmap str Z)
    (u : str) (counts : list Z) :
  Forall2 (λ b n, c !! (u ++ [b]) = Some n ∧ 0 ≤ n) s0 counts →
  foldr Z.add 0 counts + 1 < 2 ^ 63 →
  let m := Z.of_nat (length s0) in
  let nu := foldr Z.add 0 counts in
  let numerator :=
    fsum (count ← counts;
          (λ n, flog (fsub (of_int n) half)) <$> range 1 (count + 1)) in
  let denominator :=
    fsum ((λ n, flog (fsub (fadd (of_int n) (fdiv (of_int m) (of_int 2)))
                           (of_int 1)))
          <$> range 1 (nu + 1)) in
  (Forall (λ n, n = 0) counts → calc_log_pe s0 c u = Ok f0) ∧
  (¬ Forall (λ n, n = 0) counts →
   calc_log_pe s0 c u = Ok (fsub numerator denominator)) ∧
  ((∀ x y z : F, fadd (fadd x y) z = fadd x (fadd y z)) →
   (∀ x : F, fadd f0 x = x) → (∀ x : F, fadd x f0 = x) →
   numerator =
   fsum ((λ count,
            fsum ((λ n, flog (fsub (of_int n) half)) <$> range 1 (count + 1)))
         <$> counts)).
Proof.
  intros Hc Hfit m nu numerator denominator.
  assert (Forall2 (λ b n, c !! (u ++ [b]) = Some n) s0 counts) as Hc'.
  { eapply Forall2_impl; [exact Hc|]. by intros b n [? _]. }
  assert (Forall (λ n, 0 ≤ n) counts) as Hpos.
  { clear -Hc. induction Hc as [|b n s0 counts [_ Hn] _ IH]; by constructor. }
  pose proof (Forall2_length _ _ _ Hc') as Hlen.
  rewrite (calc_log_pe_counts s0 c u counts Hc').
  assert (np_sum counts = nu) as Hnu.
  { unfold nu. clear. induction counts as [|n l IH]; [done|].
    rewrite np_sum_cons, IH. done. }
  pose proof (np_sum_nonneg counts Hpos) as Hnu0.
  split; [|split].
  - intros Hz. rewrite decide_True; [done|]. by apply all_zero_replicate.
  - intros Hnz. rewrite decide_False.
    2: { intros Heq. apply Hnz. by apply (all_zero_replicate counts (length s0)). }
    rewrite Hnu in *. rewrite (int64_small nu) by lia.
    by rewrite (int64_small (nu + 1)) by lia.
  - apply fsum_nested.
Qed.

(** ** The maximal probability *)

Section log_pm.
Context `{FloatOps F}.
Variable order : gset str → list str.
Hypothesis Horder : valid_order order.
Variables (s0 : list ascii) (dmax : Z) (beta : F) (t : Tree) (pe : gmap str F).
Hypothesis Hcomplete : complete t.
Hypothesis Hs : s t = s0.
Hypothesis Hpe : ∀ u, u ∈ nodes t → is_Some (pe !! u).
Implicit Types (d : gmap str F) (u x : str) (k lo : Z).

Lemma log_pm_node_value k d u :
  Z.of_nat (length u) = k →
  log_pm_node dmax beta t pe k d u =
  (v ← node_value dmax beta t pe d u; Ok (<[u := v]> d)).
Proof.
  intros <-. unfold log_pm_node, node_value. case_decide.
  - by destruct (getitem pe u).
  - destruct (edges t !! u) as [cs|]; [|done].
    destruct (sum_child_log_pm d cs); [|done]. simpl.
    by destruct (getitem pe u).
Qed.

Lemma sum_child_local d d' cs :
  (∀ x, x ∈ cs → d !! x = d' !! x) →
  sum_child_log_pm d cs = sum_child_log_pm d' cs.
Proof.
  unfold sum_child_log_pm. generalize (f0 : F).
  induction cs as [|x cs IH]; intros a Hloc; simpl; [done|].
  assert (getitem d x = getitem d' x) as ->.
  { unfold getitem. by rewrite (Hloc x) by left. }
  destruct (getitem d' x); simpl; [|done]. apply IH.
  intros y ?. apply Hloc. by right.
Qed.

Lemma sum_child_total d cs :
  (∀ x, x ∈ cs → is_Some (d !! x)) → ∃ v, sum_child_log_pm d cs = Ok v.
Proof.
  unfold sum_child_log_pm. generalize (f0 : F).
  induction cs as [|x cs IH]; intros a Hall; simpl; [eauto|].
  destruct (Hall x) as [v Hv]; [by left|].
  apply getitem_Ok in Hv. rewrite Hv.
  simpl. apply IH. intros y ?. apply Hall. by right.
Qed.

Lemma node_value_local d d' u :
  (∀ b, d !! (b :: u) = d' !! (b :: u)) →
  node_value dmax beta t pe d u = node_value dmax beta t pe d' u.
Proof.
  intros Hloc. unfold node_value. case_decide; [done|].
  destruct (edges t !! u) as [cs|] eqn:Hu; [|done].
  rewrite (sum_child_local d d' cs); [done|].
  pose proof (wf_shape _ (complete_wf _ Hcomplete) _ _ Hu) as ->.
  intros x (b & -> & _)%elem_of_children_of. apply Hloc.
Qed.

Lemma node_value_total d u :
  u ∈ nodes t →
  (∀ b, b :: u ∈ nodes t → Z.of_nat (length u) ≠ dmax → is_Some (d !! (b :: u))) →
  ∃ v, node_value dmax beta t pe d u = Ok v.
Proof.
  intros Hu Hch. unfold node_value.
  destruct (Hpe u Hu) as [pu Hpu]. apply getitem_Ok in Hpu. rewrite Hpu.
  case_decide as Hlen; [eauto|].
  destruct (edges t !! u) as [cs|] eqn:Hcs; [|eauto].
  pose proof (wf_shape _ (complete_wf _ Hcomplete) _ _ Hcs) as ->.
  destruct (sum_child_total d (children_of (s t) u)) as [v ->]; [|simpl; eauto].
  intros x (b & -> & Hb)%elem_of_children_of.
  apply Hch; [|done].
  apply (complete_children _ Hcomplete); [|done]. apply elem_of_dom. eauto.
Qed.

(** The loop over the nodes of one size. *)
Lemma log_pm_nodes_spec k us d :
  NoDup us →
  (∀ x, x ∈ us → x ∈ nodes t ∧ Z.of_nat (length x) = k) →
  (∀ x, x ∈ nodes t → Z.of_nat (length x) = k + 1 → k ≠ dmax →
        is_Some (d !! x)) →
  ∃ d', foldM (log_pm_node dmax beta t pe k) d us = Ok d' ∧
    ∀ x, d' !! x =
         if decide (x ∈ us)
         then match node_value dmax beta t pe d x with
              | Ok v => Some v
              | Raise _ => None
              end
         else d !! x.
Proof.
  revert d. induction us as [|u us IH]; intros d Hnd Hus Hch; cbn [foldM].
  { exists d. split; [done|]. intros x. rewrite decide_False; [done|].
    by intros ?%elem_of_nil. }
  apply NoDup_cons in Hnd as [Hu Hnd].
  destruct (Hus u) as [Hin Hlen]; [by left|].
  destruct (node_value_total d u Hin) as [v Hv].
  { intros b Hb Hne. apply Hch; [done| |congruence]. simpl. lia. }
  rewrite log_pm_node_value, Hv by done. simpl.
  destruct (IH (<[u := v]> d)) as (d' & Hrun & Hlook); [done|..].
  { intros x ?. apply Hus. by right. }
  { intros x Hx Hxl Hk. destruct (decide (x = u)) as [->|Hne].
    - rewrite lookup_insert_eq. eauto.
    - rewrite lookup_insert_ne by done. by apply Hch. }
  exists d'. split; [done|]. intros x. rewrite Hlook.
  destruct (decide (x = u)) as [->|Hne].
  - rewrite decide_False by done. rewrite decide_True by left.
    by rewrite lookup_insert_eq, Hv.
  - destruct (decide (x ∈ us)) as [Hxus|Hxus].
    + rewrite decide_True by (by right).
      rewrite (node_value_local (<[u := v]> d) d x); [done|].
      intros b. apply lookup_insert_ne. intros ->.
      destruct (Hus (b :: x)) as [_ Hl1]; [by left|].
      destruct (Hus x) as [_ Hl2]; [by right|]. simpl in Hl1. lia.
    + rewrite decide_False.
      2: { intros [?|?]%elem_of_cons; done. }
      by rewrite lookup_insert_ne.
Qed.

Lemma elem_of_cur_nodes k x :
  x ∈ filter (λ node, Z.of_nat (length node) = k) (order (nodes t)) ↔
  x ∈ nodes t ∧ Z.of_nat (length x) = k.
Proof.
  rewrite list_elem_of_filter. rewrite (elem_of_valid_order order) by done.
  naive_solver.
Qed.

(** One size of the outer loop. *)
Lemma log_pm_level_spec lo d :
  0 ≤ lo ≤ dmax → pm_spec dmax beta t pe (lo + 1) d →
  ∃ d', log_pm_level order dmax beta t pe d lo = Ok d' ∧
        pm_spec dmax beta t pe lo d' ∧ d ⊆ d'.
Proof.
  intros Hlo [Hdom Hval]. unfold log_pm_level.
  set (us := filter _ _).
  destruct (log_pm_nodes_spec lo us d) as (d' & Hrun & Hlook).
  { apply NoDup_filter, NoDup_valid_order, Horder. }
  { intros x. apply elem_of_cur_nodes. }
  { intros x Hx Hl Hne. apply elem_of_dom, Hdom. split; [done|lia]. }
  exists d'. split; [done|].
  assert (∀ x v, d !! x = Some v → x ∉ us) as Hfresh.
  { intros x v Hx [_ Hl]%elem_of_cur_nodes.
    assert (x ∈ dom d) as Hd by (apply elem_of_dom; eauto).
    apply Hdom in Hd. lia. }
  assert (∀ x, lo ≤ Z.of_nat (length x) → ∀ b, d' !! (b :: x) = d !! (b :: x))
    as Hkeep.
  { intros x Hx b. rewrite Hlook. rewrite decide_False; [done|].
    intros [_ Hl]%elem_of_cur_nodes. simpl in Hl. lia. }
  split; [split|].
  - intros x. rewrite elem_of_dom, Hlook. destruct (decide (x ∈ us)) as [Hx|Hx].
    + pose proof Hx as [Hin Hl]%elem_of_cur_nodes.
      destruct (node_value_total d x Hin) as [v ->].
      { intros b Hb Hne. apply elem_of_dom, Hdom. split; [done|].
        simpl. lia. }
      split; [intros _; split; [done|lia]|eauto].
    + rewrite <- elem_of_dom, Hdom. split.
      * intros [? ?]. split; [done|lia].
      * intros [Hin Hl]. split; [done|].
        destruct (decide (Z.of_nat (length x) = lo)) as [Heq|?]; [|lia].
        destruct Hx. by apply elem_of_cur_nodes.
  - intros x v. rewrite Hlook. destruct (decide (x ∈ us)) as [Hx|Hx].
    + pose proof Hx as [Hin Hl]%elem_of_cur_nodes.
      destruct (node_value dmax beta t pe d x) as [v'|] eqn:Hv; [|done].
      intros [= <-]. rewrite <- Hv. apply node_value_local.
      apply Hkeep. lia.
    + intros Hx'. rewrite <- (Hval x v Hx'). apply node_value_local.
      apply Hkeep.
      assert (x ∈ dom d) as Hd by (apply elem_of_dom; eauto).
      apply Hdom in Hd. lia.
  - apply map_subseteq_spec. intros x v Hx. rewrite Hlook.
    rewrite decide_False; [done|]. by eapply Hfresh.
Qed.

Lemma pm_spec_empty lo : dmax < lo → pm_spec dmax beta t pe lo ∅.
Proof.
  intros Hlo. split.
  - intros u. rewrite dom_empty_L, elem_of_empty. split; [done|]. lia.
  - intros u v. by rewrite lookup_empty.
Qed.

(** The sizes from [dmax] down to [lo]. *)
Lemma log_pm_levels (n : nat) lo :
  0 ≤ lo → Z.to_nat (dmax + 1 - lo) = n →
  ∃ d, foldM (log_pm_level order dmax beta t pe) ∅
         (reverse (range lo (dmax + 1))) = Ok d ∧
       pm_spec dmax beta t pe lo d ∧
       ∀ lo' d', lo ≤ lo' →
         foldM (log_pm_level order dmax beta t pe) ∅
           (reverse (range lo' (dmax + 1))) = Ok d' →
         d' ⊆ d.
Proof.
  revert lo. induction n as [|n IH]; intros lo Hlo Hn.
  - assert (∀ lo', lo ≤ lo' → range lo' (dmax + 1) = []) as Hnil.
    { intros lo' ?. apply range_nil. lia. }
    exists ∅. rewrite Hnil by lia. split; [done|].
    split; [apply pm_spec_empty; lia|].
    intros lo' d' Hlo'. rewrite Hnil by done. by intros [= <-].
  - destruct (IH (lo + 1)) as (d1 & Hrun1 & Hspec1 & Hmono1); [lia|lia|].
    destruct (log_pm_level_spec lo d1) as (d & Hstep & Hspec & Hsub);
      [lia|done|].
    assert (foldM (log_pm_level order dmax beta t pe) ∅
              (reverse (range lo (dmax + 1))) = Ok d) as Hrun.
    { rewrite range_cons, reverse_cons, foldM_app, Hrun1 by lia. simpl.
      by rewrite Hstep. }
    exists d. split; [done|]. split; [done|].
    intros lo' d' Hlo' Hrun'.
    destruct (decide (lo' = lo)) as [->|Hne].
    + rewrite Hrun in Hrun'. by injection Hrun' as <-.
    + trans d1; [|done]. apply (Hmono1 lo'); [lia|done].
Qed.

Lemma pm_spec_unique lo d1 d2 :
  pm_spec dmax beta t pe lo d1 → pm_spec dmax beta t pe lo d2 → d1 = d2.
Proof.
  intros [Hdom1 Hval1] [Hdom2 Hval2]. apply map_eq.
  assert (∀ (n : nat) u, Z.to_nat (dmax + 1 - Z.of_nat (length u)) = n →
            d1 !! u = d2 !! u) as Hind; [|by eauto].
  induction n as [n IH] using lt_wf_ind. intros u Hn.
  destruct (d1 !! u) as [v1|] eqn:H1, (d2 !! u) as [v2|] eqn:H2.
  - f_equal.
    assert (u ∈ dom d1) as Hu by (apply elem_of_dom; eauto).
    apply Hdom1 in Hu as [_ Hlen].
    pose proof (Hval1 _ _ H1) as E1. pose proof (Hval2 _ _ H2) as E2.
    rewrite (node_value_local d1 d2 u) in E1; [congruence|].
    intros b. apply (IH (Z.to_nat (dmax + 1 - Z.of_nat (length (b :: u))))).
    + simpl length. lia.
    + done.
  - assert (u ∈ dom d1) as Hu by (apply elem_of_dom; eauto).
    apply Hdom1, Hdom2, elem_of_dom in Hu as [? ?]. congruence.
  - assert (u ∈ dom d2) as Hu by (apply elem_of_dom; eauto).
    apply Hdom2, Hdom1, elem_of_dom in Hu as [? ?]. congruence.
  - done.
Qed.

Lemma range_app (lo mid hi : Z) :
  lo ≤ mid ≤ hi → range lo hi = range lo mid ++ range mid hi.
Proof.
  intros Hm. unfold range.
  replace (Z.to_nat (hi - lo)) with (Z.to_nat (mid - lo) + Z.to_nat (hi - mid))%nat
    by lia.
  rewrite seq_app, fmap_app. f_equal.
  apply list_eq. intros i. rewrite !list_lookup_fmap.
  destruct (decide (i < Z.to_nat (hi - mid))%nat).
  - rewrite !lookup_seq_lt by done. simpl. f_equal. lia.
  - rewrite !lookup_seq_ge by lia. done.
Qed.


(** The whole of [construct_log_pm_dict]. *)
Lemma construct_log_pm_dict_spec :
  ∃ d, construct_log_pm_dict order s0 dmax beta t pe = Ok d ∧
       pm_spec dmax beta t pe 0 d ∧
       ∀ k, -1 ≤ k ≤ dmax →
         ∃ dk, foldM (log_pm_level order dmax beta t pe) ∅ (levels_above dmax k)
               = Ok dk ∧
               pm_spec dmax beta t pe (k + 1) dk ∧ dk ⊆ d.
Proof.
  destruct (log_pm_levels (Z.to_nat (dmax + 1 - 0)) 0) as (d & Hrun & Hspec & Hmono);
    [done..|].
  exists d. split; [done|]. split; [done|]. intros k Hk.
  destruct (log_pm_levels (Z.to_nat (dmax + 1 - (k + 1))) (k + 1))
    as (dk & Hrunk & Hspeck & _); [lia|done|].
  exists dk. split; [done|]. split; [done|].
  apply (Hmono (k + 1)); [lia|done].
Qed.

End log_pm.

Section stages.
Context `{FloatOps F}.
Variable order : gset str → list str.
Hypothesis Horder : valid_order order.
Implicit Types (c : gmap str Z) (d pe pm : gmap str F) (u : str).

Lemma sum_child_Forall2 d cs (vs : list F) :
  Forall2 (λ x v, d !! x = Some v) cs vs →
  sum_child_log_pm d cs = Ok (fsum vs).
Proof.
  intros Hall. unfold sum_child_log_pm, fsum. generalize (f0 : F).
  induction Hall as [|x v cs vs Hx _ IH]; intros a; simpl; [done|].
  apply getitem_Ok in Hx. rewrite Hx. simpl. apply IH.
Qed.

Lemma sum_child_Ok d cs (v : F) :
  sum_child_log_pm d cs = Ok v →
  ∃ vs, Forall2 (λ x v, d !! x = Some v) cs vs ∧ v = fsum vs.
Proof.
  unfold sum_child_log_pm, fsum. generalize (f0 : F). revert v.
  induction cs as [|x cs IH]; intros v a; simpl.
  - intros [= <-]. exists []. by split; [constructor|].
  - intros (a' & (vx & Hx%getitem_Ok & [= <-])%bind_Ok & Hrest)%bind_Ok.
    destruct (IH _ _ Hrest) as (vs & Hvs & ->).
    exists (vx :: vs). split; [by constructor|done].
Qed.

Lemma log_pe_comprehension_spec s0 c us :
  (∀ u, u ∈ us → ∃ v, calc_log_pe s0 c u = Ok v) →
  ∃ pe, log_pe_comprehension s0 c us = Ok pe ∧
    ∀ u, pe !! u =
         if decide (u ∈ us)
         then match calc_log_pe s0 c u with Ok v => Some v | Raise _ => None end
         else None.
Proof.
  unfold log_pe_comprehension. intros Hall.
  assert (∀ d0 : gmap str F, ∃ pe,
    foldM (λ d u, v ← calc_log_pe s0 c u; Ok (<[u := v]> d)) d0 us = Ok pe ∧
    ∀ u, pe !! u =
         if decide (u ∈ us)
         then match calc_log_pe s0 c u with Ok v => Some v | Raise _ => None end
         else d0 !! u) as Hgen.
  2: { destruct (Hgen ∅) as (pe & Hrun & Hlook). exists pe. split; [done|].
       intros u. rewrite Hlook. by rewrite lookup_empty. }
  induction us as [|u us IH]; intros d0; cbn [foldM].
  { exists d0. split; [done|]. intros u. rewrite decide_False; [done|].
    by intros ?%elem_of_nil. }
  destruct (Hall u) as [v Hv]; [by left|]. rewrite Hv. simpl.
  destruct (IH (λ x Hx, Hall x (list_elem_of_further _ _ _ Hx)) (<[u := v]> d0))
    as (pe & Hrun & Hlook).
  exists pe. split; [done|]. intros x. rewrite Hlook.
  destruct (decide (x ∈ us)) as [Hx|Hx].
  - rewrite decide_True by (by right). done.
  - destruct (decide (x = u)) as [->|Hne].
    + rewrite decide_True by left. by rewrite lookup_insert_eq, Hv.
    + rewrite decide_False by (intros [?|?]%elem_of_cons; done).
      by rewrite lookup_insert_ne.
Qed.

(** After [construct_tau_max] has returned, the next two stages of [bct]
    return as well. *)
Lemma bct_stages s0 dmax (beta : F) sample ic t c :
  construct_tau_max order s0 dmax sample ic = Ok (t, c) →
  ∃ pe pm,
    log_pe_comprehension s0 c (order (nodes t)) = Ok pe ∧
    (∀ u, pe !! u =
          if decide (u ∈ nodes t)
          then match calc_log_pe s0 c u with Ok v => Some v | Raise _ => None end
          else None) ∧
    (∀ u, u ∈ nodes t → is_Some (pe !! u)) ∧
    construct_log_pm_dict order s0 dmax beta t pe = Ok pm ∧
    pm_spec dmax beta t pe 0 pm ∧
    ∀ k, -1 ≤ k ≤ dmax →
      ∃ dk, foldM (log_pm_level order dmax beta t pe) ∅ (levels_above dmax k)
            = Ok dk ∧
            pm_spec dmax beta t pe (k + 1) dk ∧ dk ⊆ pm.
Proof.
  intros Hc.
  destruct (construct_tau_max_inv order Horder _ _ _ _ _ _ Hc) as [Hinv Hfull].
  assert (∀ u, u ∈ nodes t → ∃ v, calc_log_pe s0 c u = Ok v) as Hcalc.
  { intros u Hu. apply calc_log_pe_total. intros b Hb. by apply Hfull. }
  destruct (log_pe_comprehension_spec s0 c (order (nodes t))) as (pe & Hpe & Hlook).
  { intros u Hu%(elem_of_valid_order order); [by apply Hcalc|done]. }
  assert (∀ u, pe !! u =
            if decide (u ∈ nodes t)
            then match calc_log_pe s0 c u with Ok v => Some v | Raise _ => None end
            else None) as Hlook'.
  { intros u. rewrite Hlook.
    destruct (decide (u ∈ nodes t)) as [Hu|Hu].
    - rewrite decide_True; [done|]. by apply elem_of_valid_order.
    - rewrite decide_False; [done|]. by rewrite elem_of_valid_order. }
  assert (∀ u, u ∈ nodes t → is_Some (pe !! u)) as Htot.
  { intros u Hu. rewrite Hlook', decide_True by done.
    destruct (Hcalc u Hu) as [v ->]. eauto. }
  destruct (construct_log_pm_dict_spec order Horder s0 dmax beta t pe
              (scan_complete _ _ _ Hinv) Htot) as (pm & Hpm & Hspec & Hlev).
  exists pe, pm. done.
Qed.

(** *** The pruning loop *)

Lemma list_remove_first_head x l : list_remove_first x (x :: l) = l.
Proof. simpl. by rewrite decide_True. Qed.

Lemma loop_bound_pos (m n : nat) : (0 < loop_bound m n)%nat.
Proof. destruct n; simpl; lia. Qed.

Lemma sum_list_with_const {A} (f : A → nat) (n : nat) (l : list A) :
  (∀ x, x ∈ l → f x = n) → sum_list_with f l = (length l * n)%nat.
Proof.
  induction l as [|x l IH]; intros Hc; simpl; [done|].
  rewrite Hc by left. rewrite IH; [done|]. intros y ?. apply Hc. by right.
Qed.

Lemma loop_inv_prune s0 t tau n :
  loop_inv s0 t tau → loop_inv s0 t (prune_spec n tau).
Proof.
  intros [Hc Hs Hn Hk]. split; [by apply complete_prune_spec|done|..].
  - intros x. simpl. rewrite elem_of_filter. intros [_ ?]. by apply Hn.
  - intros k [? _]%prune_spec_dom. by apply Hk.
Qed.

Section prune_loop.
Variables (s0 : list ascii) (dmax : Z) (beta : F) (t : Tree) (pe pm : gmap str F).
Hypothesis Hinv : scan_inv s0 dmax t.
Hypothesis Hpe : ∀ u, u ∈ nodes t → is_Some (pe !! u).
Hypothesis Hpm : pm_spec dmax beta t pe 0 pm.

Lemma prune_step_total tau node q :
  loop_inv s0 t tau →
  ∃ tau' q',
    prune_step beta pe pm tau (node :: q) node = Ok (tau', q') ∧
    loop_inv s0 t tau' ∧
    (q' = q ∨ q' = q ++ children_of s0 node ∧ node ∈ dom (edges tau)).
Proof.
  intros Hl. pose proof Hl as [Hc Hs Hn Hk].
  unfold prune_step. rewrite list_remove_first_head.
  destruct (edges tau !! node) as [cs|] eqn:Hnode; [|by eauto 10].
  assert (node ∈ dom (edges tau)) as Hd by (apply elem_of_dom; eauto).
  pose proof (wf_shape _ (complete_wf _ Hc) _ _ Hnode) as ->. rewrite Hs.
  destruct (sum_child_total pm (children_of s0 node)) as [sum Hsum].
  { intros x (b & -> & Hb)%elem_of_children_of.
    apply elem_of_dom, Hpm.
    assert (b :: node ∈ nodes t) as Hin.
    { apply Hn, (complete_children _ Hc); [done|by rewrite Hs]. }
    split; [done|]. pose proof (scan_depth_keys _ _ _ Hinv _ (Hk _ Hd)).
    simpl length. lia. }
  rewrite Hsum. simpl.
  destruct (Hpe node) as [pn Hpn].
  { apply Hn, (wf_keys _ (complete_wf _ Hc)), Hd. }
  apply getitem_Ok in Hpn. rewrite Hpn. simpl.
  destruct (fgt _ _).
  - rewrite prune_at_node_spec by apply Hc. simpl.
    eexists _, _. split; [done|]. split; [by apply loop_inv_prune|by left].
  - eexists _, _. split; [done|]. split; [done|]. right. done.
Qed.

Lemma queue_weight_children tau node :
  loop_inv s0 t tau → node ∈ dom (edges tau) →
  loop_bound (length s0) (Z.to_nat dmax - length node)
  = S (queue_weight (length s0) dmax (children_of s0 node)).
Proof.
  intros [Hc Hs Hn Hk] Hd.
  pose proof (scan_depth_keys _ _ _ Hinv _ (Hk _ Hd)) as Hlen.
  replace (Z.to_nat dmax - length node)%nat
    with (S (Z.to_nat dmax - S (length node))) by lia.
  simpl. f_equal. unfold queue_weight.
  rewrite (sum_list_with_const _
    (loop_bound (length s0) (Z.to_nat dmax - S (length node)))).
  - unfold children_of. by rewrite length_fmap.
  - by intros x (b & -> & _)%elem_of_children_of.
Qed.

(** The [while] loop ends within [loop_bound] iterations. *)
Lemma prune_loop_total fuel tau queue :
  loop_inv s0 t tau → (queue_weight (length s0) dmax queue ≤ fuel)%nat →
  ∃ tau', prune_loop fuel beta pe pm tau queue = Ok tau' ∧ loop_inv s0 t tau'.
Proof.
  revert tau queue. induction fuel as [|fuel IH]; intros tau queue Hl Hw.
  - destruct queue as [|node q]; [simpl; eauto|].
    unfold queue_weight in Hw. simpl in Hw.
    pose proof (loop_bound_pos (length s0) (Z.to_nat dmax - length node)). lia.
  - destruct queue as [|node q]; [simpl; eauto|]. cbn [prune_loop].
    destruct (prune_step_total tau node q Hl)
      as (tau' & q' & -> & Hl' & Hq'). simpl.
    apply IH; [done|]. unfold queue_weight in Hw |- *. simpl in Hw.
    destruct Hq' as [->|[-> Hd]].
    + pose proof (loop_bound_pos (length s0) (Z.to_nat dmax - length node)). lia.
    + rewrite sum_list_with_app.
      rewrite (queue_weight_children tau node Hl Hd) in Hw.
      unfold queue_weight in Hw. lia.
Qed.

End prune_loop.

Lemma loop_inv_refl s0 dmax t : scan_inv s0 dmax t → loop_inv s0 t t.
Proof. intros [Hc Hs _ _]. by split. Qed.

(** [bct] returns whenever [construct_tau_max] does and [dmax] is not
    negative. *)
Lemma bct_Ok s0 dmax (beta : F) sample ic t c :
  construct_tau_max order s0 dmax sample ic = Ok (t, c) → 0 ≤ dmax →
  ∃ pe pm tau v,
    log_pe_comprehension s0 c (order (nodes t)) = Ok pe ∧
    construct_log_pm_dict order s0 dmax beta t pe = Ok pm ∧
    pm_spec dmax beta t pe 0 pm ∧
    prune_loop (loop_bound (length s0) (Z.to_nat dmax)) beta pe pm t [ [] ]
      = Ok tau ∧
    loop_inv s0 t tau ∧
    pm !! [] = Some v ∧
    bct order s0 dmax beta sample ic = Ok (tau, fexp v).
Proof.
  intros Hc Hd.
  destruct (construct_tau_max_inv order Horder _ _ _ _ _ _ Hc) as [Hinv _].
  destruct (bct_stages s0 dmax beta sample ic t c Hc)
    as (pe & pm & Hpe & _ & Htot & Hpm & Hspec & _).
  destruct (prune_loop_total s0 dmax beta t pe pm Hinv Htot Hspec
              (loop_bound (length s0) (Z.to_nat dmax)) t [ [] ])
    as (tau & Hloop & Hl).
  { by eapply loop_inv_refl. }
  { unfold queue_weight. cbn [sum_list_with length].
    rewrite Nat.sub_0_r. lia. }
  assert ([] ∈ dom pm) as [v Hv]%elem_of_dom.
  { apply Hspec. split; [apply complete_root, Hinv|simpl; lia]. }
  exists pe, pm, tau, v. repeat (split; [done|]).
  unfold bct. rewrite Hc. simpl. rewrite Hpe. simpl. rewrite Hpm. simpl.
  rewrite Hloop. simpl. apply getitem_Ok in Hv. by rewrite Hv.
Qed.

(** *** Runs in which the tree stays a single root *)

Lemma scan_position_shallow dmax joint t c i :
  dmax ≤ 0 → ∃ c', scan_position dmax joint (t, c) i = Ok (t, c').
Proof.
  intros Hd. unfold scan_position.
  destruct (decide (dmax = 0)) as [->|Hne].
  - change (range 0 (0 + 1)) with [0]. cbn [foldM]. unfold scan_depth.
    rewrite decide_False by lia. simpl. eauto.
  - rewrite range_nil by lia. simpl. eauto.
Qed.

Lemma scan_positions_shallow dmax joint t ps c :
  dmax ≤ 0 → ∃ c', foldM (scan_position dmax joint) (t, c) ps = Ok (t, c').
Proof.
  intros Hd. revert c. induction ps as [|i ps IH]; intros c; cbn [foldM]; [eauto|].
  destruct (scan_position_shallow dmax joint t c i Hd) as [c1 ->]. simpl.
  apply IH.
Qed.

Lemma construct_tau_max_root s0 dmax sample ic :
  dmax ≤ 0 ∨ sample = [] →
  ∃ c, construct_tau_max order s0 dmax sample ic = Ok (Tree_init s0, c).
Proof.
  intros [Hd| ->].
  - destruct (scan_positions_shallow dmax (ic ++ sample) (Tree_init s0)
      (range (Z.of_nat (length ic)) (Z.of_nat (length (ic ++ sample))))
      {[ [] := Z.of_nat (length sample) ]} Hd) as [c1 Hc1].
    eexists. apply construct_tau_max_Ok. eauto.
  - eexists. apply construct_tau_max_Ok. eexists. split; [|done].
    rewrite app_nil_r, range_nil by lia. done.
Qed.

Lemma prune_loop_root (beta : F) pe pm s0 (fuel : nat) :
  prune_loop (S fuel) beta pe pm (Tree_init s0) [ [] ] = Ok (Tree_init s0).
Proof.
  cbn [prune_loop]. unfold prune_step. rewrite list_remove_first_head.
  simpl. rewrite lookup_empty. simpl. by destruct fuel.
Qed.

(** When the maximal tree is the single root, [bct] returns it together
    with [exp(log_pe(""))] at [dmax = 0] and [exp(log(beta))] above. *)
Lemma bct_root_only s0 dmax (beta : F) sample ic c :
  construct_tau_max order s0 dmax sample ic = Ok (Tree_init s0, c) → 0 ≤ dmax →
  ∃ pe_root,
    calc_log_pe s0 c [] = Ok pe_root ∧
    bct order s0 dmax beta sample ic =
    Ok (Tree_init s0, fexp (if decide (dmax = 0) then pe_root else flog beta)).
Proof.
  intros Hc Hd.
  destruct (bct_stages s0 dmax beta sample ic _ c Hc)
    as (pe & pm & Hpe & Hlook & Htot & Hpm & [Hdom Hval] & _).
  assert ([] ∈ nodes (Tree_init s0)) as Hroot by apply complete_root, complete_init.
  destruct (Htot [] Hroot) as [pe_root Hpr]. exists pe_root.
  pose proof (Hlook []) as Hcalc. rewrite decide_True, Hpr in Hcalc by done.
  split; [by destruct (calc_log_pe s0 c []); simplify_eq|].
  assert ([] ∈ dom pm) as [v Hv]%elem_of_dom.
  { apply Hdom. split; [done|simpl; lia]. }
  pose proof (Hval [] v Hv) as Hnv. unfold node_value in Hnv.
  apply getitem_Ok in Hpr, Hv. rewrite Hpr in Hnv.
  cbn [length edges Tree_init] in Hnv. rewrite lookup_empty in Hnv.
  unfold bct. run_stage Hc. run_stage Hpe. run_stage Hpm.
  pose proof (loop_bound_pos (length s0) (Z.to_nat dmax)) as Hpos.
  destruct (loop_bound (length s0) (Z.to_nat dmax)) as [|fuel]; [lia|].
  run_stage prune_loop_root. run_stage Hv. do 3 f_equal.
  destruct (decide (0 = dmax)) as [<-|Hne].
  - rewrite decide_True by done. rewrite decide_True in Hnv by done.
    by simplify_eq.
  - rewrite decide_False by lia. rewrite decide_False in Hnv by (simpl; lia).
    by simplify_eq.
Qed.

Lemma bct_negative_depth s0 dmax (beta : F) sample ic :
  dmax < 0 →
  (∃ c pe pm,
     construct_tau_max order s0 dmax sample ic = Ok (Tree_init s0, c) ∧
     log_pe_comprehension s0 c (order (nodes (Tree_init s0))) = Ok pe ∧
     construct_log_pm_dict order s0 dmax beta (Tree_init s0) pe = Ok pm ∧
     prune_loop (loop_bound (length s0) (Z.to_nat dmax)) beta pe pm
       (Tree_init s0) [ [] ] = Ok (Tree_init s0) ∧
     pm !! [] = None) ∧
  bct order s0 dmax beta sample ic = Raise KeyError.
Proof.
  intros Hd.
  destruct (construct_tau_max_root s0 dmax sample ic) as [c Hc]; [left; lia|].
  destruct (bct_stages s0 dmax beta sample ic _ c Hc)
    as (pe & pm & Hpe & _ & _ & Hpm & [Hdom _] & _).
  assert (pm !! [] = None) as Hnone.
  { apply not_elem_of_dom. intros [_ ?]%Hdom. simpl in *. lia. }
  pose proof (loop_bound_pos (length s0) (Z.to_nat dmax)) as Hpos.
  destruct (loop_bound (length s0) (Z.to_nat dmax)) as [|fuel] eqn:Hfuel; [lia|].
  split.
  - exists c, pe, pm. by rewrite prune_loop_root.
  - unfold bct. run_stage Hc. run_stage Hpe. run_stage Hpm.
    rewrite Hfuel. run_stage prune_loop_root. unfold getitem. by rewrite Hnone.
Qed.

(** *** Independence of the iteration order *)

Lemma foldM_Raise {A B} (f : B → A → result B) b l e :
  foldM f b l = Raise e → ∃ b' x, x ∈ l ∧ f b' x = Raise e.
Proof.
  revert b. induction l as [|x l IH]; intros b; simpl; [done|].
  destruct (f b x) as [b1|e1] eqn:Hf; simpl.
  - intros (b' & y & ? & ?)%IH. exists b', y. split; [by right|done].
  - intros [= ->]. exists b, x. split; [by left|done].
Qed.

Lemma construct_tau_max_Raise s0 dmax sample ic e :
  construct_tau_max order s0 dmax sample ic = Raise e → e = AssertionError.
Proof.
  unfold construct_tau_max.
  destruct (foldM _ _ _) as [[t c]|e'] eqn:Hscan; [done|]. simpl.
  intros [= ->].
  apply foldM_Raise in Hscan as ([t1 c1] & i & _ & Hpos).
  unfold scan_position in Hpos.
  apply foldM_Raise in Hpos as ([t2 c2] & j & _ & Hdepth).
  unfold scan_depth, add_node in Hdepth.
  repeat case_decide; simplify_eq/=; done.
Qed.

End stages.

Section order.
Context `{FloatOps F}.
Variables o1 o2 : gset str → list str.
Hypothesis Ho1 : valid_order o1.
Hypothesis Ho2 : valid_order o2.

Lemma construct_tau_max_order s0 dmax sample ic :
  construct_tau_max o1 s0 dmax sample ic = construct_tau_max o2 s0 dmax sample ic.
Proof.
  unfold construct_tau_max.
  destruct (foldM _ _ _) as [[t c]|e]; [|done]. simpl. do 2 f_equal.
  apply fill_order_irrelevant. by rewrite (Ho1 _), (Ho2 _).
Qed.

Lemma bct_order s0 dmax (beta : F) sample ic :
  bct o1 s0 dmax beta sample ic = bct o2 s0 dmax beta sample ic.
Proof.
  pose proof (construct_tau_max_order s0 dmax sample ic) as Hc.
  destruct (construct_tau_max o1 s0 dmax sample ic) as [[t c]|e] eqn:H1.
  2: { unfold bct. by rewrite H1, <- Hc. }
  symmetry in Hc.
  destruct (construct_tau_max_inv o1 Ho1 _ _ _ _ _ _ H1) as [Hinv _].
  destruct (bct_stages o1 Ho1 s0 dmax beta sample ic t c H1)
    as (pe1 & pm1 & Hpe1 & Hlook1 & Htot1 & Hpm1 & Hspec1 & _).
  destruct (bct_stages o2 Ho2 s0 dmax beta sample ic t c Hc)
    as (pe2 & pm2 & Hpe2 & Hlook2 & Htot2 & Hpm2 & Hspec2 & _).
  assert (pe1 = pe2) as <-.
  { apply map_eq. intros u. by rewrite Hlook1, Hlook2. }
  assert (pm1 = pm2) as <-.
  { eapply pm_spec_unique; [apply Hinv|done..]. }
  unfold bct. run_stage H1. run_stage Hc. run_stage Hpe1. run_stage Hpe2.
  run_stage Hpm1. run_stage Hpm2. done.
Qed.

Lemma bct_terminates s0 dmax (beta : F) sample ic :
  bct o1 s0 dmax beta sample ic ≠ Raise OutOfFuel.
Proof.
  destruct (construct_tau_max o1 s0 dmax sample ic) as [[t c]|e] eqn:H1.
  - destruct (decide (0 ≤ dmax)) as [Hd|Hd].
    + destruct (bct_Ok o1 Ho1 s0 dmax beta sample ic t c H1 Hd)
        as (? & ? & ? & ? & _ & _ & _ & _ & _ & _ & ->). done.
    + destruct (bct_negative_depth o1 Ho1 s0 dmax beta sample ic) as [_ ->]; [lia|done].
  - pose proof (construct_tau_max_Raise o1 _ _ _ _ _ H1) as ->.
    unfold bct. by rewrite H1.
Qed.

End order.


(** C10. Let [len(initial_ctxt) >= dmax].  In the tree that
    [construct_tau_max] returns, a leaf [u] of depth below [dmax] has all its
    [m] transition counts equal to [0], so [calc_log_pe] returns [0.0] on
    it; its [log_pm] is [log(beta)], which is [log(beta) + log_pe(u)] as
    soon as adding [0.0] to [log(beta)] gives [log(beta)] back.  The call
    returns when the sample and the initial context are over the
    alphabet. *)
Theorem shallow_leaf_zero_counts `{FloatOps F} (order : gset str → list str)
    (s0 : list ascii) (dmax : Z) (beta : F) (sample ic : str) :
  valid_order order → 0 ≤ dmax ≤ Z.of_nat (length ic) →
  (Forall (λ a, a ∈ s0) ic → Forall (λ a, a ∈ s0) sample →
   ∃ t c, construct_tau_max order s0 dmax sample ic = Ok (t, c)) ∧
  ∀ t c, construct_tau_max order s0 dmax sample ic = Ok (t, c) →
    ∃ log_pe log_pm,
      log_pe_comprehension s0 c (order (nodes t)) = Ok log_pe ∧
      construct_log_pm_dict order s0 dmax beta t log_pe = Ok log_pm ∧
      ∀ u, u ∈ nodes t → u ∉ dom (edges t) → Z.of_nat (length u) < dmax →
        (∀ b, b ∈ s0 → c !! (u ++ [b]) = Some 0) ∧
        calc_log_pe s0 c u = Ok f0 ∧
        log_pe !! u = Some f0 ∧
        log_pm !! u = Some (flog beta) ∧
        (fadd (flog beta) f0 = flog beta →
         log_pm !! u = Some (fadd (flog beta) f0)).
Proof.
  intros Horder Hdepth. split.
  { intros Hctxt Hsample.
    assert (∀ a, a ∈ ic ++ sample → a ∈ s0) as Hsym.
    { rewrite Forall_forall in Hsample, Hctxt.
      intros a [?|?]%elem_of_app; auto. }
    destruct (scan_prefix_total s0 dmax sample ic Hdepth
                (Z.of_nat (length (ic ++ sample))) Hsym) as (t & c1 & Hscan); [lia|].
    eexists _, _. apply construct_tau_max_Ok. eauto. }
  intros t c Hc.
  destruct (construct_tau_max_inv order Horder _ _ _ _ _ _ Hc) as [Hinv _].
  destruct (bct_stages order Horder s0 dmax beta sample ic t c Hc)
    as (pe & pm & Hpe & Hlook & Htot & Hpm & [Hdom Hval] & Hlev).
  exists pe, pm. repeat (split; [done|]).
  intros u Hu Hleaf Hlen.
  assert (∀ b, b ∈ s0 → c !! (u ++ [b]) = Some 0) as Hzero.
  { intros b Hb. pose proof Hc as (c1 & Hscan & ->)%construct_tau_max_Ok.
    rewrite (fill_lookup_tally s0 c1 _ u b); [|by apply elem_of_valid_order|done].
    f_equal. by eapply (leaf_tally_zero order s0 dmax sample ic). }
  pose proof (calc_log_pe_zero s0 c u Hzero) as Hcalc.
  assert (pe !! u = Some f0) as Hpe_u.
  { by rewrite Hlook, decide_True, Hcalc. }
  assert (pm !! u = Some (flog beta)) as Hpm_u.
  { assert (u ∈ dom pm) as [v Hv]%elem_of_dom.
    { apply Hdom. split; [done|lia]. }
    pose proof (Hval u v Hv) as Hnv. unfold node_value in Hnv.
    rewrite decide_False in Hnv by lia.
    apply not_elem_of_dom in Hleaf. rewrite Hleaf in Hnv. by simplify_eq. }
  repeat (split; [done|]). by intros ->.
Qed.

(** C2. An iteration of the pruning loop that dequeues a node [u] with an
    entry in [edges] prunes at [u] exactly when
    [log(beta) + log_pe(u) > log(1-beta) + sum], [sum] adding the values
    [log_pm(child)] of the children of [u]; otherwise it appends the children
    to the queue.  When the two sides are equal the children are appended. *)
Theorem prune_decision `{FloatOps F} (fuel : nat) (beta : F)
    (log_pe log_pm : gmap str F) (tau : Tree) (queue : list str)
    (u : str) (children : list str) (vs : list F) (pe_u : F) :
  edges tau !! u = Some children →
  Forall2 (λ child v, log_pm !! child = Some v) children vs →
  log_pe !! u = Some pe_u →
  let stop := fadd (flog beta) pe_u in
  let split := fadd (flog (fsub (of_int 1) beta)) (fsum vs) in
  (fgt stop split = true →
   prune_loop (S fuel) beta log_pe log_pm tau (u :: queue) =
   (tau' ← prune_at_node tau u; prune_loop fuel beta log_pe log_pm tau' queue)) ∧
  (fgt stop split = false →
   prune_loop (S fuel) beta log_pe log_pm tau (u :: queue) =
   prune_loop fuel beta log_pe log_pm tau (queue ++ children)) ∧
  (stop = split →
   prune_loop (S fuel) beta log_pe log_pm tau (u :: queue) =
   prune_loop fuel beta log_pe log_pm tau (queue ++ children)).
Proof.
  intros Hu Hvs Hpe stop split.
  assert (prune_step beta log_pe log_pm tau (u :: queue) u =
          if fgt stop split
          then tau' ← prune_at_node tau u; Ok (tau', queue)
          else Ok (tau, queue ++ children)) as Hstep.
  { unfold prune_step. rewrite list_remove_first_head, Hu.
    run_stage (sum_child_Forall2 log_pm children vs Hvs).
    apply getitem_Ok in Hpe. run_stage Hpe. done. }
  cbn [prune_loop]. rewrite Hstep.
  assert (fgt stop split = false →
          prune_loop (S fuel) beta log_pe log_pm tau (u :: queue) =
          prune_loop fuel beta log_pe log_pm tau (queue ++ children)) as Hkeep.
  { intros Hgt. cbn [prune_loop]. by rewrite Hstep, Hgt. }
  split; [|split].
  - intros ->. by destruct (prune_at_node tau u).
  - intros Hgt. by rewrite Hgt.
  - intros Heq. rewrite Heq, fgt_irrefl. done.
Qed.

(** C7, as the code has it.  [bct] checks none of its parameters before it
    computes.  With [dmax = 0] it returns the root-only tree for every
    [beta], sample and initial context, whatever their symbols; with an
    empty sample and [dmax >= 1] it returns the root-only tree and
    [exp(log(beta))] for every [beta] and every initial context, also one
    shorter than [dmax]; and with [dmax < 0] the three stages and the
    pruning loop all return, and the call fails with [KeyError] at the final
    lookup of [log_pm_dict[""]]. *)
Theorem no_parameter_validation `{FloatOps F} (order : gset str → list str)
    (s0 : list ascii) (dmax : Z) (beta : F) (sample ic : str) :
  valid_order order →
  (dmax = 0 →
   ∃ c pe_root,
     construct_tau_max order s0 dmax sample ic = Ok (Tree_init s0, c) ∧
     calc_log_pe s0 c [] = Ok pe_root ∧
     bct order s0 dmax beta sample ic = Ok (Tree_init s0, fexp pe_root)) ∧
  (1 ≤ dmax → sample = [] →
   bct order s0 dmax beta sample ic = Ok (Tree_init s0, fexp (flog beta))) ∧
  (dmax < 0 →
   (∃ c pe pm,
      construct_tau_max order s0 dmax sample ic = Ok (Tree_init s0, c) ∧
      log_pe_comprehension s0 c (order (nodes (Tree_init s0))) = Ok pe ∧
      construct_log_pm_dict order s0 dmax beta (Tree_init s0) pe = Ok pm ∧
      prune_loop (loop_bound (length s0) (Z.to_nat dmax)) beta pe pm
        (Tree_init s0) [ [] ] = Ok (Tree_init s0) ∧
      pm !! [] = None) ∧
   bct order s0 dmax beta sample ic = Raise KeyError).
Proof.
  intros Horder. split; [|split].
  - intros ->.
    destruct (construct_tau_max_root order s0 0 sample ic) as [c Hc]; [left; lia|].
    destruct (bct_root_only order Horder s0 0 beta sample ic c Hc)
      as (pe_root & Hcalc & Hbct); [done|].
    exists c, pe_root. by rewrite decide_True in Hbct.
  - intros Hd ->.
    destruct (construct_tau_max_root order s0 dmax [] ic) as [c Hc]; [by right|].
    destruct (bct_root_only order Horder s0 dmax beta [] ic c Hc)
      as (pe_root & Hcalc & Hbct); [lia|].
    by rewrite decide_False in Hbct by lia.
  - by apply bct_negative_depth.
Qed.

(** C8. The result of [bct], and the tree and counter of
    [construct_tau_max], are the same under any two iteration orders of the
    sets, the only thing a run does not fix; no run loops forever, and on
    the inputs of the interface [bct] returns a tree and [pm_root]. *)
Theorem bct_deterministic `{FloatOps F} (o1 o2 : gset str → list str)
    (s0 : list ascii) (dmax : Z) (beta : F) (sample ic : str) :
  valid_order o1 → valid_order o2 →
  construct_tau_max o1 s0 dmax sample ic = construct_tau_max o2 s0 dmax sample ic ∧
  bct o1 s0 dmax beta sample ic = bct o2 s0 dmax beta sample ic ∧
  bct o1 s0 dmax beta sample ic ≠ Raise OutOfFuel ∧
  (valid_input s0 dmax sample ic →
   ∃ tau pm_root, bct o1 s0 dmax beta sample ic = Ok (tau, pm_root)).
Proof.
  intros Ho1 Ho2. split; [by apply construct_tau_max_order|].
  split; [by apply bct_order|]. split; [by apply bct_terminates|].
  intros [Hnd Hsample Hctxt Hdepth].
  assert (∀ a, a ∈ ic ++ sample → a ∈ s0) as Hsym.
  { rewrite Forall_forall in Hsample, Hctxt.
    intros a [?|?]%elem_of_app; auto. }
  destruct (scan_prefix_total s0 dmax sample ic Hdepth
              (Z.of_nat (length (ic ++ sample))) Hsym) as (t & c1 & Hscan); [lia|].
  assert (construct_tau_max o1 s0 dmax sample ic
          = Ok (t, foldl (fill_node s0) c1 (o1 (nodes t)))) as Hc.
  { apply construct_tau_max_Ok. eauto. }
  destruct (bct_Ok o1 Ho1 s0 dmax beta sample ic _ _ Hc)
    as (? & ? & tau & v & _ & _ & _ & _ & _ & _ & ->); [lia|]. eauto.
Qed.

(** C9, as the code has it.  For [dmax = 0] and a valid sample and initial
    context, [bct] returns the tree whose only node is the root, with no
    edges; the one iteration of the pruning loop finds the root without
    children and leaves the queue empty; and [pm_root] is
    [exp(log_pe(""))], where [log_pe("")] is computed from the counts
    [counter[b]] of the single symbols.  These add up to [len(sample)], the
    seeded count, but the seeded entry itself is not read: changing it
    leaves [log_pe("")] unchanged. *)
Theorem depth_zero `{FloatOps F} (order : gset str → list str)
    (s0 : list ascii) (beta : F) (sample ic : str) :
  valid_order order → valid_input s0 0 sample ic →
  let root_only := {| s := s0; nodes := {[ [] ]}; edges := ∅ |} in
  ∃ c counts pe_root,
    construct_tau_max order s0 0 sample ic = Ok (root_only, c) ∧
    bct order s0 0 beta sample ic = Ok (root_only, fexp pe_root) ∧
    (∀ log_pe log_pm,
       prune_step beta log_pe log_pm root_only [ [] ] [] = Ok (root_only, [])) ∧
    calc_log_pe s0 c [] = Ok pe_root ∧
    Forall2 (λ b n, c !! [b] = Some n) s0 counts ∧
    np_sum counts = Z.of_nat (length sample) ∧
    c !! [] = Some (Z.of_nat (length sample)) ∧
    ∀ seed, calc_log_pe s0 (<[ [] := seed ]> c) [] = Ok pe_root.
Proof.
  intros Horder Hvalid root_only. pose proof Hvalid as [Hnd Hsample Hctxt Hdepth].
  destruct (construct_tau_max_root order s0 0 sample ic) as [c Hc]; [left; lia|].
  destruct (bct_root_only order Horder s0 0 beta sample ic c Hc)
    as (pe_root & Hcalc & Hbct); [done|].
  rewrite decide_True in Hbct by done.
  destruct (transition_counts_sum order Horder s0 0 sample ic Hdepth
              (Tree_init s0) c [] Hnd Hsample Hc) as (counts & Hcounts & Hsum).
  { apply complete_root, complete_init. }
  exists c, counts, pe_root. split; [done|]. split; [done|]. split.
  { intros log_pe log_pm. unfold prune_step.
    by rewrite list_remove_first_head. }
  split; [done|]. split.
  { apply mapM'_Forall2 in Hcounts. eapply Forall2_impl; [done|].
    intros b n Hb. by apply getitem_Ok in Hb. }
  split; [|split].
  - rewrite Hsum. unfold context_count.
    rewrite filter_all.
    + unfold range. rewrite length_fmap, length_seq, length_app. lia.
    + intros i Hi%elem_of_range. simpl.
      rewrite length_app in Hi. rewrite Z.sub_0_r.
      rewrite slice_window by (rewrite ?length_app; lia).
      by rewrite Z.sub_diag.
  - apply construct_tau_max_Ok in Hc as (c1 & Hscan & ->).
    rewrite fill_lookup_nil.
    eapply (scan_prefix_root s0 0 sample ic); [done| |done]. lia.
  - intros seed. by rewrite calc_log_pe_seed.
Qed.

(** * Further properties *)

Section tree_algebra.
Implicit Types (t : Tree) (n x k c u v : str).

Lemma prune_spec_root t : complete t → prune_spec [] t = Tree_init (s t).
Proof.
  intros Hc. apply Tree_eq; simpl; [done| |].
  - intros x. rewrite elem_of_filter, elem_of_singleton. unfold below. split.
    + intros [Hb _]. destruct (decide (x = [])) as [->|Hne]; [done|].
      destruct Hb. split; [apply suffix_nil|done].
    + intros ->. split; [by intros [_ ?]|apply complete_root, Hc].
  - intros k. rewrite lookup_empty. apply map_lookup_filter_None. right.
    intros cs _ Hs. simpl in Hs. apply Hs, suffix_nil.
Qed.

Lemma prune_spec_comm t u v :
  prune_spec u (prune_spec v t) = prune_spec v (prune_spec u t).
Proof.
  apply Tree_eq; simpl; [done| |].
  - intros x. rewrite !elem_of_filter. naive_solver.
  - intros k. apply option_eq. intros cs.
    rewrite !map_lookup_filter_Some. simpl. naive_solver.
Qed.

Lemma prune_spec_absorb t u v :
  u `suffix_of` v → prune_spec u (prune_spec v t) = prune_spec u t.
Proof.
  intros Huv. apply Tree_eq; simpl; [done| |].
  - intros x. rewrite !elem_of_filter. split; [naive_solver|].
    intros [Hb Hx]. split; [done|]. split; [|done].
    intros [Hs Hne]. apply Hb. split; [by etrans|].
    intros ->. apply Hne. by apply (anti_symm suffix).
  - intros k. apply option_eq. intros cs.
    rewrite !map_lookup_filter_Some. simpl. split; [naive_solver|].
    intros [Hk Hs]. split; [|done]. split; [done|].
    intros Hv. apply Hs. by etrans.
Qed.

Lemma prune_spec_add_node t node t' :
  wf t → parent_of node ∉ dom (edges t) →
  add_node t node = Ok t' → prune_spec (parent_of node) t' = t.
Proof.
  intros Hwf Hleaf [Hp ->]%add_node_Ok. set (p := parent_of node) in *.
  apply Tree_eq; simpl; [done| |].
  - intros x. rewrite elem_of_filter, elem_of_union, elem_of_list_to_set,
      elem_of_children_of. split.
    + intros [Hb [Hx|(b & -> & _)]]; [done|].
      destruct Hb. by apply below_cons.
    + intros Hx. split; [|by left].
      intros Hb. apply Hleaf. by apply (wf_below_dom t p x).
  - intros k. apply option_eq. intros cs.
    rewrite map_lookup_filter_Some, lookup_insert_Some. simpl. split.
    + intros [[[<- _]|[_ Hk]] Hs]; [by destruct Hs|done].
    + intros Hk. assert (¬ p `suffix_of` k) as Hs.
      { intros Hs. apply Hleaf. apply (wf_suffix_dom t p k); [done| |done].
        apply elem_of_dom. eauto. }
      split; [|done]. right. split; [|done]. intros <-. by apply Hs.
Qed.

End tree_algebra.

Section tree_count.
Implicit Types (t : Tree) (n x k c u v : str).

Lemma size_child_set (s0 : list ascii) k : NoDup s0 → size (child_set s0 k) = length s0.
Proof.
  intros Hnd. unfold child_set. rewrite size_list_to_set.
  - unfold children_of. by rewrite length_fmap.
  - apply NoDup_fmap_2; [|done]. by intros ?? [= ->].
Qed.

Lemma size_set_bind_children (s0 : list ascii) (K : gset str) :
  NoDup s0 → size (set_bind (child_set s0) K : gset str) = (length s0 * size K)%nat.
Proof.
  intros Hnd. induction K as [|k K Hk IH] using set_ind_L.
  - rewrite size_empty.
    assert (set_bind (child_set s0) (∅ : gset str) = (∅ : gset str)) as ->.
    { apply set_eq. intros x. rewrite elem_of_set_bind. set_solver. }
    rewrite size_empty. lia.
  - assert (set_bind (child_set s0) ({[k]} ∪ K) =
            child_set s0 k ∪ (set_bind (child_set s0) K : gset str)) as ->.
    { apply set_eq. intros x. rewrite elem_of_union, !elem_of_set_bind.
      set_solver. }
    rewrite size_union.
    + rewrite size_union by set_solver.
      rewrite size_child_set, IH, size_singleton by done. lia.
    + intros x Hx (k' & Hk' & Hx')%elem_of_set_bind.
      unfold child_set in Hx, Hx'.
      apply elem_of_list_to_set, elem_of_children_of in Hx as (b & -> & _).
      apply elem_of_list_to_set, elem_of_children_of in Hx' as (b' & [= _ ->] & _).
      done.
Qed.

Lemma complete_nodes_children t :
  complete t →
  nodes t = {[ [] ]} ∪ set_bind (child_set (s t)) (dom (edges t)).
Proof.
  intros [Hwf Hch Hroot]. apply set_eq. intros x.
  rewrite elem_of_union, elem_of_singleton, elem_of_set_bind. split.
  - intros Hx. destruct x as [|b w]; [by left|]. right.
    apply (wf_parent _ Hwf) in Hx as [Hd Hb]. exists w. split; [done|].
    apply elem_of_list_to_set, elem_of_children_of. eauto.
  - intros [->|(k & Hk & Hx)]; [done|].
    apply elem_of_list_to_set, elem_of_children_of in Hx as (b & -> & Hb).
    by apply Hch.
Qed.

Lemma complete_size_nodes t :
  complete t → NoDup (s t) →
  size (nodes t) = S (length (s t) * size (dom (edges t))).
Proof.
  intros Hc Hnd. rewrite (complete_nodes_children t Hc) at 1.
  rewrite size_union.
  - by rewrite size_singleton, size_set_bind_children.
  - intros x ->%elem_of_singleton (k & _ & Hx)%elem_of_set_bind.
    by apply elem_of_list_to_set, elem_of_children_of in Hx as (b & ? & _).
Qed.

Lemma wf_nodes_alphabet t x : wf t → x ∈ nodes t → Forall (λ a, a ∈ s t) x.
Proof.
  intros Hwf. induction x as [|b x IH]; intros Hx; [done|].
  apply (wf_parent _ Hwf) in Hx as [Hd Hb]. constructor; [done|].
  by apply IH, (wf_keys _ Hwf).
Qed.

End tree_count.

(** X1. [prune_at_node("")] on a tree built by the class returns the tree
    of the constructor: the root is the only node left and [edges] is
    empty. *)
Theorem prune_at_root_resets (s0 : list ascii) (t : Tree) :
  reachable s0 t → prune_at_node t [] = Ok (Tree_init s0).
Proof.
  intros [Hc <-]%reachable_complete.
  rewrite prune_at_node_spec by apply Hc. by rewrite prune_spec_root.
Qed.

(** X2. On a tree built by the class, let the parent [node[1:]] of
    [node] be a leaf.  Then [add_node(node)] returns, and [prune_at_node]
    at that parent gives the tree of before back: the two calls undo each
    other. *)
Theorem add_node_prune_round_trip (s0 : list ascii) (t : Tree) (node : str) :
  reachable s0 t →
  parent_of node ∈ nodes t → parent_of node ∉ dom (edges t) →
  ∃ t', add_node t node = Ok t' ∧ prune_at_node t' (parent_of node) = Ok t.
Proof.
  intros [Hc _]%reachable_complete Hp Hleaf.
  destruct (add_node t node) as [t'|e] eqn:Hadd.
  2: { unfold add_node in Hadd. fold (parent_of node) in Hadd.
       by rewrite decide_True in Hadd. }
  exists t'. split; [done|].
  rewrite prune_at_node_spec by (eapply complete_wf, complete_add_node; done).
  f_equal. eapply prune_spec_add_node; [apply Hc|done..].
Qed.

(** X3. On a tree built by the class, two calls of [prune_at_node] give
    the same tree in either order; a second call at the same node changes
    nothing; and after pruning at [u], pruning at a node [v] that [u] is a
    suffix of (a node at or under [u]) changes nothing either. *)
Theorem prune_at_node_compose (s0 : list ascii) (t : Tree) (u v : str) :
  reachable s0 t →
  ∃ tu tv tuv,
    prune_at_node t u = Ok tu ∧ prune_at_node t v = Ok tv ∧
    prune_at_node tu v = Ok tuv ∧ prune_at_node tv u = Ok tuv ∧
    prune_at_node tu u = Ok tu ∧
    (u `suffix_of` v → tuv = tu).
Proof.
  intros [Hc _]%reachable_complete.
  exists (prune_spec u t), (prune_spec v t), (prune_spec v (prune_spec u t)).
  rewrite !prune_at_node_spec by (try apply complete_prune_spec; apply Hc).
  split; [done|]. split; [done|]. split; [done|].
  split; [by rewrite prune_spec_comm|]. split.
  - f_equal. by apply prune_spec_absorb.
  - intros Huv. rewrite prune_spec_comm. by apply prune_spec_absorb.
Qed.

(** X4. In a tree built by the class over an alphabet that is not empty,
    the nodes that are not keys of [edges] are exactly the nodes without
    children, as the docstring of the class says of the leaves: a node [u]
    is a key of [edges] if and only if some [b + u] is a node.  Moreover
    every node is a string over the alphabet; every key of [edges] is a
    node and has all its children [b + key] among the nodes; and a node
    [b + u] has its parent [u] among the keys of [edges]. *)
Theorem leaves_are_nodes_without_edges (s0 : list ascii) (t : Tree) :
  s0 ≠ [] → reachable s0 t →
  (∀ u, u ∈ nodes t → (u ∉ dom (edges t) ↔ ∀ b, b :: u ∉ nodes t)) ∧
  (∀ x, x ∈ nodes t → Forall (λ a, a ∈ s0) x) ∧
  (∀ u, u ∈ dom (edges t) → u ∈ nodes t ∧ ∀ b, b ∈ s0 → b :: u ∈ nodes t) ∧
  (∀ u b, b :: u ∈ nodes t → u ∈ dom (edges t) ∧ b ∈ s0).
Proof.
  intros Hne [[Hwf Hch Hroot] <-]%reachable_complete. split; [|split; [|split]].
  - intros u _. split.
    + intros Hleaf b Hb. by apply (wf_parent _ Hwf) in Hb as [? _].
    + intros Hnone Hkey.
      assert (∃ b, b ∈ s t) as [b Hb].
      { destruct (s t) as [|b s']; [done|]. exists b. by left. }
      apply (Hnone b). by apply Hch.
  - intros x. by apply wf_nodes_alphabet.
  - intros u Hu. split; [by apply (wf_keys _ Hwf)|]. intros b. by apply Hch.
  - intros u b. by apply (wf_parent _ Hwf).
Qed.

(** X5. A tree built by the class over an alphabet of [m] distinct
    symbols has [1 + m * len(edges)] nodes. *)
Theorem node_count (s0 : list ascii) (t : Tree) :
  reachable s0 t → NoDup s0 →
  size (nodes t) = S (length s0 * size (dom (edges t))).
Proof.
  intros [Hc <-]%reachable_complete Hnd. by apply complete_size_nodes.
Qed.

(** X6. When [add_node(node)] returns, it returns the same tree for
    every [node'] with the same parent [node'[1:]], and a second call
    changes nothing.  The nodes of the result are the old ones and the
    strings [b + node[1:]] for [b] in the alphabet: [node] itself is among
    them only if it was a node before or its first symbol is in the
    alphabet.  No entry of [edges] other than the parent's is touched. *)
Theorem add_node_siblings (t : Tree) (node : str) (t' : Tree) :
  add_node t node = Ok t' →
  (∀ node', parent_of node' = parent_of node → add_node t node' = Ok t') ∧
  add_node t' node = Ok t' ∧
  (∀ x, x ∈ nodes t' ↔ x ∈ nodes t ∨ ∃ b, b ∈ s t ∧ x = b :: parent_of node) ∧
  (node ∈ nodes t' ↔ node ∈ nodes t ∨ ∃ b w, node = b :: w ∧ b ∈ s t) ∧
  (∀ k, k ≠ parent_of node → edges t' !! k = edges t !! k).
Proof.
  intros [Hp ->]%add_node_Ok. set (p := parent_of node) in *.
  assert (∀ x, x ∈ nodes t ∪ list_to_set (children_of (s t) p) ↔
               x ∈ nodes t ∨ ∃ b, b ∈ s t ∧ x = b :: p) as Hin.
  { intros x. rewrite elem_of_union, elem_of_list_to_set, elem_of_children_of.
    naive_solver. }
  split; [|split; [|split; [|split]]].
  - intros node' Hnode'. apply add_node_Ok. by rewrite Hnode'.
  - apply add_node_Ok. simpl. fold p. split; [apply elem_of_union; by left|].
    f_equal.
    + apply set_eq. intros x. set_solver.
    + by rewrite insert_insert_eq.
  - done.
  - simpl. rewrite Hin. split.
    + intros [?|(b & Hb & Hnode)]; [by left|]. right. eauto.
    + intros [?|(b & w & Hnode & Hb)]; [by left|]. right. exists b.
      split; [done|]. unfold p. by rewrite Hnode, parent_of_cons.
  - intros k Hk. simpl. by rewrite lookup_insert_ne.
Qed.

Section scan_keys.
Variables (s0 : list ascii) (dmax : Z) (joint : str).
Implicit Types (t : Tree) (c : gmap str Z) (i j : Z).

(** The keys of [edges] after one step of the inner loop. *)
Lemma scan_depth_new_key cur t c j t' c' k :
  scan_depth cur (t, c) j = Ok (t', c') → k ∈ dom (edges t') →
  k ∈ dom (edges t) ∨
  1 ≤ j ∧ k = parent_of (slice None (Some (-1)) (slice (Some (- j - 1)) None cur)).
Proof.
  unfold scan_depth. intros (t1 & Ht1 & [= <- <-])%bind_Ok.
  case_decide as Hcase; [|by injection Ht1 as <-; left].
  apply add_node_Ok in Ht1 as [_ ->]. simpl.
  rewrite dom_insert_L, elem_of_union, elem_of_singleton.
  intros [->|?]; [right|by left]. split; [apply Hcase|done].
Qed.

Lemma scan_position_new_key i t c t' c' k :
  0 ≤ dmax ≤ i → i < Z.of_nat (length joint) →
  scan_position dmax joint (t, c) i = Ok (t', c') → k ∈ dom (edges t') →
  k ∈ dom (edges t) ∨ ctx joint i (length k) = k ∧ Z.of_nat (length k) < dmax.
Proof.
  intros Hd Hi Hscan. unfold scan_position in Hscan. revert Hscan k.
  apply (foldM_ind (λ _ st, ∀ k, k ∈ dom (edges st.1) →
    k ∈ dom (edges t) ∨ ctx joint i (length k) = k ∧ Z.of_nat (length k) < dmax));
    [by left|].
  intros _ j [t1 c1] [t2 c2] IH Hj%elem_of_range Hstep k Hk. simpl in *.
  destruct (scan_depth_new_key _ _ _ _ _ _ _ Hstep Hk) as [Hold|[Hj1 ->]];
    [by apply IH|]. right.
  rewrite past_ctx by lia.
  destruct (ctx_S joint i (Z.to_nat j - 1)) as (x & _ & Hcons); [lia|].
  replace (S (Z.to_nat j - 1)) with (Z.to_nat j) in Hcons by lia.
  rewrite Hcons, parent_of_cons. rewrite ctx_length by lia. split; [done|lia].
Qed.

Lemma scan_positions_new_key lo hi t c t' c' k :
  0 ≤ dmax ≤ lo → hi ≤ Z.of_nat (length joint) →
  foldM (scan_position dmax joint) (t, c) (range lo hi) = Ok (t', c') →
  k ∈ dom (edges t') →
  k ∈ dom (edges t) ∨
  Z.of_nat (length k) < dmax ∧ ∃ i, lo ≤ i < hi ∧ ctx joint i (length k) = k.
Proof.
  intros Hlo Hhi Hscan. revert Hscan k.
  apply (foldM_ind (λ _ st, ∀ k, k ∈ dom (edges st.1) →
    k ∈ dom (edges t) ∨
    Z.of_nat (length k) < dmax ∧ ∃ i, lo ≤ i < hi ∧ ctx joint i (length k) = k));
    [by left|].
  intros _ i [t1 c1] [t2 c2] IH Hi%elem_of_range Hstep k Hk. simpl in *.
  destruct (scan_position_new_key i t1 c1 t2 c2 k) as [Hold|[Hctx Hlen]];
    [lia|lia|done|done|by apply IH|].
  right. split; [done|]. by exists i.
Qed.

(** The keys of the counter are no longer than [dmax + 1]. *)
Lemma scan_depth_counter_keys cur t c j t' c' w :
  0 ≤ j ≤ dmax →
  scan_depth cur (t, c) j = Ok (t', c') → w ∈ dom c' →
  w ∈ dom c ∨ Z.of_nat (length w) ≤ dmax + 1.
Proof.
  intros Hj. unfold scan_depth. intros (t1 & _ & [= <- <-])%bind_Ok.
  unfold count_up.
  destruct (c !! _); rewrite dom_insert_L, elem_of_union, elem_of_singleton;
    (intros [->|?]; [right|by left]).
  all: pose proof (length_slice_last j cur ltac:(lia)) as Hl; lia.
Qed.

Lemma scan_positions_counter_keys ps t c t' c' w :
  foldM (scan_position dmax joint) (t, c) ps = Ok (t', c') → w ∈ dom c' →
  w ∈ dom c ∨ Z.of_nat (length w) ≤ dmax + 1.
Proof.
  intros Hscan. revert Hscan w.
  apply (foldM_ind (λ _ st, ∀ w, w ∈ dom st.2 →
    w ∈ dom c ∨ Z.of_nat (length w) ≤ dmax + 1)); [by left|].
  intros _ i [t1 c1] [t2 c2] IH _ Hstep. simpl in *.
  unfold scan_position in Hstep. revert Hstep.
  apply (foldM_ind (λ _ st, ∀ w, w ∈ dom st.2 →
    w ∈ dom c ∨ Z.of_nat (length w) ≤ dmax + 1)); [done|].
  intros _ j [t3 c3] [t4 c4] IH' Hj%elem_of_range Hstep w Hw. simpl in *.
  assert (0 ≤ j ≤ dmax) as Hj' by lia.
  destruct (scan_depth_counter_keys _ _ _ _ _ _ _ Hj' Hstep Hw); auto.
Qed.

End scan_keys.

Section construct_tau_max_contents.
Variable order : gset str → list str.
Hypothesis Horder : valid_order order.
Variables (s0 : list ascii) (dmax : Z) (sample ic : str).
Hypothesis Hdepth : 0 ≤ dmax ≤ Z.of_nat (length ic).
Implicit Types (u w : str) (i : Z).

Lemma internal_nodes_observed t c u :
  construct_tau_max order s0 dmax sample ic = Ok (t, c) →
  u ∈ dom (edges t) ↔
  Z.of_nat (length u) < dmax ∧
  ∃ i, Z.of_nat (length ic) ≤ i < Z.of_nat (length (ic ++ sample)) ∧
       slice (Some (i - Z.of_nat (length u))) (Some i) (ic ++ sample) = u.
Proof.
  intros Hc. split.
  - pose proof Hc as (c1 & Hscan & ->)%construct_tau_max_Ok. intros Hu.
    destruct (scan_positions_new_key dmax (ic ++ sample)
                (Z.of_nat (length ic)) (Z.of_nat (length (ic ++ sample)))
                _ _ _ _ u ltac:(lia) ltac:(lia) Hscan Hu)
      as [Hold|(Hlen & i & Hi & Hctx)].
    { simpl in Hold. by rewrite dom_empty_L in Hold. }
    split; [done|]. exists i. split; [done|].
    rewrite (slice_ctx dmax sample ic Hdepth); [done|done|lia].
  - intros (Hlen & i & Hi & Hctx).
    rewrite (slice_ctx dmax sample ic Hdepth) in Hctx; [|done|lia].
    by eapply (observed_context_internal order s0 dmax sample ic Hdepth).
Qed.

Lemma window_win w i :
  w ≠ [] → Z.of_nat (length w) ≤ dmax + 1 →
  Z.of_nat (length ic) ≤ i < Z.of_nat (length (ic ++ sample)) →
  slice (Some (i + 1 - Z.of_nat (length w))) (Some (i + 1)) (ic ++ sample)
  = win (ic ++ sample) i (length w - 1).
Proof.
  intros Hw Hlen Hi. destruct w as [|a w]; [done|]. simpl length in *.
  rewrite slice_window by lia. unfold win. f_equal; [lia|]. f_equal. lia.
Qed.

Lemma counter_entries t c w v :
  construct_tau_max order s0 dmax sample ic = Ok (t, c) →
  c !! w = Some v → w ≠ [] →
  Z.of_nat (length w) ≤ dmax + 1 ∧
  v = window_count (ic ++ sample) (Z.of_nat (length ic))
        (Z.of_nat (length (ic ++ sample))) w.
Proof.
  intros Hc Hv Hw.
  pose proof (construct_tau_max_inv order Horder _ _ _ _ _ _ Hc) as [Hinv _].
  apply construct_tau_max_Ok in Hc as (c1 & Hscan & ->).
  rewrite foldl_fill_node_lookup in Hv.
  assert (Z.of_nat (length w) ≤ dmax + 1) as Hlen.
  { destruct (c1 !! w) as [v1|] eqn:Hw1.
    - destruct (scan_positions_counter_keys dmax (ic ++ sample) _ _ _ _ _ w Hscan)
        as [Hold|?]; [by apply elem_of_dom|..|done].
      apply elem_of_dom in Hold as [? Hold].
      apply lookup_singleton_Some in Hold as [<- _]. done.
    - case_decide as Htr; [|done].
      apply elem_of_transitions in Htr as (u & b & Hu & _ & ->).
      apply (elem_of_valid_order order) in Hu; [|done].
      pose proof (scan_depth_nodes _ _ _ Hinv u Hu).
      rewrite length_app. simpl. lia. }
  split; [done|].
  assert (v = tally c1 w) as ->.
  { unfold tally. destruct (c1 !! w); [by simplify_eq|].
    case_decide; by simplify_eq. }
  apply (scan_positions_tally s0) in Hscan as [_ Htally];
    [|lia|done|apply scan_inv_init].
  rewrite Htally by done. unfold tally at 1.
  rewrite lookup_singleton_ne by done. simpl. unfold window_count.
  rewrite Z.add_0_l. do 2 f_equal.
  apply list_filter_iff_in. intros i Hi%elem_of_range.
  by rewrite window_win.
Qed.

End construct_tau_max_contents.

Section scan_errors.
Variables (s0 : list ascii) (dmax : Z) (joint : str).
Implicit Types (t : Tree) (c : gmap str Z) (i j : Z).

Lemma scan_position_Raise st i e :
  scan_position dmax joint st i = Raise e → e = AssertionError.
Proof.
  unfold scan_position. intros ([t2 c2] & j & _ & Hdepth)%foldM_Raise.
  unfold scan_depth, add_node in Hdepth.
  repeat case_decide; simplify_eq/=; done.
Qed.

Lemma scan_positions_Raise st ps e :
  foldM (scan_position dmax joint) st ps = Raise e → e = AssertionError.
Proof.
  intros (st' & i & _ & Hpos)%foldM_Raise. by eapply scan_position_Raise.
Qed.

Lemma complete_not_over_alphabet t x a :
  complete t → s t = s0 → a ∈ x → a ∉ s0 → x ∉ nodes t.
Proof.
  intros Hc Hs Ha Hns Hx.
  pose proof (wf_nodes_alphabet t x (complete_wf _ Hc) Hx) as Hall.
  rewrite Forall_forall in Hall. apply Hns. rewrite <- Hs. by apply Hall.
Qed.

(** A position that follows a symbol outside the alphabet. *)
Lemma scan_position_bad_symbol t c i a :
  scan_inv s0 dmax t → 2 ≤ dmax ≤ i → i < Z.of_nat (length joint) →
  joint !! Z.to_nat (i - 1) = Some a → a ∉ s0 →
  scan_position dmax joint (t, c) i = Raise AssertionError.
Proof.
  intros Hinv Hd Hi Ha Hns. unfold scan_position.
  rewrite (range_cons 0), (range_cons (0 + 1)), (range_cons (0 + 1 + 1)) by lia.
  cbn [foldM].
  destruct (scan_depth_valid dmax joint i 0 t c) as (x0 & _ & ->); [lia..|].
  rewrite decide_False by lia. cbn [mbind result_bind].
  destruct (ctx_S joint i 0) as (x1 & Hx1 & Hc1); [lia|].
  replace (Z.to_nat i - 1)%nat with (Z.to_nat (i - 1)) in Hx1 by lia.
  rewrite Ha in Hx1. injection Hx1 as <-. rewrite ctx_0 in Hc1.
  destruct (ctx_S joint i 1) as (x2 & _ & Hc2); [lia|]. rewrite Hc1 in Hc2.
  match goal with |- context [scan_depth ?cur (t, ?c1) (0 + 1)] =>
    destruct (scan_depth_valid dmax joint i (0 + 1) t c1) as (y1 & _ & ->);
      [lia..|] end.
  change (Z.to_nat (0 + 1)) with 1%nat. rewrite Hc1.
  assert ([a] ∉ nodes t) as Hnin.
  { eapply complete_not_over_alphabet; [apply Hinv|apply Hinv| |done]. by left. }
  rewrite decide_True by (split; [lia|done]).
  destruct (add_node t [a]) as [t2|e] eqn:Hadd.
  2: { unfold add_node in Hadd. rewrite slice_tail in Hadd. simpl in Hadd.
       rewrite decide_True in Hadd; [done|]. apply complete_root, Hinv. }
  cbn [mbind result_bind].
  assert (complete t2) as Hc2' by (eapply complete_add_node; [apply Hinv|done]).
  assert (s t2 = s0) as Hs2.
  { apply add_node_Ok in Hadd as [_ ->]. apply Hinv. }
  match goal with |- context [scan_depth ?cur (t2, ?c1) (0 + 1 + 1)] =>
    destruct (scan_depth_valid dmax joint i (0 + 1 + 1) t2 c1) as (y2 & _ & ->);
      [lia..|] end.
  change (Z.to_nat (0 + 1 + 1)) with 2%nat. rewrite Hc2.
  rewrite decide_True.
  2: { split; [lia|]. eapply complete_not_over_alphabet; [done..| |done].
       right. by left. }
  unfold add_node. rewrite slice_tail. simpl.
  rewrite decide_False; [done|].
  eapply complete_not_over_alphabet; [done..| |done]. by left.
Qed.

Lemma scan_position_depth_one t c i :
  dmax ≤ 1 → scan_inv s0 dmax t →
  ∃ t' c', scan_position dmax joint (t, c) i = Ok (t', c') ∧ scan_inv s0 dmax t'.
Proof.
  intros Hd Hinv. destruct (decide (dmax ≤ 0)) as [H0|H0].
  { destruct (scan_position_shallow dmax joint t c i H0) as [c' ->]. eauto. }
  assert (dmax = 1) as -> by lia. unfold scan_position.
  change (range 0 (1 + 1)) with [0; 1]. cbn [foldM].
  unfold scan_depth at 2. rewrite decide_False by lia. cbn [mbind result_bind].
  match goal with |- context [scan_depth ?cur ?st 1] =>
    destruct (scan_depth cur st 1) as [[t' c']|e] eqn:Hstep end.
  - cbn [mbind result_bind]. exists t', c'. split; [done|].
    by eapply scan_depth_inv in Hstep as [? _].
  - exfalso. unfold scan_depth in Hstep.
    match type of Hstep with context [add_node t ?p] => set (past := p) in * end.
    case_decide as Hcase; [|done].
    assert (parent_of past ∈ nodes t) as Hp.
    { assert (length past ≤ 1)%nat as Hlen.
      { unfold past. rewrite length_slice_init.
        pose proof (length_slice_last 1 (slice (Some (i - 1)) (Some (i + 1)) joint)
                      ltac:(lia)). simpl in *. lia. }
      destruct past as [|x [|y past']]; [| |simpl in Hlen; lia].
      - rewrite parent_of_nil. apply complete_root, Hinv.
      - rewrite parent_of_cons. apply complete_root, Hinv. }
    unfold add_node in Hstep. fold (parent_of past) in Hstep.
    by rewrite decide_True in Hstep.
Qed.

End scan_errors.

(** X7. Let [len(initial_ctxt) >= dmax >= 0].  In the tree that
    [construct_tau_max] returns, the keys of [edges] are exactly the
    strings [u] shorter than [dmax] that occur as a context:
    [joint_sample[i-len(u):i] = u] at some scanned position [i].  The nodes
    are the root and the children [b + u] of those keys, [b] in the
    alphabet. *)
Theorem maximal_tree_internal_nodes (order : gset str → list str)
    (s0 : list ascii) (dmax : Z) (sample ic : str) (t : Tree) (c : gmap str Z) :
  0 ≤ dmax ≤ Z.of_nat (length ic) →
  construct_tau_max order s0 dmax sample ic = Ok (t, c) →
  let joint := ic ++ sample in
  (∀ u, u ∈ dom (edges t) ↔
     Z.of_nat (length u) < dmax ∧
     ∃ i, Z.of_nat (length ic) ≤ i < Z.of_nat (length joint) ∧
          slice (Some (i - Z.of_nat (length u))) (Some i) joint = u) ∧
  (∀ x, x ∈ nodes t ↔
     x = [] ∨ ∃ b u, x = b :: u ∧ b ∈ s0 ∧ u ∈ dom (edges t)).
Proof.
  intros Hdepth Hc. simpl. split.
  - intros u. exact (internal_nodes_observed order s0 dmax sample ic Hdepth t c u Hc).
  - apply construct_tau_max_Ok in Hc as (c1 & Hscan & _).
    apply (scan_inv_positions s0) in Hscan as [[[Hwf Hch Hroot] Hs _ _] _];
      [|apply scan_inv_init].
    intros x. split.
    + destruct x as [|b u]; [by left|]. intros Hx. right.
      apply (wf_parent _ Hwf) in Hx as [? ?]. exists b, u. by rewrite <- Hs.
    + intros [->|(b & u & -> & Hb & Hu)]; [done|]. apply Hch; [done|].
      by rewrite Hs.
Qed.

(** X8. Let [len(initial_ctxt) >= dmax >= 0].  In the counter that
    [construct_tau_max] returns, every key other than the empty string has
    at most [dmax + 1] symbols and its value is the number of scanned
    positions [i] with [joint_sample[i+1-len(w):i+1] = w]; and for every
    node [u] and symbol [b] of the alphabet the entry [counter[u+b]] is
    there, with that number. *)
Theorem counter_counts_windows (order : gset str → list str)
    (s0 : list ascii) (dmax : Z) (sample ic : str) (t : Tree) (c : gmap str Z) :
  valid_order order → 0 ≤ dmax ≤ Z.of_nat (length ic) →
  construct_tau_max order s0 dmax sample ic = Ok (t, c) →
  let joint := ic ++ sample in
  (∀ w v, c !! w = Some v → w ≠ [] →
     Z.of_nat (length w) ≤ dmax + 1 ∧
     v = window_count joint (Z.of_nat (length ic)) (Z.of_nat (length joint)) w) ∧
  (∀ u b, u ∈ nodes t → b ∈ s0 →
     c !! (u ++ [b]) =
     Some (window_count joint (Z.of_nat (length ic)) (Z.of_nat (length joint))
             (u ++ [b]))).
Proof.
  intros Horder Hdepth Hc. simpl.
  assert (∀ w v, c !! w = Some v → w ≠ [] →
     Z.of_nat (length w) ≤ dmax + 1 ∧
     v = window_count (ic ++ sample) (Z.of_nat (length ic))
           (Z.of_nat (length (ic ++ sample))) w) as Hentries.
  { intros w v. by eapply counter_entries. }
  split; [done|]. intros u b Hu Hb.
  destruct (construct_tau_max_inv order Horder _ _ _ _ _ _ Hc) as [_ Hfull].
  destruct (Hfull u b Hu Hb) as [v Hv]. rewrite Hv. f_equal.
  apply (Hentries _ _ Hv). by destruct u.
Qed.

(** X9. Let [len(initial_ctxt) >= dmax >= 2].  If the symbol before some
    scanned position (the last symbol of the initial context, or a symbol
    of the sample other than its last) is not in the alphabet, then
    [construct_tau_max], and [bct] with it, raise [AssertionError]: the
    assertion of [add_node] fails. *)
Theorem out_of_alphabet_assertion `{FloatOps F} (order : gset str → list str)
    (s0 : list ascii) (dmax : Z) (beta : F) (sample ic : str) (i : Z) (a : ascii) :
  2 ≤ dmax ≤ Z.of_nat (length ic) →
  Z.of_nat (length ic) ≤ i < Z.of_nat (length (ic ++ sample)) →
  (ic ++ sample) !! Z.to_nat (i - 1) = Some a → a ∉ s0 →
  construct_tau_max order s0 dmax sample ic = Raise AssertionError ∧
  bct order s0 dmax beta sample ic = Raise AssertionError.
Proof.
  intros Hd Hi Ha Hns.
  assert (construct_tau_max order s0 dmax sample ic = Raise AssertionError) as Hc.
  2: { split; [done|]. unfold bct. by rewrite Hc. }
  unfold construct_tau_max.
  rewrite (range_app _ i) by lia. rewrite (range_cons i) by lia.
  rewrite foldM_app.
  destruct (foldM _ _ (range _ i)) as [[t1 c1]|e] eqn:Hpre.
  2: { apply scan_positions_Raise in Hpre as ->. done. }
  cbn [mbind result_bind foldM].
  apply (scan_inv_positions s0) in Hpre as [Hinv _]; [|apply scan_inv_init].
  rewrite (scan_position_bad_symbol s0 dmax _ t1 c1 i a); [done..|lia|lia|done|done].
Qed.

(** X10. With [dmax <= 1], [construct_tau_max] returns on every sample
    and initial context, whatever their symbols and lengths; with [dmax] 0
    or 1 so does [bct]. *)
Theorem shallow_depth_accepts_any_symbol `{FloatOps F}
    (order : gset str → list str)
    (s0 : list ascii) (dmax : Z) (beta : F) (sample ic : str) :
  valid_order order → dmax ≤ 1 →
  (∃ t c, construct_tau_max order s0 dmax sample ic = Ok (t, c)) ∧
  (0 ≤ dmax → ∃ tau pm_root, bct order s0 dmax beta sample ic = Ok (tau, pm_root)).
Proof.
  intros Horder Hd.
  assert (∃ t c, construct_tau_max order s0 dmax sample ic = Ok (t, c))
    as (t & c & Hc).
  { destruct (foldM_invariant (λ st, scan_inv s0 dmax st.1)
                (scan_position dmax (ic ++ sample))
                (Tree_init s0, {[ [] := Z.of_nat (length sample) ]})
                (range (Z.of_nat (length ic)) (Z.of_nat (length (ic ++ sample)))))
      as ([t c1] & Hrun & _); [apply scan_inv_init| |].
    - intros [t1 c1] i Hinv1 _. simpl in Hinv1.
      destruct (scan_position_depth_one s0 dmax (ic ++ sample) t1 c1 i Hd Hinv1)
        as (t2 & c2 & ? & ?).
      by exists (t2, c2).
    - eexists _, _. apply construct_tau_max_Ok. eauto. }
  split; [eauto|]. intros H0.
  destruct (bct_Ok order Horder s0 dmax beta sample ic t c Hc H0)
    as (pe & pm & tau & v & _ & _ & _ & _ & _ & _ & Hbct).
  eauto.
Qed.

Lemma suffix_cons_inv' {A} (l1 l2 : list A) (y : A) :
  l1 `suffix_of` y :: l2 → l1 = y :: l2 ∨ l1 `suffix_of` l2.
Proof.
  destruct l1 as [|x l1]; [intros _; right; apply suffix_nil|].
  apply suffix_cons_inv.
Qed.

Section map_tree.
Context `{FloatOps F}.
Variables (s0 : list ascii) (dmax : Z) (beta : F) (t : Tree) (pe pm : gmap str F).
Hypothesis Hinv : scan_inv s0 dmax t.
Hypothesis Hpe : ∀ u, u ∈ nodes t → is_Some (pe !! u).
Hypothesis Hpm : pm_spec dmax beta t pe 0 pm.
Implicit Types (tau : Tree) (u q node : str) (queue : list str).

Lemma loop_inv_edges tau k cs :
  loop_inv s0 t tau → edges tau !! k = Some cs → edges t !! k = Some cs.
Proof.
  intros [Hc Hs Hn Hk] Hcs.
  assert (k ∈ dom (edges t)) as [cs' Hcs']%elem_of_dom.
  { apply Hk, elem_of_dom. eauto. }
  rewrite Hcs'. f_equal.
  rewrite (wf_shape _ (complete_wf _ Hc) _ _ Hcs).
  rewrite (wf_shape _ (complete_wf _ (scan_complete _ _ _ Hinv)) _ _ Hcs').
  by rewrite Hs, (scan_alphabet _ _ _ Hinv).
Qed.

(** One iteration, in terms of the comparison on the maximal tree. *)
Lemma prune_step_prunes tau node queue :
  loop_inv s0 t tau →
  prune_step beta pe pm tau (node :: queue) node =
  Ok (if decide (node ∈ dom (edges tau)) then
        if prunes beta t pe pm node then (prune_spec node tau, queue)
        else (tau, queue ++ children_of s0 node)
      else (tau, queue)).
Proof.
  intros Hl. pose proof Hl as [Hc Hs Hn Hk].
  unfold prune_step. rewrite list_remove_first_head.
  destruct (edges tau !! node) as [cs|] eqn:Hnode.
  2: { rewrite decide_False; [done|]. by apply not_elem_of_dom. }
  assert (node ∈ dom (edges tau)) as Hd by (apply elem_of_dom; eauto).
  rewrite decide_True by done.
  unfold prunes. rewrite (loop_inv_edges tau node cs Hl Hnode).
  pose proof (wf_shape _ (complete_wf _ Hc) _ _ Hnode) as ->. rewrite Hs.
  destruct (sum_child_total pm (children_of s0 node)) as [sum Hsum].
  { intros x (b & -> & Hb)%elem_of_children_of.
    apply elem_of_dom, Hpm.
    assert (b :: node ∈ nodes t) as Hin.
    { apply Hn, (complete_children _ Hc); [done|by rewrite Hs]. }
    split; [done|]. pose proof (scan_depth_keys _ _ _ Hinv _ (Hk _ Hd)).
    simpl length. lia. }
  rewrite Hsum. simpl.
  destruct (Hpe node) as [pn Hpn].
  { apply Hn, (wf_keys _ (complete_wf _ Hc)), Hd. }
  apply getitem_Ok in Hpn. rewrite Hpn. simpl.
  destruct (fgt _ _); [|done].
  by rewrite prune_at_node_spec by apply Hc.
Qed.

Lemma kept_child q b :
  kept beta t pe pm q → prunes beta t pe pm q = false →
  kept beta t pe pm (b :: q).
Proof.
  intros Hq Hp a [Hs Hne]. apply suffix_cons_inv' in Hs as [->|Hs]; [done|].
  destruct (decide (a = q)) as [->|Hne']; [done|]. by apply Hq.
Qed.

Lemma map_inv_init : map_inv s0 beta t pe pm t [ [] ].
Proof.
  split.
  - by eapply loop_inv_refl.
  - intros q ->%list_elem_of_singleton. split; [apply complete_root, Hinv|].
    intros a [Hs Hne]. apply suffix_nil_inv in Hs. congruence.
  - done.
  - done.
  - intros u _. right. exists []. split; [by left|apply suffix_nil].
Qed.

Lemma map_inv_step tau node queue tau' queue' :
  map_inv s0 beta t pe pm tau (node :: queue) →
  prune_step beta pe pm tau (node :: queue) node = Ok (tau', queue') →
  map_inv s0 beta t pe pm tau' queue'.
Proof.
  intros [Hl Hq Hn He Hp] Hstep.
  rewrite (prune_step_prunes tau node queue Hl) in Hstep.
  pose proof Hl as [Hc Hs Hsub Hksub].
  pose proof (complete_wf _ Hc) as Hwf.
  destruct (Hq node) as [Hnode Hkept]; [by left|].
  assert (∀ q, q ∈ queue → q ∈ nodes t ∧ kept beta t pe pm q) as Hq'.
  { intros q ?. apply Hq. by right. }
  case_decide as Hd.
  - destruct (prunes beta t pe pm node) eqn:Hpr; injection Hstep as <- <-.
    + (* the subtree at [node] is removed *)
      split.
      * by apply loop_inv_prune.
      * done.
      * intros u Hu Hk. simpl. apply elem_of_filter. split; [|by apply Hn].
        intros Hb. apply Hk in Hb. congruence.
      * intros u Hu Hk Hpu. apply prune_spec_dom. split; [by apply He|].
        intros Hsuf. destruct (decide (u = node)) as [->|Hne]; [congruence|].
        assert (below node u) as Hb by done. apply Hk in Hb. congruence.
      * intros u [Hu Hsuf]%prune_spec_dom.
        destruct (Hp u Hu) as [?|(q & [->|Hin]%elem_of_cons & Hqs)];
          [by left|done|]. right. eauto.
    + (* the children of [node] join the queue *)
      split; [done| |done|done|].
      * intros q [Hin|(b & -> & Hb)%elem_of_children_of]%elem_of_app;
          [by apply Hq'|]. split; [|by apply kept_child].
        apply (complete_children _ (scan_complete _ _ _ Hinv)).
        -- by apply Hksub.
        -- by rewrite (scan_alphabet _ _ _ Hinv).
      * intros u Hu.
        destruct (Hp u Hu) as [?|(q & [->|Hin]%elem_of_cons & Hqs)]; [by left| |].
        -- destruct (decide (u = node)) as [->|Hne]; [by left|]. right.
           destruct (wf_below_child tau node u Hwf) as (b & Hb & Hbs);
             [by apply (wf_keys _ Hwf)|done|].
           exists (b :: node). split; [|done].
           apply elem_of_app. right. apply elem_of_children_of.
           exists b. by rewrite <- Hs.
        -- right. exists q. split; [|done]. apply elem_of_app. by left.
  - injection Hstep as <- <-. split; [done..|].
    intros u Hu.
    destruct (Hp u Hu) as [?|(q & [->|Hin]%elem_of_cons & Hqs)]; [by left| |].
    + destruct Hd. by apply (wf_suffix_dom tau node u).
    + right. eauto.
Qed.

Lemma prune_loop_map fuel tau queue tau' :
  map_inv s0 beta t pe pm tau queue →
  prune_loop fuel beta pe pm tau queue = Ok tau' →
  map_inv s0 beta t pe pm tau' [].
Proof.
  revert tau queue. induction fuel as [|fuel IH]; intros tau queue Hm.
  - destruct queue; [|done]. by intros [= <-].
  - destruct queue as [|node queue]; [by intros [= <-]|]. cbn [prune_loop].
    intros ([tau1 queue1] & Hstep & Hloop)%bind_Ok.
    eapply IH; [|done]. by eapply map_inv_step.
Qed.

(** The tree the loop returns, node by node. *)
Lemma map_inv_final tau :
  map_inv s0 beta t pe pm tau [] →
  (∀ u, u ∈ nodes tau ↔ u ∈ nodes t ∧ kept beta t pe pm u) ∧
  (∀ u, u ∈ dom (edges tau) ↔
        u ∈ dom (edges t) ∧ kept beta t pe pm u ∧ prunes beta t pe pm u = false) ∧
  (∀ u cs, edges tau !! u = Some cs → edges t !! u = Some cs).
Proof.
  intros [Hl _ Hn He Hp]. pose proof Hl as [Hc Hs Hsub Hksub].
  assert (∀ u, u ∈ dom (edges tau) →
            kept beta t pe pm u ∧ prunes beta t pe pm u = false) as Hfin.
  { intros u Hu. destruct (Hp u Hu) as [?|(q & ?%elem_of_nil & _)]; done. }
  split; [|split].
  - intros u. split; [|by intros [? ?]; apply Hn].
    intros Hu. split; [by apply Hsub|].
    destruct u as [|b w].
    + intros a [Hsuf Hne]. apply suffix_nil_inv in Hsuf. congruence.
    + apply (wf_parent _ (complete_wf _ Hc)) in Hu as [Hw _].
      destruct (Hfin w Hw). by apply kept_child.
  - intros u. split.
    + intros Hu. split; [by apply Hksub|by apply Hfin].
    + intros (? & ? & ?). by apply He.
  - intros u cs. by apply loop_inv_edges.
Qed.

End map_tree.

(** *** The trees of [bct] are built by the class *)

Lemma scan_reachable s0 dmax joint ps st st' :
  reachable s0 st.1 →
  foldM (scan_position dmax joint) st ps = Ok st' → reachable s0 st'.1.
Proof.
  intros Hr. apply (foldM_ind (λ _ st, reachable s0 st.1)); [done|].
  intros _ i st1 st2 Hr1 _. unfold scan_position.
  apply (foldM_ind (λ _ st, reachable s0 st.1)); [done|].
  intros _ j [t3 c3] [t4 c4] Hr3 _. unfold scan_depth.
  intros (t5 & Ht5 & [= <- <-])%bind_Ok. simpl in *.
  case_decide; [by eapply reach_add|by simplify_eq].
Qed.

Lemma construct_tau_max_reachable order s0 dmax sample ic t c :
  construct_tau_max order s0 dmax sample ic = Ok (t, c) → reachable s0 t.
Proof.
  unfold construct_tau_max. intros ([t1 c1] & Hscan & [= <- <-])%bind_Ok.
  apply (scan_reachable s0) in Hscan; [done|]. apply reach_init.
Qed.

Lemma prune_loop_reachable `{FloatOps F} s0 fuel (beta : F) pe pm tau queue tau' :
  reachable s0 tau →
  prune_loop fuel beta pe pm tau queue = Ok tau' → reachable s0 tau'.
Proof.
  revert tau queue. induction fuel as [|fuel IH]; intros tau queue Hr.
  - destruct queue; [|done]. by intros [= <-].
  - destruct queue as [|node queue]; [by intros [= <-]|]. cbn [prune_loop].
    intros ([tau1 queue1] & Hstep & Hloop)%bind_Ok.
    eapply IH; [|done]. unfold prune_step in Hstep.
    destruct (edges tau !! node); [|by simplify_eq].
    apply bind_Ok in Hstep as (sum & _ & Hstep).
    apply bind_Ok in Hstep as (pn & _ & Hstep).
    destruct (fgt _ _); [|by simplify_eq].
    apply bind_Ok in Hstep as (tau2 & Hprune & [= <- <-]).
    by eapply reach_prune.
Qed.

Lemma bct_reachable `{FloatOps F} order s0 dmax (beta : F) sample ic tau pm_root :
  bct order s0 dmax beta sample ic = Ok (tau, pm_root) → reachable s0 tau.
Proof.
  unfold bct. intros ([t c] & Hc & Hrest)%bind_Ok.
  apply bind_Ok in Hrest as (pe & _ & Hrest).
  apply bind_Ok in Hrest as (pm & _ & Hrest).
  apply bind_Ok in Hrest as (tau1 & Hloop & Hrest).
  apply bind_Ok in Hrest as (v & _ & [= <- <-]).
  eapply prune_loop_reachable; [|done]. by eapply construct_tau_max_reachable.
Qed.

(** X11. The tree that [bct] returns, node by node.  Write [prunes(a)]
    for the comparison of the loop at an internal node [a] of the maximal
    tree: [log(beta) + log_pe(a) > log(1-beta) + sum of log_pm over the
    children of a].  A node [u] of the maximal tree is in the returned tree
    exactly when [prunes] fails at every proper suffix of [u] (its
    ancestors); it keeps its entry in [edges] exactly when, in addition,
    it is internal in the maximal tree and [prunes(u)] fails.  The entries
    that stay are unchanged. *)
Theorem bct_tree_characterisation `{FloatOps F} (order : gset str → list str)
    (s0 : list ascii) (dmax : Z) (beta : F) (sample ic : str)
    (t : Tree) (c : gmap str Z) :
  valid_order order → 0 ≤ dmax →
  construct_tau_max order s0 dmax sample ic = Ok (t, c) →
  ∃ pe pm tau v,
    log_pe_comprehension s0 c (order (nodes t)) = Ok pe ∧
    construct_log_pm_dict order s0 dmax beta t pe = Ok pm ∧
    pm !! [] = Some v ∧
    bct order s0 dmax beta sample ic = Ok (tau, fexp v) ∧
    (∀ u, u ∈ nodes tau ↔ u ∈ nodes t ∧ kept beta t pe pm u) ∧
    (∀ u, u ∈ dom (edges tau) ↔
          u ∈ dom (edges t) ∧ kept beta t pe pm u ∧
          prunes beta t pe pm u = false) ∧
    (∀ u cs, edges tau !! u = Some cs → edges t !! u = Some cs).
Proof.
  intros Horder Hd Hc.
  destruct (construct_tau_max_inv order Horder _ _ _ _ _ _ Hc) as [Hinv _].
  destruct (bct_stages order Horder s0 dmax beta sample ic t c Hc)
    as (pe' & pm' & Hpe' & _ & Htot & Hpm' & Hspec & _).
  destruct (bct_Ok order Horder s0 dmax beta sample ic t c Hc Hd)
    as (pe & pm & tau & v & Hpe & Hpm & _ & Hloop & _ & Hv & Hbct).
  assert (pe' = pe) as -> by congruence.
  assert (pm' = pm) as -> by congruence.
  exists pe, pm, tau, v. repeat (split; [done|]).
  apply (map_inv_final s0 dmax beta t pe pm Hinv).
  eapply (prune_loop_map s0 dmax beta t pe pm Hinv Htot Hspec); [|exact Hloop].
  by apply (map_inv_init s0 dmax).
Qed.

(** X12. When [bct] returns, [dmax >= 0], [construct_tau_max] has
    returned the maximal tree, and the returned tree is built from the
    constructor by calls of [add_node] and [prune_at_node]: it satisfies
    the invariant of the class, keeps the alphabet, its nodes and the keys
    of its [edges] are among those of the maximal tree, no node is longer
    than [dmax] and no key of [edges] is as long as [dmax]. *)
Theorem bct_returns_context_tree `{FloatOps F} (order : gset str → list str)
    (s0 : list ascii) (dmax : Z) (beta : F) (sample ic : str)
    (tau : Tree) (pm_root : F) :
  valid_order order →
  bct order s0 dmax beta sample ic = Ok (tau, pm_root) →
  0 ≤ dmax ∧
  ∃ t c, construct_tau_max order s0 dmax sample ic = Ok (t, c) ∧
    reachable s0 t ∧ reachable s0 tau ∧ tree_inv tau ∧ s tau = s0 ∧
    nodes tau ⊆ nodes t ∧ dom (edges tau) ⊆ dom (edges t) ∧
    (∀ u, u ∈ nodes tau → Z.of_nat (length u) ≤ dmax) ∧
    (∀ u, u ∈ dom (edges tau) → Z.of_nat (length u) < dmax).
Proof.
  intros Horder Hbct.
  assert (0 ≤ dmax) as Hd.
  { destruct (decide (0 ≤ dmax)) as [?|Hneg]; [done|].
    destruct (bct_negative_depth order Horder s0 dmax beta sample ic) as [_ Hk];
      [lia|]. congruence. }
  split; [done|].
  destruct (construct_tau_max order s0 dmax sample ic) as [[t c]|e] eqn:Hc.
  2: { unfold bct in Hbct. by rewrite Hc in Hbct. }
  exists t, c. split; [done|].
  destruct (construct_tau_max_inv order Horder _ _ _ _ _ _ Hc) as [Hinv _].
  destruct (bct_Ok order Horder s0 dmax beta sample ic t c Hc Hd)
    as (pe & pm & tau' & v & _ & _ & _ & _ & [Hcomp Hs Hn Hk] & _ & Hbct').
  assert (tau' = tau) as -> by congruence.
  split; [by eapply construct_tau_max_reachable|].
  split; [by eapply bct_reachable|].
  split; [by apply complete_tree_inv|]. split; [done|]. split; [done|].
  split; [done|]. split.
  - intros u Hu%Hn. pose proof (scan_depth_nodes _ _ _ Hinv u Hu). lia.
  - intros u Hu%Hk. by apply (scan_depth_keys _ _ _ Hinv).
Qed.

(** X13. Let the comparison [>] of the floats be asymmetric, as it is for
    IEEE 754 numbers.  Then on the tree that [bct] returns: at a node that
    keeps its children, [log(beta) + log_pe(u)] is not greater than
    [log(1-beta) + sum of log_pm over the children], and [log_pm(u)] is the
    latter when it is the greater of the two and the former when neither is
    greater; at a leaf of depth [dmax], [log_pm(u) = log_pe(u)]; at a leaf
    where the loop pruned, [log_pm(u) = log(beta) + log_pe(u)]; at a leaf
    that was a leaf of the maximal tree already,
    [log_pm(u) = log(beta)]. *)
Theorem log_pm_on_returned_tree `{FloatOps F} (order : gset str → list str)
    (s0 : list ascii) (dmax : Z) (beta : F) (sample ic : str)
    (t : Tree) (c : gmap str Z) :
  (∀ a b : F, fgt a b = true → fgt b a = false) →
  valid_order order → 0 ≤ dmax →
  construct_tau_max order s0 dmax sample ic = Ok (t, c) →
  ∃ pe pm tau v,
    log_pe_comprehension s0 c (order (nodes t)) = Ok pe ∧
    construct_log_pm_dict order s0 dmax beta t pe = Ok pm ∧
    pm !! [] = Some v ∧
    bct order s0 dmax beta sample ic = Ok (tau, fexp v) ∧
    ∀ u, u ∈ nodes tau →
      ∃ pe_u, pe !! u = Some pe_u ∧
        if decide (u ∈ dom (edges tau)) then
          ∃ vs, Forall2 (λ child v, pm !! child = Some v) (children_of s0 u) vs ∧
                fgt (stop_value beta pe_u) (split_value beta (fsum vs)) = false ∧
                pm !! u =
                Some (if fgt (split_value beta (fsum vs)) (stop_value beta pe_u)
                      then split_value beta (fsum vs)
                      else stop_value beta pe_u)
        else if decide (Z.of_nat (length u) = dmax) then pm !! u = Some pe_u
        else if decide (u ∈ dom (edges t)) then
          pm !! u = Some (stop_value beta pe_u)
        else pm !! u = Some (flog beta).
Proof.
  intros Hasym Horder Hd Hc.
  destruct (construct_tau_max_inv order Horder _ _ _ _ _ _ Hc) as [Hinv _].
  destruct (bct_stages order Horder s0 dmax beta sample ic t c Hc)
    as (pe' & pm' & Hpe' & _ & Htot & Hpm' & Hspec & _).
  destruct (bct_Ok order Horder s0 dmax beta sample ic t c Hc Hd)
    as (pe & pm & tau & v & Hpe & Hpm & _ & Hloop & _ & Hv & Hbct).
  assert (pe' = pe) as -> by congruence.
  assert (pm' = pm) as -> by congruence.
  exists pe, pm, tau, v. repeat (split; [done|]).
  destruct (map_inv_final s0 dmax beta t pe pm Hinv tau) as (Hnodes & Hedges & _).
  { eapply (prune_loop_map s0 dmax beta t pe pm Hinv Htot Hspec); [|exact Hloop].
    by apply (map_inv_init s0 dmax). }
  intros u [Hu Hkept]%Hnodes.
  destruct (Htot u Hu) as [pe_u Hpe_u]. exists pe_u. split; [done|].
  destruct Hspec as [Hdom Hval].
  pose proof (scan_depth_nodes _ _ _ Hinv u Hu) as Hlen.
  assert (u ∈ dom pm) as [w Hw]%elem_of_dom.
  { apply Hdom. split; [done|lia]. }
  pose proof (Hval u w Hw) as Hnv. unfold node_value in Hnv.
  apply getitem_Ok in Hpe_u. rewrite Hpe_u in Hnv.
  destruct (decide (u ∈ dom (edges tau))) as [Hin|Hnin].
  - apply Hedges in Hin as (Hut & _ & Hpr).
    pose proof (scan_depth_keys _ _ _ Hinv u Hut).
    rewrite decide_False in Hnv by lia.
    apply elem_of_dom in Hut as [cs Hcs]. rewrite Hcs in Hnv.
    pose proof (wf_shape _ (complete_wf _ (scan_complete _ _ _ Hinv)) _ _ Hcs)
      as ->.
    rewrite (scan_alphabet _ _ _ Hinv) in *.
    apply bind_Ok in Hnv as (sum & Hsum & [= <-]).
    unfold prunes in Hpr. rewrite Hcs, Hsum, Hpe_u in Hpr.
    apply sum_child_Ok in Hsum as (vs & Hvs & ->).
    exists vs. split; [done|]. split; [done|]. by rewrite Hw.
  - case_decide as Hdm; [by simplify_eq|].
    destruct (decide (u ∈ dom (edges t))) as [Hut|Hut].
    + apply elem_of_dom in Hut as [cs Hcs]. rewrite Hcs in Hnv.
      apply bind_Ok in Hnv as (sum & Hsum & [= <-]).
      assert (prunes beta t pe pm u = true) as Hpr.
      { destruct (prunes beta t pe pm u) eqn:Hpr; [done|].
        destruct Hnin. apply Hedges. split; [|done]. apply elem_of_dom. eauto. }
      unfold prunes in Hpr. rewrite Hcs, Hsum, Hpe_u in Hpr.
      rewrite Hw. f_equal. unfold py_max. by rewrite (Hasym _ _ Hpr).
    + apply not_elem_of_dom in Hut. rewrite Hut in Hnv. by simplify_eq.
Qed.

(** X14. The exceptions of [bct].  It raises [AssertionError] when
    [construct_tau_max] does, and [KeyError] when [dmax < 0]: then the
    three stages return and the final lookup [log_pm_dict[""]] fails.  It
    raises nothing else: after [construct_tau_max] has returned, neither
    [calc_log_pe] nor [construct_log_pm_dict] raises, so their [KeyError]
    handlers are never entered from [bct]. *)
Theorem bct_exceptions `{FloatOps F} (order : gset str → list str)
    (s0 : list ascii) (dmax : Z) (beta : F) (sample ic : str) (e : exn) :
  valid_order order →
  bct order s0 dmax beta sample ic = Raise e →
  (e = AssertionError ∧
   construct_tau_max order s0 dmax sample ic = Raise AssertionError) ∨
  (e = KeyError ∧ dmax < 0 ∧
   ∃ t c pe pm,
     construct_tau_max order s0 dmax sample ic = Ok (t, c) ∧
     log_pe_comprehension s0 c (order (nodes t)) = Ok pe ∧
     construct_log_pm_dict order s0 dmax beta t pe = Ok pm ∧
     pm !! [] = None).
Proof.
  intros Horder Hbct.
  destruct (construct_tau_max order s0 dmax sample ic) as [[t c]|e'] eqn:Hc.
  - right. destruct (decide (0 ≤ dmax)) as [Hd|Hd].
    + destruct (bct_Ok order Horder s0 dmax beta sample ic t c Hc Hd)
        as (? & ? & ? & ? & _ & _ & _ & _ & _ & _ & Hok). congruence.
    + destruct (bct_negative_depth order Horder s0 dmax beta sample ic)
        as [(c' & pe & pm & Hc' & Hpe & Hpm & _ & Hnone) Hk]; [lia|].
      split; [congruence|]. split; [lia|].
      assert (t = Tree_init s0 ∧ c = c') as [-> ->] by (split; congruence).
      by exists (Tree_init s0), c', pe, pm.
  - left. pose proof (construct_tau_max_Raise order _ _ _ _ _ Hc) as ->.
    split; [|done]. unfold bct in Hbct. rewrite Hc in Hbct. by simplify_eq/=.
Qed.

(** ** The graph that is drawn *)

Section draw_labels.
Implicit Types (v : list str) (lab : list Z) (cont : Z) (cs : list str).

Lemma range_app_len (lo : Z) (n m : nat) :
  range lo (lo + Z.of_nat n) ++ range (lo + Z.of_nat n) (lo + Z.of_nat (n + m))
  = range lo (lo + Z.of_nat (n + m)).
Proof. symmetry. apply range_app. lia. Qed.

Lemma foldl_label_child v lab cont cs :
  foldl label_child (v, lab, cont) cs =
  (v ++ cs, lab ++ range (cont + 1) (cont + 1 + Z.of_nat (length cs)),
   cont + Z.of_nat (length cs)).
Proof.
  revert v lab cont. induction cs as [|c cs IH]; intros v lab cont.
  - simpl. rewrite !Z.add_0_r, range_nil, !app_nil_r by lia. done.
  - cbn [foldl label_child]. rewrite IH. f_equal; [f_equal|].
    + by rewrite <- app_assoc.
    + rewrite <- app_assoc. f_equal. simpl length.
      rewrite (range_cons (cont + 1)) by lia. simpl. do 2 f_equal. lia.
    + simpl length. lia.
Qed.

Lemma foldl_label_children v lab cont (css : list (list str)) :
  foldl (λ st children, foldl label_child st children) (v, lab, cont) css =
  (v ++ concat css,
   lab ++ range (cont + 1) (cont + 1 + Z.of_nat (length (concat css))),
   cont + Z.of_nat (length (concat css))).
Proof.
  revert v lab cont. induction css as [|cs css IH]; intros v lab cont.
  - simpl. rewrite !Z.add_0_r, range_nil, !app_nil_r by lia. done.
  - cbn [foldl concat]. rewrite foldl_label_child, IH. f_equal; [f_equal|].
    + by rewrite <- app_assoc.
    + rewrite <- app_assoc. f_equal. rewrite length_app.
      rewrite <- (range_app_len (cont + 1) (length cs) (length (concat css))).
      do 2 f_equal; lia.
    + rewrite length_app. lia.
Qed.

Lemma draw_tree_labels_eq items t :
  draw_tree_labels items t =
  (Z.of_nat (size (edges t)) * Z.of_nat (length (s t)) + 1,
   [] :: concat (items (edges t)).*2,
   range 0 (1 + Z.of_nat (length (concat (items (edges t)).*2)))).
Proof.
  unfold draw_tree_labels. rewrite foldl_label_children. simpl.
  do 2 f_equal. rewrite (range_cons 0) by lia. done.
Qed.

End draw_labels.

Section draw_complete.
Variable items : gmap str (list str) → list (str * list str).
Hypothesis Hitems : valid_dict_order items.
Variable t : Tree.
Hypothesis Hc : complete t.
Implicit Types (k x : str).

Lemma elem_of_items k cs :
  (k, cs) ∈ items (edges t) ↔ edges t !! k = Some cs.
Proof. by rewrite (Hitems _), elem_of_map_to_list. Qed.

Lemma NoDup_items_keys : NoDup (items (edges t)).*1.
Proof. rewrite (Hitems _). apply NoDup_fst_map_to_list. Qed.

Lemma length_items : length (items (edges t)) = size (edges t).
Proof. by rewrite (Hitems _), length_map_to_list. Qed.

Lemma items_values :
  (items (edges t)).*2 = children_of (s t) <$> (items (edges t)).*1.
Proof.
  rewrite <- list_fmap_compose. apply list_fmap_ext.
  intros _ [k cs] Hin%list_elem_of_lookup_2. simpl.
  apply elem_of_items in Hin. by apply (wf_shape _ (complete_wf _ Hc)).
Qed.

Lemma length_concat_children (ks : list str) :
  length (concat (children_of (s t) <$> ks)) = (length ks * length (s t))%nat.
Proof.
  induction ks as [|k ks IH]; [done|]. rewrite fmap_cons. cbn [concat length].
  rewrite length_app, IH. unfold children_of. by rewrite length_fmap.
Qed.

Lemma elem_of_concat (ls : list (list str)) x :
  x ∈ concat ls ↔ ∃ l, x ∈ l ∧ l ∈ ls.
Proof.
  induction ls as [|l ls IH]; simpl.
  - split; [by intros ?%elem_of_nil|]. by intros (l & _ & ?%elem_of_nil).
  - rewrite elem_of_app, IH. setoid_rewrite elem_of_cons. naive_solver.
Qed.

Lemma elem_of_concat_children (ks : list str) x :
  x ∈ concat (children_of (s t) <$> ks) ↔
  ∃ b k, x = b :: k ∧ b ∈ s t ∧ k ∈ ks.
Proof.
  rewrite elem_of_concat. setoid_rewrite list_elem_of_fmap. split.
  - intros (cs & Hx & k & -> & Hk).
    apply elem_of_children_of in Hx as (b & -> & Hb). eauto.
  - intros (b & k & -> & Hb & Hk). exists (children_of (s t) k).
    split; [apply elem_of_children_of; eauto|eauto].
Qed.

Lemma NoDup_concat_children (ks : list str) :
  NoDup (s t) → NoDup ks → NoDup (concat (children_of (s t) <$> ks)).
Proof.
  intros Hs. induction 1 as [|k ks Hk Hks IH]; [constructor|].
  rewrite fmap_cons. cbn [concat]. apply NoDup_app. split; [|split; [|done]].
  - apply NoDup_fmap_2; [|done]. by intros ?? [= ->].
  - intros x (b & -> & _)%elem_of_children_of
      (b' & k' & [= _ ->] & _ & Hk')%elem_of_concat_children. done.
Qed.

(** The labels are the nodes of the tree, each once, the root first. *)
Lemma labels_nodes :
  NoDup (s t) →
  let v_label := [] :: concat (items (edges t)).*2 in
  NoDup v_label ∧ (∀ x, x ∈ v_label ↔ x ∈ nodes t) ∧
  Z.of_nat (length v_label)
  = Z.of_nat (size (edges t)) * Z.of_nat (length (s t)) + 1.
Proof.
  intros Hs. simpl. rewrite items_values. split; [|split].
  - apply NoDup_cons. split.
    + by intros (b & k & ? & _)%elem_of_concat_children.
    + apply NoDup_concat_children; [done|apply NoDup_items_keys].
  - intros x. rewrite elem_of_cons, elem_of_concat_children.
    destruct Hc as [Hwf Hch Hroot]. split.
    + intros [->|(b & k & -> & Hb & Hk)]; [done|]. apply Hch; [|done].
      apply list_elem_of_fmap in Hk as ([k' cs] & -> & Hin).
      apply elem_of_items in Hin. apply elem_of_dom. eauto.
    + destruct x as [|b k]; [by left|]. intros Hx. right.
      apply (wf_parent _ Hwf) in Hx as [[cs Hcs]%elem_of_dom Hb].
      exists b, k. split; [done|]. split; [done|].
      apply list_elem_of_fmap. exists (k, cs). split; [done|].
      by apply elem_of_items.
  - simpl length. rewrite length_concat_children, length_fmap, length_items. lia.
Qed.

End draw_complete.

Section draw_index.
Implicit Types (l : list str) (x : str).

Lemma index_elem_of l x :
  x ∈ l →
  ∃ i : nat, index x l = inr (Z.of_nat i) ∧ l !! i = Some x.
Proof.
  induction l as [|y l IH]; [by intros ?%elem_of_nil|]. intros Hx. simpl.
  destruct (decide (y = x)) as [->|Hne]; [by exists 0%nat|].
  apply elem_of_cons in Hx as [?|Hx]; [congruence|].
  destruct (IH Hx) as (i & -> & Hi). exists (S i). simpl. split; [|done].
  f_equal. lia.
Qed.

Lemma position_lookup l x (i : nat) :
  NoDup l → l !! i = Some x → position l x = Z.of_nat i.
Proof.
  intros Hnd Hi. unfold position.
  destruct (index_elem_of l x) as (j & -> & Hj); [by eapply list_elem_of_lookup_2|].
  f_equal. by eapply NoDup_lookup.
Qed.

Lemma position_fmap l :
  NoDup l → position l <$> l = range 0 (Z.of_nat (length l)).
Proof.
  intros Hnd. apply list_eq. intros i. rewrite list_lookup_fmap.
  unfold range. rewrite list_lookup_fmap.
  replace (Z.to_nat (Z.of_nat (length l) - 0)) with (length l) by lia.
  destruct (l !! i) as [x|] eqn:Hi; simpl.
  - rewrite lookup_seq_lt by (by eapply lookup_lt_Some). simpl.
    f_equal. rewrite (position_lookup l x i) by done. lia.
  - rewrite lookup_seq_ge; [done|]. by apply lookup_ge_None.
Qed.

Lemma list_getitem_range (n k : Z) :
  0 ≤ k < n → list_getitem (range 0 n) k = inr k.
Proof.
  intros Hk. unfold list_getitem.
  destruct (Z.ltb_spec k 0) as [?|_]; [lia|].
  destruct (Z.ltb_spec k 0) as [?|_]; [lia|].
  unfold range. rewrite list_lookup_fmap, lookup_seq_lt by lia. simpl.
  f_equal. lia.
Qed.

Lemma add_edge_position l (n : Z) father child (E : list (Z * Z)) :
  n = Z.of_nat (length l) → father ∈ l → child ∈ l →
  add_edge l (range 0 n) father E child =
  inr (E ++ [(position l father, position l child)]).
Proof.
  intros -> Hf Hch. unfold add_edge, position.
  destruct (index_elem_of l father Hf) as (i & -> & Hi).
  destruct (index_elem_of l child Hch) as (j & -> & Hj).
  apply lookup_lt_Some in Hi, Hj. cbn [mbind seq_bind].
  rewrite !list_getitem_range by lia. done.
Qed.

Lemma fold_add_edge l (n : Z) father (E : list (Z * Z)) (cs : list str) :
  n = Z.of_nat (length l) → father ∈ l → (∀ c, c ∈ cs → c ∈ l) →
  fold_seq (add_edge l (range 0 n) father) E cs =
  inr (E ++ ((λ c, (position l father, position l c)) <$> cs)).
Proof.
  intros Hn Hf. revert E. induction cs as [|c cs IH]; intros E Hcs.
  - simpl. by rewrite app_nil_r.
  - cbn [fold_seq]. rewrite add_edge_position by (done || apply Hcs; by left).
    cbn [mbind seq_bind]. rewrite IH by (intros ??; apply Hcs; by right).
    by rewrite <- app_assoc.
Qed.

Lemma fold_family l (n : Z) (E : list (Z * Z)) (its : list (str * list str)) :
  n = Z.of_nat (length l) →
  (∀ k cs, (k, cs) ∈ its → k ∈ l ∧ ∀ c, c ∈ cs → c ∈ l) →
  fold_seq (λ E '(father, children),
              fold_seq (add_edge l (range 0 n) father) E children) E its =
  inr (E ++ ((λ p, (position l p.1, position l p.2)) <$> family its)).
Proof.
  intros Hn. revert E. induction its as [|[k cs] its IH]; intros E Hits.
  - simpl. by rewrite app_nil_r.
  - cbn [fold_seq]. destruct (Hits k cs) as [Hk Hcs]; [by left|].
    rewrite fold_add_edge by done. cbn [mbind seq_bind].
    rewrite IH by (intros ???; apply Hits; by right).
    unfold family. cbn [mbind list_bind]. fold (family its).
    rewrite fmap_app, <- list_fmap_compose, <- app_assoc. done.
Qed.

Lemma family_children (its : list (str * list str)) :
  (family its).*2 = concat its.*2.
Proof.
  induction its as [|[k cs] its IH]; [done|].
  unfold family. cbn [mbind list_bind]. fold (family its).
  rewrite fmap_app, IH, <- list_fmap_compose. simpl.
  f_equal. by rewrite list_fmap_id.
Qed.

Lemma elem_of_family (its : list (str * list str)) k c :
  (k, c) ∈ family its ↔ ∃ cs, (k, cs) ∈ its ∧ c ∈ cs.
Proof.
  unfold family. rewrite list_elem_of_bind. split.
  - intros ([k' cs] & Hin & Hits). apply list_elem_of_fmap in Hin as (c' & [= -> ->] & Hc').
    eauto.
  - intros (cs & Hits & Hc'). exists (k, cs). split; [|done].
    apply list_elem_of_fmap. eauto.
Qed.

End draw_index.

Lemma position_elem_of (l : list str) (x : str) :
  x ∈ l →
  0 ≤ position l x < Z.of_nat (length l) ∧ l !! Z.to_nat (position l x) = Some x.
Proof.
  intros Hx. unfold position.
  destruct (index_elem_of l x Hx) as (i & -> & Hi).
  rewrite Nat2Z.id. split; [|done]. apply lookup_lt_Some in Hi. lia.
Qed.

(** X15. For a tree built by the class over distinct symbols and any
    iteration order of the dict [edges], the labels [v_label] computed by
    [draw_tree] are the nodes of the tree, each once, the root first; there
    are [nr_vertices] of them (so the length check of [make_annotations]
    passes), and [lab] is [0, 1, ..., nr_vertices - 1]. *)
Theorem draw_tree_labels_are_nodes
    (items : gmap str (list str) → list (str * list str))
    (s0 : list ascii) (t : Tree) :
  valid_dict_order items → reachable s0 t → NoDup s0 →
  ∃ v_label,
    draw_tree_labels items t =
      (Z.of_nat (length v_label), v_label,
       range 0 (Z.of_nat (length v_label))) ∧
    v_label ≡ₚ elements (nodes t) ∧
    v_label !! 0%nat = Some [].
Proof.
  intros Hitems [Hc <-]%reachable_complete Hnd.
  destruct (labels_nodes items Hitems t Hc Hnd) as (Hnd' & Hin & Hlen).
  exists ([] :: concat (items (edges t)).*2). split; [|split; [|done]].
  - rewrite draw_tree_labels_eq, <- Hlen. do 2 f_equal. simpl length. lia.
  - apply NoDup_Permutation; [done|apply NoDup_elements|].
    intros x. by rewrite Hin, elem_of_elements.
Qed.

Lemma draw_tree_graph
    (items : gmap str (list str) → list (str * list str)) (t : Tree) :
  valid_dict_order items → complete t → NoDup (s t) →
  ∃ nr v_label lab E,
    draw_tree_labels items t = (nr, v_label, lab) ∧
    draw_tree_edges items t = inr E ∧
    E.*2 = range 1 nr ∧
    ∀ a b, (a, b) ∈ E →
      0 ≤ a < nr ∧
      ∃ father child,
        v_label !! Z.to_nat a = Some father ∧
        v_label !! Z.to_nat b = Some child ∧
        child ≠ [] ∧ father = parent_of child.
Proof.
  intros Hitems Hc Hnd.
  destruct (labels_nodes items Hitems t Hc Hnd) as (Hnd' & Hin & Hlen).
  set (l := [] :: concat (items (edges t)).*2) in *.
  assert (draw_tree_labels items t =
          (Z.of_nat (length l), l, range 0 (Z.of_nat (length l)))) as Hlab.
  { rewrite draw_tree_labels_eq, <- Hlen. do 2 f_equal. unfold l. simpl length. lia. }
  assert (∀ k cs, (k, cs) ∈ items (edges t) →
            k ∈ l ∧ ∀ c, c ∈ cs → c ∈ l) as Hfam.
  { intros k cs Hk%(elem_of_items items Hitems). split.
    - apply Hin, (wf_keys _ (complete_wf _ Hc)), elem_of_dom. eauto.
    - intros c Hcs. apply Hin.
      rewrite (wf_shape _ (complete_wf _ Hc) _ _ Hk) in Hcs.
      apply elem_of_children_of in Hcs as (b & -> & Hb).
      apply (complete_children _ Hc); [|done]. apply elem_of_dom. eauto. }
  eexists _, _, _, _. split; [exact Hlab|].
  unfold draw_tree_edges. rewrite Hlab.
  rewrite (fold_family l) by done. rewrite app_nil_l.
  split; [done|]. split.
  - rewrite <- list_fmap_compose.
    change (snd ∘ (λ p : str * str, (position l p.1, position l p.2)))
      with (position l ∘ snd (A := str)).
    rewrite list_fmap_compose, family_children.
    pose proof (position_fmap l Hnd') as Hpos.
    unfold l in Hpos at 2 3. rewrite fmap_cons, (range_cons 0) in Hpos
      by (simpl length; lia).
    by injection Hpos as Hpos.
  - intros a b ([k c] & [= -> ->] & Hkc)%list_elem_of_fmap. simpl.
    apply elem_of_family in Hkc as (cs & Hk & Hcs).
    destruct (Hfam k cs Hk) as [Hkl Hcl].
    destruct (position_elem_of l k Hkl) as [Hrange Hlk].
    destruct (position_elem_of l c (Hcl c Hcs)) as [_ Hlc].
    split; [done|]. exists k, c. split; [done|]. split; [done|].
    apply (elem_of_items items Hitems) in Hk.
    rewrite (wf_shape _ (complete_wf _ Hc) _ _ Hk) in Hcs.
    apply elem_of_children_of in Hcs as (b & -> & _).
    by rewrite parent_of_cons.
Qed.

(** X16. For a tree built by the class over distinct symbols, the two
    [index] lookups and the two [lab[...]] never raise in the loop that adds
    the edges; the [k]-th edge added points to vertex [k], for
    [k = 1..nr_vertices-1], and leaves from a vertex below [nr_vertices]
    whose label is the parent [child[1:]] of the label of vertex [k]. *)
Theorem draw_tree_edges_form_tree
    (items : gmap str (list str) → list (str * list str))
    (s0 : list ascii) (t : Tree) :
  valid_dict_order items → reachable s0 t → NoDup s0 →
  ∃ nr v_label lab E,
    draw_tree_labels items t = (nr, v_label, lab) ∧
    draw_tree_edges items t = inr E ∧
    E.*2 = range 1 nr ∧
    ∀ a b, (a, b) ∈ E →
      0 ≤ a < nr ∧
      ∃ father child,
        v_label !! Z.to_nat a = Some father ∧
        v_label !! Z.to_nat b = Some child ∧
        child ≠ [] ∧ father = parent_of child.
Proof.
  intros Hitems [Hc <-]%reachable_complete Hnd. by apply draw_tree_graph.
Qed.

(** ** The chain of the example *)

Section suffix_tests.
Implicit Types (l x y w : str).

Lemma slice_neg {A} (k : Z) (l : list A) :
  0 < k → slice (Some (- k)) None l = drop (length l - Z.to_nat k) l.
Proof.
  intros Hk. unfold slice, py_index; simpl.
  destruct (Z.ltb_spec (- k) 0) as [_|?]; [|lia].
  replace (Z.to_nat (0 `max` (- k + Z.of_nat (length l))))
    with (length l - Z.to_nat k)%nat by lia.
  apply take_ge. rewrite length_drop. lia.
Qed.

Lemma slice_from {A} (n : nat) (l : list A) :
  slice (Some (Z.of_nat n)) None l = drop n l.
Proof.
  unfold slice, py_index; simpl.
  destruct (Z.ltb_spec (Z.of_nat n) 0) as [?|_]; [lia|].
  destruct (decide (n ≤ length l)%nat).
  - replace (Z.to_nat (Z.of_nat n `min` Z.of_nat (length l))) with n by lia.
    apply take_ge. rewrite length_drop. lia.
  - replace (Z.to_nat (Z.of_nat n `min` Z.of_nat (length l)))
      with (length l) by lia.
    rewrite Nat.sub_diag, take_0, drop_ge; [done|lia].
Qed.

(** [values[-k:] == x], for [x] of length [k]. *)
Lemma ends_with_suffix x l :
  x ≠ [] → slice (Some (- Z.of_nat (length x))) None l = x ↔ x `suffix_of` l.
Proof.
  intros Hx. rewrite slice_neg by (destruct x; [done|simpl; lia]).
  rewrite Nat2Z.id. split.
  - intros <-. apply suffix_drop.
  - intros [w ->]. rewrite length_app.
    replace (length w + length x - length x)%nat with (length w) by lia.
    by rewrite drop_app_length.
Qed.

Lemma decide_iff_if {A} (P Q : Prop) `{Decision P, Decision Q} (a b : A) :
  (P ↔ Q) → (if decide P then a else b) = (if decide Q then a else b).
Proof. intros HPQ. destruct (decide P), (decide Q); tauto. Qed.

Lemma decide_iff_else {A} (P Q : Prop) `{Decision P, Decision Q} (a b1 b2 : A) :
  (P ↔ Q) → b1 = b2 →
  (if decide P then a else b1) = (if decide Q then a else b2).
Proof. intros HPQ ->. by apply decide_iff_if. Qed.

(** The chain of comparisons is a lookup in the table. *)
Lemma select_theta_table l : select_theta l = table_find context_table l.
Proof.
  unfold select_theta, context_table, table_find.
  repeat (apply decide_iff_else;
    [match goal with |- slice _ None _ = ?x ↔ _ =>
       apply (ends_with_suffix x l); discriminate end|]).
  done.
Qed.

Lemma table_find_Some table l p :
  table_find table l = Some p → ∃ c, (c, p) ∈ table ∧ c `suffix_of` l.
Proof.
  induction table as [|[c q] table IH]; simpl; [done|].
  case_decide.
  - intros [= ->]. exists c. split; [by left|done].
  - intros (c' & ? & ?)%IH. exists c'. split; [by right|done].
Qed.

Lemma suffix_comparable x y l :
  x `suffix_of` l → y `suffix_of` l → x `suffix_of` y ∨ y `suffix_of` x.
Proof.
  intros [w1 ->] [w2 Heq].
  pose proof (f_equal length Heq) as Hlen. rewrite !length_app in Hlen.
  destruct (decide (length x ≤ length y)%nat) as [Hle|Hle].
  - left. exists (drop (length w2) w1).
    apply (f_equal (drop (length w2))) in Heq.
    rewrite drop_app_length in Heq. rewrite <- Heq, drop_app_le; [done|lia].
  - right. exists (drop (length w1) w2).
    symmetry in Heq. apply (f_equal (drop (length w1))) in Heq.
    rewrite drop_app_length in Heq. rewrite <- Heq, drop_app_le; [done|lia].
Qed.

Lemma suffix_free_unique table l c1 p1 c2 p2 :
  suffix_free table = true →
  (c1, p1) ∈ table → (c2, p2) ∈ table →
  c1 `suffix_of` l → c2 `suffix_of` l → c1 = c2 ∧ p1 = p2.
Proof.
  induction table as [|[c q] table IH]; [by intros _ ?%elem_of_nil|].
  cbn [suffix_free]. intros [Hall Hfree]%andb_prop.
  rewrite forallb_forall in Hall.
  assert (∀ c' p', (c', p') ∈ table → c `suffix_of` l → c' `suffix_of` l → False)
    as Hno.
  { intros c' p' Hin%list_elem_of_In Hc Hc'. apply Hall in Hin.
    apply bool_decide_eq_true in Hin as [H1 H2]. simpl in *.
    destruct (suffix_comparable c c' l Hc Hc'); tauto. }
  intros [[= -> ->]|H1]%elem_of_cons [[= -> ->]|H2]%elem_of_cons Hs1 Hs2.
  - done.
  - destruct (Hno c2 p2); done.
  - destruct (Hno c1 p1); done.
  - by apply IH.
Qed.

Lemma table_find_unique table l c p :
  suffix_free table = true → (c, p) ∈ table → c `suffix_of` l →
  table_find table l = Some p.
Proof.
  intros Hfree Hin Hs.
  destruct (table_find table l) as [p'|] eqn:Hfind.
  - apply table_find_Some in Hfind as (c' & Hin' & Hs').
    by destruct (suffix_free_unique table l c p c' p' Hfree Hin Hin' Hs Hs') as [_ ->].
  - exfalso. clear Hfree. induction table as [|[c' q] table IH];
      [by apply elem_of_nil in Hin|].
    simpl in Hfind. case_decide as Hd; [done|].
    apply elem_of_cons in Hin as [[= -> ->]|Hin]; [done|by apply IH].
Qed.

Lemma suffix_free_context_table : suffix_free context_table = true.
Proof. vm_compute. reflexivity. Qed.

(** Only the last five symbols are looked at. *)
Lemma table_find_last table l n :
  (∀ c p, (c, p) ∈ table → (length c ≤ n)%nat) →
  table_find table l = table_find table (drop (length l - n) l).
Proof.
  intros Hlen. induction table as [|[c q] table IH]; [done|]. simpl.
  rewrite IH by (intros ???; eapply Hlen; by right).
  apply decide_iff_if. specialize (Hlen c q ltac:(left)). split.
  - intros [w Hw]. exists (drop (length l - n) w).
    rewrite Hw at 2. rewrite drop_app_le; [done|].
    apply (f_equal length) in Hw. rewrite length_app in Hw. lia.
  - intros Hs. etrans; [done|apply suffix_drop].
Qed.

Lemma elem_of_words (n : nat) w :
  Forall (λ a, a ∈ lit "012") w → length w = n → w ∈ words n.
Proof.
  revert w. induction n as [|n IH]; intros [|a w] Hall Hlen; try done.
  - by left.
  - injection Hlen as Hlen. apply Forall_cons in Hall as [Ha Hall].
    change (words (S n)) with (a ← lit "012"; (λ w, a :: w) <$> words n).
    apply list_elem_of_bind. exists a. split; [|done].
    apply list_elem_of_fmap. exists w. split; [done|]. by apply IH.
Qed.

Lemma select_theta_words :
  forallb (λ w, bool_decide (is_Some (select_theta w))) (words 5) = true.
Proof. vm_compute. reflexivity. Qed.

(** Every string of at least five symbols over the alphabet ends with a
    context. *)
Lemma select_theta_total l :
  Forall (λ a, a ∈ lit "012") l → (5 ≤ length l)%nat → is_Some (select_theta l).
Proof.
  intros Hall Hlen. rewrite select_theta_table, (table_find_last _ _ 5).
  2: { intros c p Hin. unfold context_table in Hin.
       repeat (apply elem_of_cons in Hin as [[= -> ->]|Hin]; [simpl; lia|]).
       by apply elem_of_nil in Hin. }
  rewrite <- select_theta_table.
  pose proof select_theta_words as Hw. rewrite forallb_forall in Hw.
  eapply bool_decide_eq_true, Hw, list_elem_of_In, elem_of_words.
  - by apply Forall_drop.
  - rewrite length_drop. lia.
Qed.

Lemma select_theta_default w :
  Forall (λ a, a ∈ lit "012") w → is_Some (select_theta (lit "000" ++ w)).
Proof.
  intros Hall. destruct w as [|a [|b w]].
  - vm_compute. eauto.
  - apply Forall_cons in Hall as [Ha _].
    repeat (apply elem_of_cons in Ha as [->|Ha]; [vm_compute; eauto|]).
    by apply elem_of_nil in Ha.
  - apply select_theta_total; [|simpl; lia].
    apply Forall_app. split; [|done]. by repeat constructor.
Qed.

End suffix_tests.

Section generator.
Context {Seed : Type}.
Variable choice : Seed → nat → list Q → Z.
Implicit Types (seed : Seed) (values w : str) (n k : nat).

Lemma alphabet_getitem (z : Z) :
  0 ≤ z < 3 →
  ∃ a, list_getitem alphabet z = inr [a] ∧ a ∈ lit "012".
Proof.
  intros Hz.
  assert (z = 0 ∨ z = 1 ∨ z = 2) as [->|[->| ->]] by lia;
    eexists; (split; [reflexivity|]); set_solver.
Qed.

Lemma generate_loop_total seed n k values :
  valid_choice choice →
  (∀ w, Forall (λ a, a ∈ lit "012") w → is_Some (select_theta (values ++ w))) →
  ∃ w, generate_loop choice seed n k values = inr (values ++ w) ∧
       length w = n ∧ Forall (λ a, a ∈ lit "012") w.
Proof.
  intros Hchoice. revert k values.
  induction n as [|n IH]; intros k values Hsafe.
  { exists []. by rewrite app_nil_r. }
  cbn [generate_loop].
  destruct (Hsafe []) as [p Hp]; [done|]. rewrite app_nil_r in Hp. rewrite Hp.
  destruct (alphabet_getitem (choice seed k p)) as (a & -> & Ha);
    [apply Hchoice|]. cbn [mbind seq_bind].
  destruct (IH (S k) (values ++ [a])) as (w & -> & Hlen & Hall).
  { intros w Hw. rewrite <- app_assoc. apply Hsafe. by constructor. }
  exists (a :: w). rewrite <- app_assoc. split; [done|]. split; [simpl; lia|].
  by constructor.
Qed.

Lemma generate_loop_extends seed n k values v :
  generate_loop choice seed n k values = inr v → values `prefix_of` v.
Proof.
  revert k values. induction n as [|n IH]; intros k values; cbn [generate_loop].
  { by intros [= ->]. }
  destruct (select_theta values) as [p|]; [|by intros [= ->]].
  destruct (list_getitem alphabet _) as [e|symbol]; [done|]. cbn [mbind seq_bind].
  intros Hv%IH. etrans; [|done]. by apply prefix_app_r.
Qed.

Lemma generate_loop_prefix seed n1 n2 k values v2 :
  (n1 ≤ n2)%nat → generate_loop choice seed n2 k values = inr v2 →
  ∃ v1, generate_loop choice seed n1 k values = inr v1 ∧
        values `prefix_of` v1 ∧ v1 `prefix_of` v2.
Proof.
  revert n2 k values. induction n1 as [|n1 IH]; intros n2 k values Hle Hv2.
  { exists values. split; [done|]. split; [done|].
    by eapply generate_loop_extends. }
  destruct n2 as [|n2]; [lia|]. cbn [generate_loop] in *.
  destruct (select_theta values) as [p|].
  2: { injection Hv2 as <-. by exists values. }
  destruct (list_getitem alphabet _) as [e|symbol]; [done|].
  cbn [mbind seq_bind] in *.
  destruct (IH n2 (S k) (values ++ symbol) ltac:(lia) Hv2) as (v1 & Hv1 & Hp1 & Hp2).
  exists v1. split; [done|]. split; [|done].
  etrans; [|done]. by apply prefix_app_r.
Qed.

End generator.

Lemma context_table_rows :
  forallb (λ e, Nat.eqb (length e.2) 3 && forallb (Qle_bool 0) e.2 &&
                Qeq_bool (row_sum e.2) 1) context_table = true.
Proof. vm_compute. reflexivity. Qed.

Lemma Forall_slice {A} (P : A → Prop) lo hi (l : list A) :
  Forall P l → Forall P (slice lo hi l).
Proof. intros Hl. unfold slice. by apply Forall_take, Forall_drop. Qed.

(** X17. Let the draws of [np.random.choice] be 0, 1 or 2.  From the
    default initial context ["000"], or one of at least five symbols over
    ["012"], [generate_variable_length_markov_chain] never reaches its
    [else] branch: it returns a sample of exactly [n] symbols ([0] for
    negative [n]), all of them in ["012"]. *)
Theorem generator_sample_length {Seed : Type} (choice : Seed → nat → list Q → Z)
    (seed : Seed) (n : Z) (initial_ctxt : str) :
  valid_choice choice →
  initial_ctxt = lit "000" ∨
    (Forall (λ a, a ∈ lit "012") initial_ctxt ∧ (5 ≤ length initial_ctxt)%nat) →
  ∃ sample,
    generate_variable_length_markov_chain choice n initial_ctxt seed = inr sample ∧
    length sample = Z.to_nat n ∧ Forall (λ a, a ∈ lit "012") sample.
Proof.
  intros Hchoice Hic. unfold generate_variable_length_markov_chain.
  destruct (generate_loop_total choice seed (Z.to_nat n) 0 initial_ctxt Hchoice)
    as (w & -> & Hlen & Hall).
  { intros w Hw. destruct Hic as [->|[Hall Hlen]].
    - by apply select_theta_default.
    - apply select_theta_total; [by apply Forall_app|].
      rewrite length_app. lia. }
  cbn [mbind seq_bind]. exists w.
  by rewrite slice_from, drop_app_length.
Qed.

(** X18. With the same seed and initial context, the sample generated
    for [n1 <= n2] is a prefix of the one generated for [n2]. *)
Theorem generator_prefix {Seed : Type} (choice : Seed → nat → list Q → Z)
    (seed : Seed) (n1 n2 : Z) (initial_ctxt sample2 : str) :
  n1 ≤ n2 →
  generate_variable_length_markov_chain choice n2 initial_ctxt seed = inr sample2 →
  ∃ sample1,
    generate_variable_length_markov_chain choice n1 initial_ctxt seed = inr sample1 ∧
    sample1 `prefix_of` sample2.
Proof.
  intros Hle. unfold generate_variable_length_markov_chain.
  destruct (generate_loop choice seed (Z.to_nat n2) 0 initial_ctxt)
    as [e|v2] eqn:Hv2; [done|]. cbn [mbind seq_bind]. intros [= <-].
  destruct (generate_loop_prefix choice seed (Z.to_nat n1) (Z.to_nat n2) 0
              initial_ctxt v2) as (v1 & -> & [w1 ->] & [w2 ->]); [lia|done|].
  cbn [mbind seq_bind]. eexists. split; [done|].
  rewrite !slice_from, <- app_assoc, !drop_app_length. by exists w2.
Qed.

(** X19. The [if]/[elif] chain of the generator selects the row of the
    context of the table that [values] ends with.  At most one context of
    the table is a suffix of [values], so the order of the comparisons does
    not matter; every string of at least five symbols over ["012"] ends
    with one; and the choice depends on the last five symbols only. *)
Theorem select_theta_contexts (values : str) :
  (∀ p, select_theta values = Some p ↔
        ∃ c, (c, p) ∈ context_table ∧ c `suffix_of` values) ∧
  (∀ c1 p1 c2 p2, (c1, p1) ∈ context_table → (c2, p2) ∈ context_table →
     c1 `suffix_of` values → c2 `suffix_of` values → c1 = c2 ∧ p1 = p2) ∧
  (Forall (λ a, a ∈ lit "012") values → (5 ≤ length values)%nat →
   is_Some (select_theta values)) ∧
  select_theta values = select_theta (slice (Some (-5)) None values).
Proof.
  split; [|split; [|split]].
  - intros p. rewrite select_theta_table. split; [apply table_find_Some|].
    intros (c & Hin & Hs).
    by apply (table_find_unique _ _ c p suffix_free_context_table).
  - intros c1 p1 c2 p2.
    apply (suffix_free_unique _ _ _ _ _ _ suffix_free_context_table).
  - apply select_theta_total.
  - change (Some (-5)) with (Some (Z.opp 5)).
    rewrite slice_neg by lia. rewrite !select_theta_table.
    apply (table_find_last _ _ 5). intros c p Hin. unfold context_table in Hin.
    repeat (apply elem_of_cons in Hin as [[= -> ->]|Hin]; [simpl; lia|]).
    by apply elem_of_nil in Hin.
Qed.

(** X20. Every row that the generator hands to [np.random.choice] has
    three entries, none negative, that add up to 1 (the decimal literals
    read as fractions). *)
Theorem transition_rows_are_distributions (values : str) (p : list Q) :
  select_theta values = Some p →
  length p = 3%nat ∧ Forall (λ q, (0 <= q)%Q) p ∧ (row_sum p == 1)%Q.
Proof.
  rewrite select_theta_table. intros (c & Hin & _)%table_find_Some.
  pose proof context_table_rows as Hrows. rewrite forallb_forall in Hrows.
  apply list_elem_of_In, Hrows in Hin. simpl in Hin.
  apply andb_prop in Hin as [[Hlen Hpos]%andb_prop Hsum].
  split; [by apply Nat.eqb_eq|]. split.
  - apply Forall_forall. intros q Hq%list_elem_of_In.
    rewrite forallb_forall in Hpos. by apply Qle_bool_iff, Hpos.
  - by apply Qeq_bool_iff.
Qed.

(** X21. One example of [example(seed)], for a sample size of at least
    10 (the source uses [10_000] and [1_000]) and draws that are 0, 1 or 2:
    the generator returns [2 * size] symbols, the call of [bct] gets a
    sample of [size] symbols and an initial context of [dmax = 10] symbols
    over ["012"], it returns, and [draw_tree] turns the returned tree into
    a graph with one vertex per node and one edge into each vertex but the
    root, without raising. *)
Theorem example_bct_returns `{FloatOps F} (order : gset str → list str)
    (items : gmap str (list str) → list (str * list str))
    {Seed : Type} (choice : Seed → nat → list Q → Z) (seed : Seed) (sample_size : Z) :
  valid_order order → valid_dict_order items → valid_choice choice → 10 ≤ sample_size →
  ∃ lines tau pm_root nr v_label lab E,
    generate_variable_length_markov_chain choice (sample_size * 2) (lit "000") seed
      = inr lines ∧
    length lines = Z.to_nat (sample_size * 2) ∧
    valid_input (lit "012") 10
      (slice (Some sample_size) None lines) (slice (Some (sample_size - 10)) (Some sample_size) lines) ∧
    length (slice (Some sample_size) None lines) = Z.to_nat sample_size ∧
    length (slice (Some (sample_size - 10)) (Some sample_size) lines) = 10%nat ∧
    example_bct order choice seed sample_size = inr (Ok (tau, pm_root)) ∧
    reachable (lit "012") tau ∧
    draw_tree_labels items tau = (nr, v_label, lab) ∧
    draw_tree_edges items tau = inr E ∧
    nr = Z.of_nat (size (nodes tau)) ∧ E.*2 = range 1 nr.
Proof.
  intros Horder Hitems Hchoice Hsize.
  destruct (generate_loop_total choice seed (Z.to_nat (sample_size * 2)) 0 (lit "000")
              Hchoice) as (lines & Hgen & Hlen & Hall).
  { intros w Hw. by apply select_theta_default. }
  assert (generate_variable_length_markov_chain choice (sample_size * 2) (lit "000") seed
          = inr lines) as Hlines.
  { unfold generate_variable_length_markov_chain. rewrite Hgen.
    cbn [mbind seq_bind]. by rewrite slice_from, drop_app_length. }
  set (sample := slice (Some sample_size) None lines).
  set (ic := slice (Some (sample_size - 10)) (Some sample_size) lines).
  assert (length sample = Z.to_nat sample_size) as Hsample.
  { unfold sample. replace sample_size with (Z.of_nat (Z.to_nat sample_size)) at 1 by lia.
    rewrite slice_from, length_drop. lia. }
  assert (length ic = 10%nat) as Hic.
  { unfold ic. rewrite slice_window by lia.
    rewrite length_take, length_drop. lia. }
  assert (valid_input (lit "012") 10 sample ic) as Hvalid.
  { split.
    - compute_done.
    - by apply Forall_slice.
    - by apply Forall_slice.
    - lia. }
  exists lines.
  assert (∃ t c, construct_tau_max order (lit "012") 10 sample ic = Ok (t, c))
    as (t & c & Hc).
  { destruct (scan_prefix_total (lit "012") 10 sample ic (valid_depth _ _ _ _ Hvalid)
                (Z.of_nat (length (ic ++ sample)))) as (t & c1 & Hscan); [|lia|].
    - pose proof (valid_sample _ _ _ _ Hvalid) as Hs.
      pose proof (valid_ctxt _ _ _ _ Hvalid) as Hi.
      rewrite Forall_forall in Hs, Hi. intros a [?|?]%elem_of_app; auto.
    - eexists _, _. apply construct_tau_max_Ok. eauto. }
  destruct (bct_Ok order Horder (lit "012") 10 (fdiv (of_int 3) (of_int 4))
              sample ic t c Hc) as (pe & pm & tau & v & _ & _ & _ & _ & _ & _ & Hbct);
    [lia|].
  pose proof (bct_reachable _ _ _ _ _ _ _ _ Hbct) as Hr.
  pose proof Hr as [Hcomp Hs]%reachable_complete.
  assert (NoDup (s tau)) as Hnd by (rewrite Hs; compute_done).
  destruct (draw_tree_graph items tau Hitems Hcomp Hnd)
    as (nr & v_label & lab & E & Hlab & HE & Htargets & _).
  exists tau, (fexp v), nr, v_label, lab, E.
  split; [done|]. split; [done|]. split; [done|].
  split; [done|]. split; [done|]. split.
  { unfold example_bct. rewrite Hlines. cbn [mbind seq_bind]. by rewrite <- Hbct. }
  split; [done|]. split; [done|]. split; [done|]. split; [|done].
  rewrite draw_tree_labels_eq in Hlab. injection Hlab as <- _ _.
  rewrite (complete_size_nodes tau Hcomp Hnd), size_dom. lia.
Qed.

(** ** More on the estimated probability *)

Lemma getitem_Raise {V} (d : gmap str V) k e :
  getitem d k = Raise e → e = KeyError ∧ d !! k = None.
Proof. unfold getitem. destruct (d !! k); naive_solver. Qed.

Lemma mapM'_getitem_Raise {V} (d : gmap str V) (g : ascii → str)
    (l : list ascii) e :
  mapM' (λ b, getitem d (g b)) l = Raise e →
  e = KeyError ∧ ∃ b, b ∈ l ∧ d !! g b = None.
Proof.
  induction l as [|b l IH]; [done|]. cbn [mapM'].
  destruct (getitem d (g b)) as [v|e1] eqn:Hb; cbn [mbind result_bind].
  - destruct (mapM' _ l) as [vs|e'] eqn:Hl; cbn [mbind result_bind]; [done|].
    intros [= ->]. destruct (IH eq_refl) as [-> (b' & ? & ?)]. split; [done|].
    exists b'. split; [by right|done].
  - intros [= <-]. apply getitem_Raise in Hb as [-> Hb]. split; [done|].
    exists b. split; [by left|done].
Qed.

Lemma calc_log_pe_Raise `{FloatOps F} (s0 : list ascii) (c : gmap str Z)
    (u : str) (e : exn) :
  calc_log_pe s0 c u = Raise e →
  e = KeyError ∧ ∃ b, b ∈ s0 ∧ c !! (u ++ [b]) = None.
Proof.
  unfold calc_log_pe.
  destruct (mapM' _ s0) as [counts|e'] eqn:Hc; simpl.
  - by case_decide.
  - intros [= ->]. by apply mapM'_getitem_Raise in Hc.
Qed.

(** X22. [calc_log_pe] raises [KeyError] exactly when some transition
    [u + b], [b] in the alphabet, has no entry in the counter, and raises
    nothing else. *)
Theorem calc_log_pe_KeyError `{FloatOps F} (s0 : list ascii) (c : gmap str Z)
    (u : str) :
  (calc_log_pe s0 c u = Raise KeyError ↔
   ∃ b, b ∈ s0 ∧ c !! (u ++ [b]) = None) ∧
  (∀ e, calc_log_pe s0 c u = Raise e → e = KeyError).
Proof.
  split.
  - split; [by intros [_ ?]%calc_log_pe_Raise|].
    intros (b & Hb & Hnone).
    destruct (calc_log_pe s0 c u) as [v|e] eqn:Hcalc.
    + unfold calc_log_pe in Hcalc.
      apply bind_Ok in Hcalc as (counts & Hcounts%mapM'_Forall2 & _).
      apply list_elem_of_lookup in Hb as [i Hi].
      destruct (Forall2_lookup_l _ _ _ _ _ Hcounts Hi) as (n & _ & Hn).
      apply getitem_Ok in Hn. congruence.
    + by apply calc_log_pe_Raise in Hcalc as [-> _].
  - by intros e [? _]%calc_log_pe_Raise.
Qed.

(** ** An initial context shorter than [dmax] *)

Lemma foldM_map {A B} (g : B → B) (f : B → A → result B) (l : list A) (b : B) :
  (∀ b x, x ∈ l →
     f (g b) x = match f b x with Ok b' => Ok (g b') | Raise e => Raise e end) →
  foldM f (g b) l =
  match foldM f b l with Ok b' => Ok (g b') | Raise e => Raise e end.
Proof.
  revert b. induction l as [|x l IH]; intros b Hf; [done|]. cbn [foldM].
  rewrite Hf by left. destruct (f b x) as [b1|e]; [|done].
  cbn [mbind result_bind]. apply IH. intros b2 y ?. apply Hf. by right.
Qed.

Section short_context.
Variables (s0 : list ascii) (dmax : Z) (joint : str).
Implicit Types (t : Tree) (c : gmap str Z) (i j v : Z).

Lemma slice_nil {A} lo hi : slice lo hi ([] : list A) = [].
Proof. unfold slice. by rewrite drop_nil, take_nil. Qed.

(** The window of a position that the initial context does not cover. *)
Lemma window_short i :
  0 ≤ i < dmax → dmax < Z.of_nat (length joint) →
  slice (Some (i - dmax)) (Some (i + 1)) joint = [].
Proof.
  intros Hi HN. unfold slice, py_index; simpl.
  destruct (Z.ltb_spec (i - dmax) 0) as [_|?]; [|lia].
  destruct (Z.ltb_spec (i + 1) 0) as [?|_]; [lia|].
  replace (Z.to_nat ((i + 1) `min` Z.of_nat (length joint)) -
           Z.to_nat (0 `max` (i - dmax + Z.of_nat (length joint))))%nat
    with 0%nat by lia.
  apply take_0.
Qed.

Lemma scan_depth_empty t v j :
  [] ∈ nodes t →
  scan_depth [] (t, {[ [] := v ]}) j = Ok (t, {[ [] := v + 1 ]}).
Proof.
  intros Hroot. unfold scan_depth. rewrite !slice_nil.
  rewrite decide_False by (by intros [_ ?]). cbn [mbind result_bind].
  unfold count_up. by rewrite lookup_singleton_eq, insert_singleton_eq.
Qed.

Lemma scan_depths_empty t v (k : nat) :
  [] ∈ nodes t →
  foldM (scan_depth []) (t, {[ [] := v ]}) (range 0 (Z.of_nat k))
  = Ok (t, {[ [] := v + Z.of_nat k ]}).
Proof.
  intros Hroot. induction k as [|k IH].
  - simpl. by rewrite Z.add_0_r.
  - replace (Z.of_nat (S k)) with (Z.of_nat k + 1) by lia.
    rewrite range_snoc, foldM_app, IH by lia. cbn [mbind result_bind foldM].
    rewrite scan_depth_empty by done. cbn [mbind result_bind].
    do 3 f_equal. lia.
Qed.

Lemma scan_position_short t v i :
  [] ∈ nodes t → 0 ≤ i < dmax → dmax < Z.of_nat (length joint) →
  scan_position dmax joint (t, {[ [] := v ]}) i
  = Ok (t, {[ [] := v + (dmax + 1) ]}).
Proof.
  intros Hroot Hi HN. unfold scan_position. rewrite window_short by done.
  replace (dmax + 1) with (Z.of_nat (Z.to_nat (dmax + 1))) at 1 by lia.
  rewrite scan_depths_empty by done. do 3 f_equal. lia.
Qed.

Lemma scan_positions_short t v lo (k : nat) :
  [] ∈ nodes t → 0 ≤ lo → lo + Z.of_nat k ≤ dmax →
  dmax < Z.of_nat (length joint) →
  foldM (scan_position dmax joint) (t, {[ [] := v ]}) (range lo (lo + Z.of_nat k))
  = Ok (t, {[ [] := v + (dmax + 1) * Z.of_nat k ]}).
Proof.
  intros Hroot Hlo Hk HN. induction k as [|k IH].
  - rewrite range_nil by lia. simpl. do 3 f_equal. lia.
  - replace (lo + Z.of_nat (S k)) with (lo + Z.of_nat k + 1) by lia.
    rewrite range_snoc, foldM_app, IH by lia. cbn [mbind result_bind foldM].
    rewrite scan_position_short by (done || lia). cbn [mbind result_bind].
    do 3 f_equal. lia.
Qed.

(** The scan does not read the entry of the empty string. *)
Lemma count_up_insert_root w c v :
  w ≠ [] → count_up w (<[ [] := v ]> c) = <[ [] := v ]> (count_up w c).
Proof.
  intros Hw. unfold count_up. rewrite lookup_insert_ne by done.
  destruct (c !! w); by rewrite insert_insert_ne.
Qed.

Lemma scan_depth_insert_root i j t c v :
  0 ≤ j ≤ dmax → dmax ≤ i < Z.of_nat (length joint) →
  scan_depth (slice (Some (i - dmax)) (Some (i + 1)) joint) (t, <[ [] := v ]> c) j
  = match scan_depth (slice (Some (i - dmax)) (Some (i + 1)) joint) (t, c) j with
    | Ok st => Ok (st.1, <[ [] := v ]> st.2)
    | Raise e => Raise e
    end.
Proof.
  intros Hj Hi.
  destruct (scan_depth_valid dmax joint i j t c Hj Hi) as (a & Ha & ->).
  destruct (scan_depth_valid dmax joint i j t (<[ [] := v ]> c) Hj Hi)
    as (a' & Ha' & ->).
  assert (a' = a) as -> by congruence.
  destruct (if decide _ then _ else _) as [t'|e]; [|done].
  cbn [mbind result_bind]. simpl. rewrite count_up_insert_root; [done|].
  by destruct (ctx joint i (Z.to_nat j)).
Qed.

Lemma scan_positions_insert_root lo hi t c v :
  0 ≤ dmax ≤ lo → hi ≤ Z.of_nat (length joint) →
  foldM (scan_position dmax joint) (t, <[ [] := v ]> c) (range lo hi)
  = match foldM (scan_position dmax joint) (t, c) (range lo hi) with
    | Ok st => Ok (st.1, <[ [] := v ]> st.2)
    | Raise e => Raise e
    end.
Proof.
  intros Hlo Hhi.
  apply (foldM_map (λ st, (st.1, <[ [] := v ]> st.2))
           (scan_position dmax joint) (range lo hi) (t, c)).
  intros [t1 c1] i Hi%elem_of_range. unfold scan_position.
  apply (foldM_map (λ st, (st.1, <[ [] := v ]> st.2))
           (scan_depth _) (range 0 (dmax + 1)) (t1, c1)).
  intros [t2 c2] j Hj%elem_of_range. simpl.
  apply scan_depth_insert_root; lia.
Qed.

Lemma fill_insert_root c us v :
  foldl (fill_node s0) (<[ [] := v ]> c) us
  = <[ [] := v ]> (foldl (fill_node s0) c us).
Proof.
  apply map_eq. intros w. rewrite foldl_fill_node_lookup.
  destruct (decide (w = [])) as [->|Hw].
  - by rewrite !lookup_insert_eq.
  - by rewrite !lookup_insert_ne, foldl_fill_node_lookup.
Qed.

Lemma log_pe_comprehension_seed `{FloatOps F} c us v :
  log_pe_comprehension (F := F) s0 (<[ [] := v ]> c) us
  = log_pe_comprehension s0 c us.
Proof.
  unfold log_pe_comprehension. generalize (∅ : gmap str F).
  induction us as [|u us IH]; intros d; [done|]. cbn [foldM].
  rewrite calc_log_pe_seed. destruct (calc_log_pe s0 c u); [|done].
  cbn [mbind result_bind]. apply IH.
Qed.

End short_context.

Lemma construct_tau_max_short (order : gset str → list str) (s0 : list ascii)
    (dmax : Z) (sample ic : str) :
  Z.of_nat (length ic) < dmax < Z.of_nat (length (ic ++ sample)) →
  construct_tau_max order s0 dmax sample ic =
  match construct_tau_max order s0 dmax
          (drop (Z.to_nat dmax) (ic ++ sample))
          (take (Z.to_nat dmax) (ic ++ sample)) with
  | Ok (t, c) =>
    Ok (t, <[ [] := Z.of_nat (length sample)
                    + (dmax + 1) * (dmax - Z.of_nat (length ic)) ]> c)
  | Raise e => Raise e
  end.
Proof.
  intros Hlen. set (joint := ic ++ sample) in *.
  unfold construct_tau_max. rewrite take_drop. fold joint.
  rewrite length_take, length_drop.
  replace (Z.of_nat (Z.to_nat dmax `min` length joint)) with dmax by lia.
  rewrite (range_app (Z.of_nat (length ic)) dmax) by lia.
  rewrite foldM_app.
  replace dmax with (Z.of_nat (length ic)
                     + Z.of_nat (Z.to_nat (dmax - Z.of_nat (length ic)))) at 2 by lia.
  rewrite (scan_positions_short dmax joint);
    [|apply complete_root, complete_init|lia..].
  cbn [mbind result_bind].
  rewrite <- (insert_singleton_eq []
                (Z.of_nat (length sample) + (dmax + 1) *
                   Z.of_nat (Z.to_nat (dmax - Z.of_nat (length ic))))
                (Z.of_nat (length joint - Z.to_nat dmax))).
  rewrite scan_positions_insert_root by lia.
  destruct (foldM _ _ (range dmax _)) as [[t c1]|e]; [|done].
  cbn [mbind result_bind fst snd]. rewrite fill_insert_root.
  do 3 f_equal. lia.
Qed.

(** X24. Let [len(initial_ctxt) < dmax < len(initial_ctxt + sample)].
    The positions before [dmax] are read with an empty window: they add
    nothing to the tree and [dmax + 1] each to [counter[""]].
    [construct_tau_max] returns the tree and the counter of the call with
    [joint_sample[:dmax]] as initial context and [joint_sample[dmax:]] as
    sample, except for [counter[""]], which is
    [len(sample) + (dmax + 1) * (dmax - len(initial_ctxt))]; [bct] returns
    what it returns on that call. *)
Theorem short_initial_context `{FloatOps F} (order : gset str → list str)
    (s0 : list ascii) (dmax : Z) (beta : F) (sample ic : str) :
  Z.of_nat (length ic) < dmax < Z.of_nat (length (ic ++ sample)) →
  let joint := ic ++ sample in
  let initial_ctxt' := take (Z.to_nat dmax) joint in
  let sample' := drop (Z.to_nat dmax) joint in
  bct order s0 dmax beta sample ic = bct order s0 dmax beta sample' initial_ctxt' ∧
  match construct_tau_max order s0 dmax sample' initial_ctxt' with
  | Ok (t, c) =>
    construct_tau_max order s0 dmax sample ic =
    Ok (t, <[ [] := Z.of_nat (length sample)
                    + (dmax + 1) * (dmax - Z.of_nat (length ic)) ]> c)
  | Raise e => construct_tau_max order s0 dmax sample ic = Raise e
  end.
Proof.
  intros Hlen. simpl.
  pose proof (construct_tau_max_short order s0 dmax sample ic Hlen) as Hc.
  split.
  - unfold bct. rewrite Hc. clear Hc.
    destruct (construct_tau_max order s0 dmax (drop _ _) _) as [[t c]|e]; [|done].
    cbn [mbind result_bind]. by rewrite log_pe_comprehension_seed.
  - by destruct (construct_tau_max order s0 dmax (drop _ _) _) as [[t c]|e].
Qed.

(** ** The maximal probability on any tree *)


(** ** Pruning any tree *)

(** X28. On any tree whatsoever, also one that [add_node] cannot build,
    and at any bound on the recursion depth: when [prune_at_node(node)]
    returns, the alphabet is unchanged, no node and no entry of [edges]
    has been added or changed, and [node] has no entry in [edges]. *)
Theorem prune_at_node_never_adds (fuel : nat) (t : Tree) (node : str) (t' : Tree) :
  prune_at_node_fuel fuel t node = Ok t' →
  s t' = s t ∧ nodes t' ⊆ nodes t ∧ edges t' ⊆ edges t ∧
  node ∉ dom (edges t').
Proof.
  revert t node t'. induction fuel as [|fuel IH]; intros t node t'; [done|].
  simpl. destruct (edges t !! node) as [children|] eqn:Hnode.
  2: { intros [= <-]. repeat split; [done..|]. by apply not_elem_of_dom. }
  intros (t1 & Hloop & [= <-])%bind_Ok.
  assert (s t1 = s t ∧ nodes t1 ⊆ nodes t ∧ edges t1 ⊆ edges t) as (Hs & Hn & He).
  { revert Hloop. apply (foldM_ind (λ _ t1,
      s t1 = s t ∧ nodes t1 ⊆ nodes t ∧ edges t1 ⊆ edges t)); [done|].
    intros _ child t2 t3 (Hs2 & Hn2 & He2) _. case_decide.
    - intros [= <-]. simpl. split; [done|]. split; [set_solver|done].
    - intros (t4 & (Hs4 & Hn4 & He4 & _)%IH & [= <-])%bind_Ok. simpl.
      split; [congruence|]. split; [set_solver|]. by etrans. }
  simpl. split; [done|]. split; [done|]. split.
  - etrans; [apply delete_subseteq|done].
  - rewrite dom_delete_L. set_solver.
Qed.

(** ** A longer sample *)

Lemma slice_window_app (lo hi : Z) (l k : str) :
  0 ≤ lo → lo ≤ hi → hi ≤ Z.of_nat (length l) →
  slice (Some lo) (Some hi) (l ++ k) = slice (Some lo) (Some hi) l.
Proof.
  intros Hlo Hhi Hlen.
  rewrite !slice_window by (rewrite ?length_app; lia).
  rewrite drop_app_le by lia. rewrite take_app_le; [done|].
  rewrite length_drop. lia.
Qed.

Lemma window_count_app (dmax : Z) (sample ext ic w : str) :
  0 ≤ dmax ≤ Z.of_nat (length ic) →
  w ≠ [] → Z.of_nat (length w) ≤ dmax + 1 →
  window_count (ic ++ sample) (Z.of_nat (length ic))
    (Z.of_nat (length (ic ++ sample))) w
  ≤ window_count ((ic ++ sample) ++ ext) (Z.of_nat (length ic))
      (Z.of_nat (length ((ic ++ sample) ++ ext))) w.
Proof.
  intros Hdepth Hw Hlen. unfold window_count.
  rewrite (range_app (Z.of_nat (length ic)) (Z.of_nat (length (ic ++ sample)))
             (Z.of_nat (length ((ic ++ sample) ++ ext))))
    by (rewrite !length_app; lia).
  rewrite filter_app.
  match goal with
  | |- context [filter ?P (range ?a ?b) ++ _] =>
      assert (filter P (range a b)
              = filter (λ i, slice (Some (i + 1 - Z.of_nat (length w)))
                               (Some (i + 1)) (ic ++ sample) = w) (range a b))
        as ->
  end.
  - apply list_filter_iff_in. intros i Hi%elem_of_range.
    rewrite slice_window_app; [done|..].
    + lia.
    + destruct w; [done|]. simpl length. lia.
    + lia.
  - rewrite (length_app (filter _ _)). lia.
Qed.

(** X29. Let [len(initial_ctxt) >= dmax >= 0].  When the sample is
    extended to the right, the maximal tree and the counts can only grow:
    every node and every key of [edges] of the tree of [sample] is one of
    the tree of [sample + ext], and no transition count [counter[u+b]] is
    smaller. *)
Theorem construct_tau_max_grows (order : gset str → list str)
    (s0 : list ascii) (dmax : Z) (sample ext ic : str)
    (t1 t2 : Tree) (c1 c2 : gmap str Z) :
  valid_order order → 0 ≤ dmax ≤ Z.of_nat (length ic) →
  construct_tau_max order s0 dmax sample ic = Ok (t1, c1) →
  construct_tau_max order s0 dmax (sample ++ ext) ic = Ok (t2, c2) →
  nodes t1 ⊆ nodes t2 ∧ dom (edges t1) ⊆ dom (edges t2) ∧
  ∀ u b v1, u ∈ nodes t1 → b ∈ s0 → c1 !! (u ++ [b]) = Some v1 →
    ∃ v2, c2 !! (u ++ [b]) = Some v2 ∧ v1 ≤ v2.
Proof.
  intros Horder Hdepth H1 H2.
  pose proof (construct_tau_max_inv order Horder _ _ _ _ _ _ H1) as [Hinv1 _].
  pose proof (construct_tau_max_inv order Horder _ _ _ _ _ _ H2) as [Hinv2 Hfull2].
  assert (dom (edges t1) ⊆ dom (edges t2)) as Hkeys.
  { intros u Hu.
    apply (internal_nodes_observed order s0 dmax sample ic Hdepth t1 c1 u H1) in Hu
      as (Hlen & i & Hi & Hctx).
    apply (internal_nodes_observed order s0 dmax (sample ++ ext) ic Hdepth t2 c2 u H2).
    split; [done|]. exists i. rewrite app_assoc. split.
    - rewrite !length_app in *. lia.
    - rewrite slice_window_app; [done|lia..]. }
  assert (nodes t1 ⊆ nodes t2) as Hnodes.
  { intros [|b u] Hx; [apply complete_root, Hinv2|].
    apply (wf_parent _ (complete_wf _ (scan_complete _ _ _ Hinv1))) in Hx as [Hu Hb].
    apply (complete_children _ (scan_complete _ _ _ Hinv2)); [by apply Hkeys|].
    by rewrite (scan_alphabet _ _ _ Hinv2), <- (scan_alphabet _ _ _ Hinv1). }
  split; [done|]. split; [done|]. intros u b v1 Hu Hb Hv1.
  destruct (Hfull2 u b (Hnodes u Hu) Hb) as [v2 Hv2]. exists v2. split; [done|].
  assert (u ++ [b] ≠ []) as Hne by (by destruct u).
  destruct (counter_entries order Horder s0 dmax sample ic Hdepth t1 c1 _ _ H1 Hv1 Hne)
    as [Hlen ->].
  destruct (counter_entries order Horder s0 dmax (sample ++ ext) ic Hdepth
              t2 c2 _ _ H2 Hv2 Hne) as [_ ->].
  rewrite (app_assoc ic sample ext). by apply (window_count_app dmax).
Qed.

(** * Concrete runs *)

Lemma valid_order_elements : valid_order elements_order.
Proof. intros X. reflexivity. Defined.

Lemma valid_order_reverse : valid_order reverse_order.
Proof. intros X. apply reverse_Permutation. Defined.

Lemma example_tree_reachable : reachable (lit "01") example_tree.
Proof.
  apply (reach_add _ (Tree_init (lit "01")) (lit "0")); [apply reach_init|].
  vm_compute. reflexivity.
Defined.

Lemma example_maximal_tree :
  ∃ t c,
    construct_tau_max elements_order (lit "012") 2 (lit "0120012") (lit "00")
    = Ok (t, c).
Proof. eexists _, _. vm_compute. reflexivity. Defined.


Lemma prune_decision_witness :
  edges example_tree !! [] = Some [lit "0"; lit "1"] ∧
  Forall2 (λ child v, ({[ lit "0" := (-1)%Q; lit "1" := (-2)%Q ]} : gmap str Q)
                        !! child = Some v)
    [lit "0"; lit "1"] [(-1)%Q; (-2)%Q] ∧
  ({[ [] := (-1)%Q ]} : gmap str Q) !! [] = Some (-1)%Q ∧
  prune_loop 2 (3 # 4)%Q {[ [] := (-1)%Q ]}
    {[ lit "0" := (-1)%Q; lit "1" := (-2)%Q ]} example_tree [ [] ]
  = Ok (Tree_init (lit "01")).
Proof.
  assert (edges example_tree !! [] = Some [lit "0"; lit "1"]) as H1
    by reflexivity.
  assert (Forall2 (λ child v,
            ({[ lit "0" := (-1)%Q; lit "1" := (-2)%Q ]} : gmap str Q)
              !! child = Some v)
            [lit "0"; lit "1"] [(-1)%Q; (-2)%Q]) as H2
    by (repeat constructor).
  assert (({[ [] := (-1)%Q ]} : gmap str Q) !! [] = Some (-1)%Q) as H3
    by reflexivity.
  split; [exact H1|]. split; [exact H2|]. split; [exact H3|].
  destruct (prune_decision (F := Q) 1 (3 # 4)%Q {[ [] := (-1)%Q ]}
              {[ lit "0" := (-1)%Q; lit "1" := (-2)%Q ]} example_tree []
              [] [lit "0"; lit "1"] [(-1)%Q; (-2)%Q] (-1)%Q H1 H2 H3)
    as (Hprune & _ & _).
  rewrite Hprune by (vm_compute; reflexivity).
  vm_compute. reflexivity.
Defined.

Lemma count_conservation_witness :
  valid_order elements_order ∧ 0 ≤ 2 ≤ Z.of_nat (length (lit "00")) ∧
  NoDup (lit "012") ∧ Forall (λ a, a ∈ lit "012") (lit "0120012") ∧
  ∃ t c,
    construct_tau_max elements_order (lit "012") 2 (lit "0120012") (lit "00")
      = Ok (t, c) ∧
    c !! [] = Some 7.
Proof.
  assert (0 ≤ 2 ≤ Z.of_nat (length (lit "00"))) as Hdepth by (simpl; lia).
  assert (NoDup (lit "012")) as Hnd by compute_done.
  assert (Forall (λ a, a ∈ lit "012") (lit "0120012")) as Hsample
    by compute_done.
  split; [apply valid_order_elements|]. split; [exact Hdepth|].
  split; [exact Hnd|]. split; [exact Hsample|].
  destruct (count_conservation elements_order (lit "012") 2 (lit "0120012")
              (lit "00") valid_order_elements Hdepth Hnd Hsample)
    as (Hreturns & Hcounts & _).
  destruct Hreturns as (t & c & Hc); [compute_done|].
  exists t, c. split; [exact Hc|]. apply (Hcounts t c Hc).
Defined.

Lemma calc_log_pe_formula_witness :
  Forall2 (λ b n, example_counter !! ([] ++ [b]) = Some n ∧ 0 ≤ n)
    (lit "01") [2; 0] ∧
  foldr Z.add 0 [2; 0] + 1 < 2 ^ 63 ∧
  ∃ v, calc_log_pe (F := Q) (lit "01") example_counter [] = Ok v.
Proof.
  assert (Forall2 (λ b n, example_counter !! ([] ++ [b]) = Some n ∧ 0 ≤ n)
            (lit "01") [2; 0]) as Hcounts.
  { repeat constructor; lia. }
  assert (foldr Z.add 0 [2; 0] + 1 < 2 ^ 63) as Hfit by (vm_compute; reflexivity).
  split; [exact Hcounts|]. split; [exact Hfit|].
  destruct (calc_log_pe_formula (F := Q) (lit "01") example_counter [] [2; 0]
              Hcounts Hfit) as (_ & Hformula & _).
  eexists. apply Hformula. intros Hzero. by inversion Hzero.
Defined.

Lemma tree_inv_reachable_witness :
  reachable (lit "01") example_tree ∧ tree_inv example_tree.
Proof.
  split; [apply example_tree_reachable|].
  apply (tree_inv_reachable (lit "01") example_tree example_tree_reachable).
Defined.

Lemma prune_at_node_correct_witness :
  reachable (lit "01") example_tree ∧
  ∃ t', prune_at_node example_tree [] = Ok t' ∧
        [] ∈ nodes t' ∧ [] ∉ dom (edges t').
Proof.
  split; [apply example_tree_reachable|].
  destruct (prune_at_node_correct (lit "01") example_tree []
              example_tree_reachable) as [_ Hprune].
  destruct Hprune as (t' & Ht' & _ & _ & _ & _ & Hin & Hleaf); [compute_done|].
  exists t'. repeat split; assumption.
Defined.

Lemma no_parameter_validation_witness :
  valid_order elements_order ∧
  bct (F := Q) elements_order (lit "01") (-1) (3 # 4)%Q (lit "0") []
  = Raise KeyError.
Proof.
  split; [apply valid_order_elements|].
  apply (no_parameter_validation (F := Q) elements_order (lit "01") (-1)
           (3 # 4)%Q (lit "0") [] valid_order_elements).
  lia.
Defined.

Lemma bct_deterministic_witness :
  valid_order elements_order ∧ valid_order reverse_order ∧
  bct (F := Q) elements_order (lit "012") 2 (3 # 4)%Q (lit "0120012") (lit "00")
  = bct reverse_order (lit "012") 2 (3 # 4)%Q (lit "0120012") (lit "00").
Proof.
  split; [apply valid_order_elements|]. split; [apply valid_order_reverse|].
  apply (bct_deterministic (F := Q) elements_order reverse_order (lit "012") 2
           (3 # 4)%Q (lit "0120012") (lit "00")
           valid_order_elements valid_order_reverse).
Defined.

Lemma valid_input_depth_zero : valid_input (lit "01") 0 (lit "0110") [].
Proof. split; [compute_done..|simpl; lia]. Defined.

Lemma depth_zero_witness :
  valid_order elements_order ∧ valid_input (lit "01") 0 (lit "0110") [] ∧
  ∃ pe_root,
    bct (F := Q) elements_order (lit "01") 0 (3 # 4)%Q (lit "0110") []
    = Ok ({| s := lit "01"; nodes := {[ [] ]}; edges := ∅ |}, fexp pe_root).
Proof.
  split; [apply valid_order_elements|]. split; [apply valid_input_depth_zero|].
  destruct (depth_zero (F := Q) elements_order (lit "01") (3 # 4)%Q
              (lit "0110") [] valid_order_elements valid_input_depth_zero)
    as (c & counts & pe_root & _ & Hbct & _).
  exists pe_root. exact Hbct.
Defined.

Lemma shallow_leaf_zero_counts_witness :
  valid_order elements_order ∧ 0 ≤ 2 ≤ Z.of_nat (length (lit "00")) ∧
  ∃ t c log_pe log_pm,
    construct_tau_max elements_order (lit "012") 2 (lit "0102") (lit "00")
      = Ok (t, c) ∧
    log_pe_comprehension (F := Q) (lit "012") c (elements_order (nodes t))
      = Ok log_pe ∧
    construct_log_pm_dict elements_order (lit "012") 2 (3 # 4)%Q t log_pe
      = Ok log_pm ∧
    (lit "2" ∈ nodes t → lit "2" ∉ dom (edges t) →
     log_pm !! lit "2" = Some (flog (3 # 4)%Q)).
Proof.
  assert (0 ≤ 2 ≤ Z.of_nat (length (lit "00"))) as Hdepth by (simpl; lia).
  split; [apply valid_order_elements|]. split; [exact Hdepth|].
  destruct (shallow_leaf_zero_counts (F := Q) elements_order (lit "012") 2
              (3 # 4)%Q (lit "0102") (lit "00") valid_order_elements Hdepth)
    as (Hreturns & Hleaves).
  destruct Hreturns as (t & c & Hc); [compute_done..|].
  destruct (Hleaves t c Hc) as (log_pe & log_pm & Hpe & Hpm & Hleaf).
  exists t, c, log_pe, log_pm. split; [exact Hc|]. split; [exact Hpe|].
  split; [exact Hpm|]. intros Hin Hnot.
  destruct (Hleaf (lit "2") Hin Hnot) as (_ & _ & _ & Hpm2 & _);
    [simpl; lia|exact Hpm2].
Defined.

(** A sample symbol outside the alphabet: [bct] returns. *)
Lemma out_of_alphabet_symbol_accepted :
  ¬ Forall (λ a, a ∈ lit "01") (lit "2") ∧
  bct (F := R) elements_order (lit "01") 0 (/ 2)%R (lit "2") []
  = Ok (Tree_init (lit "01"), exp 0).
Proof.
  split; [compute_done|].
  set (c := {[ [] := 1; lit "2" := 1; lit "0" := 0; lit "1" := 0 ]} : gmap str Z).
  assert (construct_tau_max elements_order (lit "01") 0 (lit "2") []
          = Ok (Tree_init (lit "01"), c)) as Hc by (vm_compute; reflexivity).
  destruct (bct_root_only (F := R) elements_order valid_order_elements
              (lit "01") 0 (/ 2)%R (lit "2") [] c Hc) as (pe_root & Hcalc & ->);
    [done|].
  rewrite (calc_log_pe_counts (lit "01") c [] [0; 0]) in Hcalc
    by (repeat constructor).
  rewrite decide_True in Hcalc by done. injection Hcalc as <-.
  by rewrite decide_True.
Qed.

(** Two samples of the same length, hence with the same seeded count, and
    different values of [pm_root]. *)
Lemma pm_root_not_from_seeded_count :
  ∃ c1 c2 p1 p2,
    construct_tau_max elements_order (lit "01") 0 (lit "00") []
      = Ok (Tree_init (lit "01"), c1) ∧
    construct_tau_max elements_order (lit "01") 0 (lit "01") []
      = Ok (Tree_init (lit "01"), c2) ∧
    c1 !! [] = Some 2 ∧ c2 !! [] = Some 2 ∧
    bct (F := R) elements_order (lit "01") 0 (/ 2)%R (lit "00") []
      = Ok (Tree_init (lit "01"), p1) ∧
    bct (F := R) elements_order (lit "01") 0 (/ 2)%R (lit "01") []
      = Ok (Tree_init (lit "01"), p2) ∧
    p1 ≠ p2.
Proof.
  set (c1 := {[ [] := 2; lit "0" := 2; lit "1" := 0 ]} : gmap str Z).
  set (c2 := {[ [] := 2; lit "0" := 1; lit "1" := 1 ]} : gmap str Z).
  assert (construct_tau_max elements_order (lit "01") 0 (lit "00") []
          = Ok (Tree_init (lit "01"), c1)) as H1 by (vm_compute; reflexivity).
  assert (construct_tau_max elements_order (lit "01") 0 (lit "01") []
          = Ok (Tree_init (lit "01"), c2)) as H2 by (vm_compute; reflexivity).
  destruct (bct_root_only (F := R) elements_order valid_order_elements
              (lit "01") 0 (/ 2)%R (lit "00") [] c1 H1) as (p1 & Hp1 & Hb1);
    [done|].
  destruct (bct_root_only (F := R) elements_order valid_order_elements
              (lit "01") 0 (/ 2)%R (lit "01") [] c2 H2) as (p2 & Hp2 & Hb2);
    [done|].
  rewrite decide_True in Hb1, Hb2 by done.
  exists c1, c2, (exp p1), (exp p2). repeat (split; [done|]).
  assert (p1 = (0 + ln (1 - / 2) + ln (2 - / 2)
                - (0 + ln (1 + 2 / 2 - 1) + ln (2 + 2 / 2 - 1)))%R) as ->.
  { rewrite (calc_log_pe_counts (lit "01") c1 [] [2; 0]) in Hp1
      by (repeat constructor).
    rewrite decide_False in Hp1 by done. by injection Hp1 as <-. }
  assert (p2 = (0 + ln (1 - / 2) + ln (1 - / 2)
                - (0 + ln (1 + 2 / 2 - 1) + ln (2 + 2 / 2 - 1)))%R) as ->.
  { rewrite (calc_log_pe_counts (lit "01") c2 [] [1; 1]) in Hp2
      by (repeat constructor).
    rewrite decide_False in Hp2 by done. by injection Hp2 as <-. }
  intros Heq%exp_inv.
  assert (ln (2 - / 2) = ln (1 - / 2))%R as Hln by lra.
  apply ln_inv in Hln; lra.
Qed.

(** ** Runs of the further properties *)

Lemma prune_at_root_resets_witness :
  reachable (lit "01") example_tree ∧
  prune_at_node example_tree [] = Ok (Tree_init (lit "01")).
Proof.
  split; [apply example_tree_reachable|].
  apply (prune_at_root_resets (lit "01") example_tree example_tree_reachable).
Defined.

Lemma add_node_prune_round_trip_witness :
  parent_of (lit "00") ∈ nodes example_tree ∧
  (parent_of (lit "00") ∉ dom (edges example_tree)) ∧
  ∃ t', add_node example_tree (lit "00") = Ok t' ∧
        prune_at_node t' (parent_of (lit "00")) = Ok example_tree.
Proof.
  assert (parent_of (lit "00") ∈ nodes example_tree) as Hin by compute_done.
  assert (parent_of (lit "00") ∉ dom (edges example_tree)) as Hleaf
    by compute_done.
  split; [exact Hin|]. split; [exact Hleaf|].
  apply (add_node_prune_round_trip (lit "01") example_tree (lit "00")
           example_tree_reachable Hin Hleaf).
Defined.

Lemma prune_at_node_compose_witness :
  ∃ tu tv tuv,
    prune_at_node example_tree [] = Ok tu ∧
    prune_at_node example_tree (lit "0") = Ok tv ∧
    prune_at_node tu (lit "0") = Ok tuv ∧ prune_at_node tv [] = Ok tuv.
Proof.
  destruct (prune_at_node_compose (lit "01") example_tree [] (lit "0")
              example_tree_reachable) as (tu & tv & tuv & H1 & H2 & H3 & H4 & _).
  exists tu, tv, tuv. repeat split; assumption.
Defined.

Lemma leaves_are_nodes_without_edges_witness :
  lit "01" ≠ [] ∧ reachable (lit "01") example_tree ∧
  lit "0" ∈ nodes example_tree ∧
  (lit "0" ∉ dom (edges example_tree)) ∧
  (lit "10" ∉ nodes example_tree).
Proof.
  assert (lit "01" ≠ []) as Hne by discriminate.
  assert (lit "0" ∈ nodes example_tree) as Hin by compute_done.
  assert (lit "0" ∉ dom (edges example_tree)) as Hleaf by compute_done.
  split; [exact Hne|]. split; [apply example_tree_reachable|].
  split; [exact Hin|]. split; [exact Hleaf|].
  destruct (leaves_are_nodes_without_edges (lit "01") example_tree Hne
              example_tree_reachable) as (Hleaves & _).
  apply (proj1 (Hleaves (lit "0") Hin) Hleaf "1"%char).
Defined.

Lemma node_count_witness :
  NoDup (lit "01") ∧
  size (nodes example_tree)
  = S (length (lit "01") * size (dom (edges example_tree))).
Proof.
  assert (NoDup (lit "01")) as Hnd by compute_done.
  split; [exact Hnd|].
  apply (node_count (lit "01") example_tree example_tree_reachable Hnd).
Defined.

Lemma add_node_siblings_witness :
  ∃ t', add_node (Tree_init (lit "01")) (lit "2") = Ok t' ∧
        add_node t' (lit "2") = Ok t' ∧
        add_node (Tree_init (lit "01")) (lit "0") = Ok t'.
Proof.
  assert (∃ t', add_node (Tree_init (lit "01")) (lit "2") = Ok t') as [t' Hadd].
  { eexists. vm_compute. reflexivity. }
  destruct (add_node_siblings (Tree_init (lit "01")) (lit "2") t' Hadd)
    as (Hsib & Hidem & _).
  exists t'. split; [exact Hadd|]. split; [exact Hidem|].
  apply Hsib. vm_compute. reflexivity.
Defined.

Lemma maximal_tree_internal_nodes_witness :
  0 ≤ 2 ≤ Z.of_nat (length (lit "00")) ∧
  ∃ t c,
    construct_tau_max elements_order (lit "012") 2 (lit "0120012") (lit "00")
      = Ok (t, c) ∧
    ∀ x, x ∈ nodes t ↔
         x = [] ∨ ∃ b u, x = b :: u ∧ b ∈ lit "012" ∧ u ∈ dom (edges t).
Proof.
  assert (0 ≤ 2 ≤ Z.of_nat (length (lit "00"))) as Hdepth by (simpl; lia).
  split; [exact Hdepth|].
  destruct example_maximal_tree as (t & c & Hc). exists t, c.
  split; [exact Hc|].
  apply (maximal_tree_internal_nodes elements_order (lit "012") 2
           (lit "0120012") (lit "00") t c Hdepth Hc).
Defined.

Lemma counter_counts_windows_witness :
  valid_order elements_order ∧ 0 ≤ 2 ≤ Z.of_nat (length (lit "00")) ∧
  ∃ t c,
    construct_tau_max elements_order (lit "012") 2 (lit "0120012") (lit "00")
      = Ok (t, c) ∧
    ∀ u b, u ∈ nodes t → b ∈ lit "012" →
      c !! (u ++ [b]) =
      Some (window_count (lit "00" ++ lit "0120012") 2 9 (u ++ [b])).
Proof.
  assert (0 ≤ 2 ≤ Z.of_nat (length (lit "00"))) as Hdepth by (simpl; lia).
  split; [apply valid_order_elements|]. split; [exact Hdepth|].
  destruct example_maximal_tree as (t & c & Hc). exists t, c.
  split; [exact Hc|].
  apply (counter_counts_windows elements_order (lit "012") 2
           (lit "0120012") (lit "00") t c valid_order_elements Hdepth Hc).
Defined.

Lemma out_of_alphabet_assertion_witness :
  2 ≤ 2 ≤ Z.of_nat (length (lit "02")) ∧
  (lit "02" ++ lit "0") !! Z.to_nat (2 - 1) = Some "2"%char ∧
  ("2"%char ∉ lit "01") ∧
  bct (F := Q) elements_order (lit "01") 2 (3 # 4)%Q (lit "0") (lit "02")
  = Raise AssertionError.
Proof.
  assert (2 ≤ 2 ≤ Z.of_nat (length (lit "02"))) as Hd by (simpl; lia).
  assert (Z.of_nat (length (lit "02")) ≤ 2
          < Z.of_nat (length (lit "02" ++ lit "0"))) as Hi by (simpl; lia).
  assert ((lit "02" ++ lit "0") !! Z.to_nat (2 - 1) = Some "2"%char) as Ha
    by reflexivity.
  assert ("2"%char ∉ lit "01") as Hns by compute_done.
  split; [exact Hd|]. split; [exact Ha|]. split; [exact Hns|].
  apply (out_of_alphabet_assertion (F := Q) elements_order (lit "01") 2 (3 # 4)%Q
           (lit "0") (lit "02") 2 "2"%char Hd Hi Ha Hns).
Defined.

Lemma shallow_depth_accepts_any_symbol_witness :
  valid_order elements_order ∧ 1 ≤ 1 ∧
  ∃ tau pm_root,
    bct (F := Q) elements_order (lit "01") 1 (3 # 4)%Q (lit "0120") (lit "2")
    = Ok (tau, pm_root).
Proof.
  split; [apply valid_order_elements|]. split; [lia|].
  apply (shallow_depth_accepts_any_symbol (F := Q) elements_order (lit "01") 1
           (3 # 4)%Q (lit "0120") (lit "2") valid_order_elements); lia.
Defined.

Lemma bct_tree_characterisation_witness :
  valid_order elements_order ∧ 0 ≤ 2 ∧
  ∃ t c pe pm tau v,
    construct_tau_max elements_order (lit "012") 2 (lit "0120012") (lit "00")
      = Ok (t, c) ∧
    bct (F := Q) elements_order (lit "012") 2 (3 # 4)%Q (lit "0120012") (lit "00")
      = Ok (tau, fexp v) ∧
    ∀ u, u ∈ nodes tau ↔ u ∈ nodes t ∧ kept (3 # 4)%Q t pe pm u.
Proof.
  split; [apply valid_order_elements|]. split; [lia|].
  destruct example_maximal_tree as (t & c & Hc).
  destruct (bct_tree_characterisation (F := Q) elements_order (lit "012") 2
              (3 # 4)%Q (lit "0120012") (lit "00") t c valid_order_elements)
    as (pe & pm & tau & v & _ & _ & _ & Hbct & Hnodes & _); [lia|exact Hc|].
  exists t, c, pe, pm, tau, v. split; [exact Hc|]. split; [exact Hbct|].
  exact Hnodes.
Defined.

Lemma example_bct_result :
  ∃ tau pm_root,
    bct (F := Q) elements_order (lit "012") 2 (3 # 4)%Q (lit "0120012") (lit "00")
    = Ok (tau, pm_root).
Proof. eexists _, _. vm_compute. reflexivity. Defined.

Lemma bct_returns_context_tree_witness :
  valid_order elements_order ∧
  ∃ tau pm_root,
    bct (F := Q) elements_order (lit "012") 2 (3 # 4)%Q (lit "0120012") (lit "00")
      = Ok (tau, pm_root) ∧
    reachable (lit "012") tau ∧ tree_inv tau.
Proof.
  split; [apply valid_order_elements|].
  destruct example_bct_result as (tau & pm_root & Hbct). exists tau, pm_root.
  split; [exact Hbct|].
  destruct (bct_returns_context_tree (F := Q) elements_order (lit "012") 2
              (3 # 4)%Q (lit "0120012") (lit "00") tau pm_root
              valid_order_elements Hbct)
    as (_ & t & c & _ & _ & Hr & Hinv & _).
  split; assumption.
Defined.

Lemma bct_exceptions_witness :
  valid_order elements_order ∧
  bct (F := Q) elements_order (lit "01") (-1) (3 # 4)%Q (lit "0") []
    = Raise KeyError ∧
  -1 < 0.
Proof.
  assert (bct (F := Q) elements_order (lit "01") (-1) (3 # 4)%Q (lit "0") []
          = Raise KeyError) as Hbct by (vm_compute; reflexivity).
  split; [apply valid_order_elements|]. split; [exact Hbct|].
  destruct (bct_exceptions (F := Q) elements_order (lit "01") (-1) (3 # 4)%Q
              (lit "0") [] KeyError valid_order_elements Hbct)
    as [[Habs _]|(_ & Hneg & _)]; [discriminate Habs|exact Hneg].
Defined.

Lemma Qgt_bool_asym (a b : Q) : fgt a b = true → fgt b a = false.
Proof.
  cbn [fgt Qops]. unfold Qgt_bool. rewrite negb_true_iff, negb_false_iff.
  intros Hnle. apply Qle_bool_iff, Qlt_le_weak, Qnot_le_lt.
  intros Hle%Qle_bool_iff. congruence.
Defined.

Lemma log_pm_on_returned_tree_witness :
  valid_order elements_order ∧ 0 ≤ 2 ∧
  ∃ t c pe pm tau v,
    construct_tau_max elements_order (lit "012") 2 (lit "0120012") (lit "00")
      = Ok (t, c) ∧
    construct_log_pm_dict (F := Q) elements_order (lit "012") 2 (3 # 4)%Q t pe
      = Ok pm ∧
    bct (F := Q) elements_order (lit "012") 2 (3 # 4)%Q (lit "0120012") (lit "00")
      = Ok (tau, fexp v).
Proof.
  split; [apply valid_order_elements|]. split; [lia|].
  destruct example_maximal_tree as (t & c & Hc).
  destruct (log_pm_on_returned_tree (F := Q) elements_order (lit "012") 2
              (3 # 4)%Q (lit "0120012") (lit "00") t c
              Qgt_bool_asym valid_order_elements)
    as (pe & pm & tau & v & _ & Hpm & _ & Hbct & _); [lia|exact Hc|].
  exists t, c, pe, pm, tau, v. repeat split; assumption.
Defined.

Lemma valid_dict_order_map : valid_dict_order map_order.
Proof. intros m. reflexivity. Defined.

Lemma draw_tree_labels_are_nodes_witness :
  valid_dict_order map_order ∧ NoDup (lit "01") ∧
  ∃ v_label,
    draw_tree_labels map_order example_tree =
      (Z.of_nat (length v_label), v_label,
       range 0 (Z.of_nat (length v_label))) ∧
    v_label ≡ₚ elements (nodes example_tree).
Proof.
  assert (NoDup (lit "01")) as Hnd by compute_done.
  split; [apply valid_dict_order_map|]. split; [exact Hnd|].
  destruct (draw_tree_labels_are_nodes map_order (lit "01") example_tree
              valid_dict_order_map example_tree_reachable Hnd)
    as (v_label & Hlab & Hperm & _).
  exists v_label. split; assumption.
Defined.

Lemma draw_tree_edges_form_tree_witness :
  valid_dict_order map_order ∧ NoDup (lit "01") ∧
  ∃ nr v_label lab E,
    draw_tree_labels map_order example_tree = (nr, v_label, lab) ∧
    draw_tree_edges map_order example_tree = inr E ∧
    E.*2 = range 1 nr.
Proof.
  assert (NoDup (lit "01")) as Hnd by compute_done.
  split; [apply valid_dict_order_map|]. split; [exact Hnd|].
  destruct (draw_tree_edges_form_tree map_order (lit "01") example_tree
              valid_dict_order_map example_tree_reachable Hnd)
    as (nr & v_label & lab & E & Hlab & HE & Htargets & _).
  exists nr, v_label, lab, E. repeat split; assumption.
Defined.

(** A source of draws that always returns [0]. *)
Lemma valid_choice_zero : valid_choice (λ (_ : unit) (_ : nat) (_ : list Q), 0).
Proof. intros seed k p. lia. Defined.

Lemma generator_sample_length_witness :
  valid_choice (λ (_ : unit) (_ : nat) (_ : list Q), 0) ∧
  ∃ sample,
    generate_variable_length_markov_chain (λ _ _ _, 0) 3 (lit "000") ()
      = inr sample ∧
    length sample = Z.to_nat 3.
Proof.
  split; [apply valid_choice_zero|].
  destruct (generator_sample_length (λ (_ : unit) (_ : nat) (_ : list Q), 0) ()
              3 (lit "000") valid_choice_zero (or_introl eq_refl))
    as (sample & Hgen & Hlen & _).
  exists sample. split; assumption.
Defined.

Lemma generator_prefix_witness :
  1 ≤ 2 ∧
  generate_variable_length_markov_chain
    (λ (_ : unit) (_ : nat) (_ : list Q), 0) 2 (lit "000") () = inr (lit "00") ∧
  ∃ sample1,
    generate_variable_length_markov_chain
      (λ (_ : unit) (_ : nat) (_ : list Q), 0) 1 (lit "000") () = inr sample1 ∧
    sample1 `prefix_of` lit "00".
Proof.
  assert (generate_variable_length_markov_chain
            (λ (_ : unit) (_ : nat) (_ : list Q), 0) 2 (lit "000") ()
          = inr (lit "00")) as Hgen by (vm_compute; reflexivity).
  split; [lia|]. split; [exact Hgen|].
  apply (generator_prefix (λ (_ : unit) (_ : nat) (_ : list Q), 0) () 1 2
           (lit "000") (lit "00")); [lia|exact Hgen].
Defined.

Lemma transition_rows_are_distributions_witness :
  select_theta (lit "0120") = Some theta0210 ∧
  length theta0210 = 3%nat ∧ (row_sum theta0210 == 1)%Q.
Proof.
  assert (select_theta (lit "0120") = Some theta0210) as Hsel
    by (vm_compute; reflexivity).
  split; [exact Hsel|].
  destruct (transition_rows_are_distributions (lit "0120") theta0210 Hsel)
    as (Hlen & _ & Hsum).
  split; assumption.
Defined.

Lemma example_bct_returns_witness :
  valid_order elements_order ∧ valid_dict_order map_order ∧
  valid_choice (λ (_ : unit) (_ : nat) (_ : list Q), 0) ∧ 10 ≤ 10000 ∧
  ∃ tau pm_root E,
    example_bct (F := Q) elements_order (λ _ _ _, 0) () 10000
      = inr (Ok (tau, pm_root)) ∧
    draw_tree_edges map_order tau = inr E.
Proof.
  split; [apply valid_order_elements|]. split; [apply valid_dict_order_map|].
  split; [apply valid_choice_zero|]. split; [lia|].
  destruct (example_bct_returns (F := Q) elements_order map_order
              (λ (_ : unit) (_ : nat) (_ : list Q), 0) () 10000
              valid_order_elements valid_dict_order_map valid_choice_zero)
    as (lines & tau & pm_root & nr & v_label & lab & E & _ & _ & _ & _ & _ &
        Hbct & _ & _ & HE & _); [lia|].
  exists tau, pm_root, E. split; assumption.
Defined.

Lemma short_initial_context_witness :
  Z.of_nat (length (lit "0")) < 2 < Z.of_nat (length (lit "0" ++ lit "0110")) ∧
  bct (F := Q) elements_order (lit "01") 2 (3 # 4)%Q (lit "0110") (lit "0")
  = bct elements_order (lit "01") 2 (3 # 4)%Q
      (drop (Z.to_nat 2) (lit "0" ++ lit "0110"))
      (take (Z.to_nat 2) (lit "0" ++ lit "0110")).
Proof.
  assert (Z.of_nat (length (lit "0")) < 2
          < Z.of_nat (length (lit "0" ++ lit "0110"))) as Hlen by (simpl; lia).
  split; [exact Hlen|].
  apply (short_initial_context (F := Q) elements_order (lit "01") 2 (3 # 4)%Q
           (lit "0110") (lit "0") Hlen).
Defined.


Lemma prune_at_node_never_adds_witness :
  ∃ t', prune_at_node_fuel 4 chain_tree (lit "a") = Ok t' ∧
        s t' = s chain_tree ∧ nodes t' ⊆ nodes chain_tree ∧
        edges t' ⊆ edges chain_tree ∧ (lit "a" ∉ dom (edges t')).
Proof.
  assert (∃ t', prune_at_node_fuel 4 chain_tree (lit "a") = Ok t') as [t' Ht'].
  { eexists. vm_compute. reflexivity. }
  exists t'. split; [exact Ht'|].
  apply (prune_at_node_never_adds 4 chain_tree (lit "a") t' Ht').
Defined.

Lemma construct_tau_max_grows_witness :
  valid_order elements_order ∧ 0 ≤ 2 ≤ Z.of_nat (length (lit "00")) ∧
  ∃ t1 c1 t2 c2,
    construct_tau_max elements_order (lit "012") 2 (lit "0120") (lit "00")
      = Ok (t1, c1) ∧
    construct_tau_max elements_order (lit "012") 2 (lit "0120" ++ lit "012")
      (lit "00") = Ok (t2, c2) ∧
    nodes t1 ⊆ nodes t2 ∧ dom (edges t1) ⊆ dom (edges t2) ∧
    ∀ u b v1, u ∈ nodes t1 → b ∈ lit "012" → c1 !! (u ++ [b]) = Some v1 →
      ∃ v2, c2 !! (u ++ [b]) = Some v2 ∧ v1 ≤ v2.
Proof.
  assert (0 ≤ 2 ≤ Z.of_nat (length (lit "00"))) as Hdepth by (simpl; lia).
  split; [apply valid_order_elements|]. split; [exact Hdepth|].
  assert (∃ t1 c1, construct_tau_max elements_order (lit "012") 2 (lit "0120")
                     (lit "00") = Ok (t1, c1)) as (t1 & c1 & H1).
  { eexists _, _. vm_compute. reflexivity. }
  destruct example_maximal_tree as (t2 & c2 & H2).
  exists t1, c1, t2, c2. split; [exact H1|]. split; [exact H2|].
  apply (construct_tau_max_grows elements_order (lit "012") 2 (lit "0120")
           (lit "012") (lit "00") t1 t2 c1 c2 valid_order_elements Hdepth H1 H2).
Defined.
